(** * graphql-transport-ws: the per-connection protocol engine

    A shallow embedding of [graphqlws/internal/connection/connection.go]:
    the wire envelope, [errPayload], the message handlers of [readLoop],
    the writer goroutine of [writeLoop], the streaming goroutines spawned by
    [start], and [conn.close].  Goroutines are modelled by an interleaving
    step function whose actions name the goroutine that moves and the
    outcome chosen by the environment (which message [ReadJSON] returns,
    whether a transport write succeeds, which ready [select] case fires). *)

From Stdlib Require Import ZArith Ascii String.
From stdpp Require Import base option list gmap strings.

Local Open Scope string_scope.
Local Open Scope list_scope.

(** ** Message codec *)

Definition operationMessageType := string.

Definition typeComplete : operationMessageType := "complete".
Definition typeConnectionAck : operationMessageType := "connection_ack".
Definition typeConnectionError : operationMessageType := "connection_error".
Definition typeConnectionInit : operationMessageType := "connection_init".
Definition typeConnectionKeepAlive : operationMessageType := "ka".
Definition typeConnectionTerminate : operationMessageType := "connection_terminate".
Definition typeData : operationMessageType := "data".
Definition typeError : operationMessageType := "error".
Definition typeStart : operationMessageType := "start".
Definition typeStop : operationMessageType := "stop".
Definition typePing : operationMessageType := "ping".
Definition typeReceive : operationMessageType := "receive".
Definition typePong : operationMessageType := "pong".

(** A Go [error]; the connection only ever observes its [Error()] text. *)
Record error := mkError { Error : string }.

(** [json.RawMessage]: [None] is the nil slice the code passes for frames
    without payload. *)
Definition RawMessage := option string.

Record operationMessage := mkMsg {
  ID : string;
  Payload : RawMessage;
  Type_ : operationMessageType
}.

Record startMessagePayload (Variables : Type) := mkStart {
  OperationName : string;
  Query : string;
  Variables_ : Variables
}.
Arguments mkStart {Variables} _ _ _.
Arguments OperationName {Variables} _.
Arguments Query {Variables} _.
Arguments Variables_ {Variables} _.

Record receiveMessagePayload := mkReceive { rp_ID : string }.

#[global] Instance error_eq_dec : EqDecision error.
Proof. solve_decision. Defined.

#[global] Instance operationMessage_eq_dec : EqDecision operationMessage.
Proof. solve_decision. Defined.

(** ** [encoding/json] string literals

    [errPayload] marshals a struct with one string field.  The encoder below
    follows [encodeState.string] of Go's [encoding/json] with HTML escaping
    on (what [json.Marshal] uses), byte for byte: ASCII bytes are copied
    unless they are a quote, a backslash, a control byte or one of [<>&];
    bytes that do not start a valid UTF-8 sequence become the six-byte
    escape of U+FFFD; U+2028 and U+2029 are escaped; every other rune is
    copied.  Control bytes other than tab, line feed and carriage return are
    written as [u00XX] escapes, as the Go releases of the repository's time
    do (later releases write backspace and form feed as two-character
    escapes, which read back the same). *)

Definition quote : ascii := ascii_of_nat 34.
Definition backslash : ascii := ascii_of_nat 92.

Definition hex : string := "0123456789abcdef".

Definition hex_digit (n : N) : ascii :=
  default "0"%char (String.get (N.to_nat n) hex).

Definition byte (c : ascii) : N := N_of_ascii c.

Definition in_range (lo hi : N) (c : ascii) : bool :=
  ((lo <=? byte c) && (byte c <=? hi))%N.

(** [htmlSafeSet]: printable ASCII other than the five escaped bytes. *)
Definition htmlSafe (c : ascii) : bool :=
  in_range 32 127 c
  && negb (bool_decide (c ∈ [quote; backslash; "<"%char; ">"%char; "&"%char])).

Definition escape_ascii (c : ascii) : string :=
  if htmlSafe c then String c EmptyString
  else
    String backslash
      (if bool_decide (c = backslash) || bool_decide (c = quote) then String c EmptyString
       else if (byte c =? 10)%N then "n"
       else if (byte c =? 13)%N then "r"
       else if (byte c =? 9)%N then "t"
       else String "u" (String "0" (String "0"
              (String (hex_digit (N.shiftr (byte c) 4))
                (String (hex_digit (N.land (byte c) 15)) EmptyString))))).

(** The continuation byte ranges of [utf8.DecodeRuneInString]: the range of
    the second byte depends on the first ([acceptRanges]). *)
Definition cont (c : ascii) : bool := in_range 128 191 c.

Definition rune2 (b0 b1 : ascii) : bool := in_range 194 223 b0 && cont b1.

Definition rune3 (b0 b1 b2 : ascii) : bool :=
  ((byte b0 =? 224)%N && in_range 160 191 b1
   || (in_range 225 236 b0 || in_range 238 239 b0) && cont b1
   || (byte b0 =? 237)%N && in_range 128 159 b1)
  && cont b2.

Definition rune4 (b0 b1 b2 b3 : ascii) : bool :=
  ((byte b0 =? 240)%N && in_range 144 191 b1
   || in_range 241 243 b0 && cont b1
   || (byte b0 =? 244)%N && in_range 128 143 b1)
  && cont b2 && cont b3.

(** U+2028 and U+2029 are the bytes E2 80 A8 and E2 80 A9; the last hex
    digit of the rune is the low nibble of the third byte. *)
Definition line_sep (b0 b1 b2 : ascii) : bool :=
  (byte b0 =? 226)%N && (byte b1 =? 128)%N && in_range 168 169 b2.

Definition replacement : string := String backslash "ufffd".

Fixpoint encode_runes (s : string) : string :=
  match s with
  | EmptyString => EmptyString
  | String b0 s1 =>
    if (byte b0 <? 128)%N then escape_ascii b0 +:+ encode_runes s1
    else
      let bad := replacement +:+ encode_runes s1 in
      match s1 with
      | EmptyString => bad
      | String b1 s2 =>
        if rune2 b0 b1 then String b0 (String b1 (encode_runes s2))
        else
          match s2 with
          | EmptyString => bad
          | String b2 s3 =>
            if rune3 b0 b1 b2 then
              (if line_sep b0 b1 b2
               then String backslash "u202"
                    +:+ String (hex_digit (N.land (byte b2) 15)) EmptyString
               else String b0 (String b1 (String b2 EmptyString)))
              +:+ encode_runes s3
            else
              match s3 with
              | EmptyString => bad
              | String b3 s4 =>
                if rune4 b0 b1 b2 b3
                then String b0 (String b1 (String b2 (String b3 (encode_runes s4))))
                else bad
              end
          end
      end
  end.

Definition encode_string (s : string) : string :=
  String quote (encode_runes s +:+ String quote EmptyString).

(** ** errPayload *)

Definition errPayload (err : error) : RawMessage :=
  Some ("{" +:+ encode_string "message" +:+ ":" +:+ encode_string (Error err) +:+ "}").

Definition quoted (s : string) : string := String quote (s +:+ String quote EmptyString).

(** ** Collaborators

    [encoding/json] on the payload shapes and the [GraphQLService] interface
    are outside the connection; they are taken as an interface.  A
    subscription's result channel is the list of values it yields before it
    is closed.  [Subscribe] receives the operation scope it runs under. *)

Inductive result (A : Type) := Ok (a : A) | Err (e : error).
Arguments Ok {A} _.
Arguments Err {A} _.

Class GraphQLService (Variables Value Response : Type) := {
  Subscribe : nat -> string -> string -> Variables -> result (list Value);
  Exec : string -> string -> option Variables -> Response
}.

Class JSON (Variables Value Response : Type) := {
  Unmarshal_init : RawMessage -> result unit;
  Unmarshal_start : RawMessage -> result (startMessagePayload Variables);
  Unmarshal_receive : RawMessage -> result receiveMessagePayload;
  Marshal_payload : Value -> result string;
  Marshal_response : Response -> result string
}.

(** ** Goroutines *)

(** Where a streaming goroutine stands: at its [select], inside
    [send(msg.ID, typeData/typeError, ...)] (the loop goes on afterwards),
    inside the final [send(msg.ID, typeComplete, nil)], or returned. *)
Inductive stream_pc :=
  | SSelect
  | SSend (m : operationMessage)
  | SComplete
  | SDone.

Record streamer (Value : Type) := mkStreamer {
  s_id : string;          (* msg.ID captured by the closure *)
  s_scope : nat;          (* opCtx / cancel *)
  s_chan : list Value;    (* what c still yields before it is closed *)
  s_pc : stream_pc
}.
Arguments mkStreamer {Value} _ _ _ _.
Arguments s_id {Value} _.
Arguments s_scope {Value} _.
Arguments s_chan {Value} _.
Arguments s_pc {Value} _.

Inductive service_call (Variables : Type) :=
  | CallSubscribe (scope : nat) (document operationName : string) (variables : Variables)
  | CallExec (query operationName : string) (variables : option Variables).
Arguments CallSubscribe {Variables} _ _ _ _.
Arguments CallExec {Variables} _ _ _.

(** ** The dispatcher's handlers

    One iteration of the [for] loop of [readLoop] after [ReadJSON] returned
    [msg]: what it does to [opDone], which operation scopes it creates and
    cancels, which service calls it makes, the goroutine it starts, the
    frames it passes to [send] (in order: in every branch the sends come
    last), and whether [readLoop] returns. *)

Record outcome (Variables Value : Type) := mkOutcome {
  o_opDone : gmap string nat;
  o_scoped : bool;
  o_cancel : list nat;
  o_calls : list (service_call Variables);
  o_go : option (streamer Value);
  o_sends : list operationMessage;
  o_return : bool
}.
Arguments mkOutcome {Variables Value} _ _ _ _ _ _ _.
Arguments o_opDone {Variables Value} _.
Arguments o_scoped {Variables Value} _.
Arguments o_cancel {Variables Value} _.
Arguments o_calls {Variables Value} _.
Arguments o_go {Variables Value} _.
Arguments o_sends {Variables Value} _.
Arguments o_return {Variables Value} _.

Section Handlers.
Context {Variables Value Response : Type}.
Context {service : GraphQLService Variables Value Response}.
Context {json : JSON Variables Value Response}.

#[local] Abbreviation outcome := (outcome Variables Value).

(** [fmt.Sprintf] with a single [%s] verb. *)
Definition invalid_payload (t : operationMessageType) : error :=
  mkError ("invalid payload for type: " +:+ t).

Definition unknown_type (t : operationMessageType) : error :=
  mkError ("unknown operation message of type: " +:+ t).

Definition receive_query (id : string) : string :=
  "mutation {receive_socket_event(id:" +:+ id +:+ ")}".

(** A branch that only replies. *)
Definition reply (opDone : gmap string nat) (calls : list (service_call Variables))
    (sends : list operationMessage) : outcome :=
  mkOutcome opDone false [] calls None sends false.

Definition handle (opDone : gmap string nat) (fresh : nat) (msg : operationMessage) : outcome :=
  if decide (Type_ msg = typeConnectionInit) then
    match Unmarshal_init (Payload msg) with
    | Err _ =>
      reply opDone []
        [mkMsg EmptyString (errPayload (invalid_payload (Type_ msg))) typeConnectionError]
    | Ok _ => reply opDone [] [mkMsg EmptyString None typeConnectionAck]
    end
  else if decide (Type_ msg = typeStart) then
    if decide (ID msg = EmptyString) then
      reply opDone []
        [mkMsg EmptyString (errPayload (mkError "missing ID for start operation"))
           typeConnectionError]
    else
      match Unmarshal_start (Payload msg) with
      | Err _ =>
        reply opDone []
          [mkMsg (ID msg) (errPayload (invalid_payload (Type_ msg))) typeConnectionError]
      | Ok osp =>
        let call :=
          CallSubscribe fresh (Query osp) (OperationName osp) (Variables_ osp) in
        match Subscribe fresh (Query osp) (OperationName osp) (Variables_ osp) with
        | Err err =>
          mkOutcome opDone true [fresh] [call] None
            [mkMsg (ID msg) (errPayload err) typeError;
             mkMsg (ID msg) None typeComplete]
            false
        | Ok c =>
          mkOutcome (<[ID msg := fresh]> opDone) true [] [call]
            (Some (mkStreamer (ID msg) fresh c SSelect)) [] false
        end
      end
  else if decide (Type_ msg = typeStop) then
    match opDone !! ID msg with
    | Some onDone =>
      mkOutcome (delete (ID msg) opDone) false [onDone] [] None
        [mkMsg (ID msg) None typeComplete] false
    | None => reply opDone [] [mkMsg (ID msg) None typeComplete]
    end
  else if decide (Type_ msg = typePing) then
    let query := "{check_subscription}" in
    match Marshal_response (Exec query EmptyString None) with
    | Err err =>
      reply opDone [CallExec query EmptyString None]
        [mkMsg (ID msg) (errPayload err) typeError]
    | Ok responseJSON =>
      reply opDone [CallExec query EmptyString None]
        [mkMsg EmptyString (Some responseJSON) typePong]
    end
  else if decide (Type_ msg = typeReceive) then
    match Unmarshal_receive (Payload msg) with
    | Err err => reply opDone [] [mkMsg (ID msg) (errPayload err) typeError]
    | Ok rp =>
      let query := receive_query (rp_ID rp) in
      match Marshal_response (Exec query EmptyString None) with
      | Err err =>
        reply opDone [CallExec query EmptyString None]
          [mkMsg (ID msg) (errPayload err) typeError]
      | Ok responseJSON =>
        reply opDone [CallExec query EmptyString None]
          [mkMsg EmptyString (Some responseJSON) typePong]
      end
    end
  else if decide (Type_ msg = typeConnectionTerminate) then
    mkOutcome opDone false [] [] None [] true
  else
    reply opDone [] [mkMsg (ID msg) (errPayload (unknown_type (Type_ msg))) typeError].

End Handlers.

(** ** The connection as a system of goroutines *)

Inductive thread :=
  | Caller                (* whoever holds the root context or the returned cancel *)
  | Dispatcher            (* the goroutine running Connect and readLoop *)
  | Writer                (* the goroutine started by writeLoop *)
  | Streamer (i : nat).   (* the i-th goroutine started by a start message *)

(** Calls on the [wsConnection] interface, with what the transport answered. *)
Inductive ws_call :=
  | Close
  | ReadJSON (r : option operationMessage)
  | SetReadLimit (limit : Z)
  | SetWriteDeadline (timeout : Z) (ok : bool)
  | WriteJSON (m : operationMessage) (ok : bool).

(** [readLoop]: in the loop with the sends of the current iteration still to
    make (none: blocked in [ReadJSON]), returning with the deferred
    [conn.close()] still to run, or finished. *)
Inductive reader_pc :=
  | RLoop (sends : list operationMessage)
  | RDefer
  | RDone.

(** The writer goroutine: at its outer [select]; holding a message received
    from [out], before the inner [select]; before [SetWriteDeadline]; before
    [WriteJSON]; returning, with [conn.close()] and then [close(stop)]
    still to run; finished. *)
Inductive writer_pc :=
  | WSelect
  | WGot (m : operationMessage)
  | WDeadline (m : operationMessage)
  | WWrite (m : operationMessage)
  | WDefer
  | WStop
  | WDone.

Record state (Variables Value : Type) := mkState {
  writeTimeout : Z;                         (* conn.writeTimeout, nanoseconds *)
  ctxDone : bool;                           (* ctx of Connect is cancelled *)
  stopClosed : bool;                        (* the stop channel is closed *)
  opDone : gmap string nat;                 (* id -> scope its cancel cancels *)
  scopes : nat;                             (* operation scopes created *)
  cancelled : gset nat;                     (* scopes whose cancel was called *)
  reader : reader_pc;
  writer : writer_pc;
  streamers : list (streamer Value);
  service_log : list (service_call Variables);
  ws_log : list (thread * ws_call)          (* oldest call first *)
}.
Arguments mkState {Variables Value} _ _ _ _ _ _ _ _ _ _ _.
Arguments writeTimeout {Variables Value} _.
Arguments ctxDone {Variables Value} _.
Arguments stopClosed {Variables Value} _.
Arguments opDone {Variables Value} _.
Arguments scopes {Variables Value} _.
Arguments cancelled {Variables Value} _.
Arguments reader {Variables Value} _.
Arguments writer {Variables Value} _.
Arguments streamers {Variables Value} _.
Arguments service_log {Variables Value} _.
Arguments ws_log {Variables Value} _.

Inductive action :=
  | Cancel                          (* the root scope is cancelled from outside *)
  | Read (r : option operationMessage)   (* ReadJSON returns msg, or an error *)
  | Send (t : thread) (stopped : bool)   (* t's send: case <-stop, or case out <- msg *)
  | DispatcherClose                 (* the deferred conn.close() of readLoop *)
  | WriterDone                      (* outer select: case <-ctx.Done() *)
  | WriterCheck                     (* the inner select *)
  | WriterSetDeadline (ok : bool)
  | WriterWrite (ok : bool)
  | WriterClose                     (* the deferred conn.close() *)
  | WriterCloseStop                 (* the deferred close(stop) *)
  | StreamDone (i : nat)            (* case <-opCtx.Done() *)
  | StreamRecv (i : nat).           (* case payload, more := <-c *)

Inductive conn_option :=
  | ReadLimit (limit : Z)
  | WriteTimeout (d : Z).

Definition Second : Z := 1000000000.

Definition defaultOpts : list conn_option := [ReadLimit 4096; WriteTimeout Second].

Section Connection.
Context {Variables Value Response : Type}.
Context {service : GraphQLService Variables Value Response}.
Context {json : JSON Variables Value Response}.

#[local] Abbreviation state := (state Variables Value).

Definition set_writeTimeout (d : Z) (s : state) : state :=
  mkState d (ctxDone s) (stopClosed s) (opDone s) (scopes s) (cancelled s)
    (reader s) (writer s) (streamers s) (service_log s) (ws_log s).

Definition set_ctxDone (s : state) : state :=
  mkState (writeTimeout s) true (stopClosed s) (opDone s) (scopes s) (cancelled s)
    (reader s) (writer s) (streamers s) (service_log s) (ws_log s).

Definition set_stopClosed (s : state) : state :=
  mkState (writeTimeout s) (ctxDone s) true (opDone s) (scopes s) (cancelled s)
    (reader s) (writer s) (streamers s) (service_log s) (ws_log s).

Definition set_reader (r : reader_pc) (s : state) : state :=
  mkState (writeTimeout s) (ctxDone s) (stopClosed s) (opDone s) (scopes s) (cancelled s)
    r (writer s) (streamers s) (service_log s) (ws_log s).

Definition set_writer (w : writer_pc) (s : state) : state :=
  mkState (writeTimeout s) (ctxDone s) (stopClosed s) (opDone s) (scopes s) (cancelled s)
    (reader s) w (streamers s) (service_log s) (ws_log s).

Definition set_streamers (gs : list (streamer Value)) (s : state) : state :=
  mkState (writeTimeout s) (ctxDone s) (stopClosed s) (opDone s) (scopes s) (cancelled s)
    (reader s) (writer s) gs (service_log s) (ws_log s).

Definition cancel (scope : nat) (s : state) : state :=
  mkState (writeTimeout s) (ctxDone s) (stopClosed s) (opDone s) (scopes s)
    ({[scope]} ∪ cancelled s)
    (reader s) (writer s) (streamers s) (service_log s) (ws_log s).

(** A call on the transport made by goroutine [t]. *)
Definition ws (t : thread) (c : ws_call) (s : state) : state :=
  mkState (writeTimeout s) (ctxDone s) (stopClosed s) (opDone s) (scopes s) (cancelled s)
    (reader s) (writer s) (streamers s) (service_log s) (ws_log s ++ [(t, c)]).

(** [conn.close], run by goroutine [t]. *)
Definition close (t : thread) (s : state) : state := ws t Close (set_ctxDone s).

(** The effects of one handler, up to its sends. *)
Definition dispatch (o : outcome Variables Value) (s : state) : state :=
  mkState (writeTimeout s) (ctxDone s) (stopClosed s)
    (o_opDone o)
    (if o_scoped o then S (scopes s) else scopes s)
    (list_to_set (o_cancel o) ∪ cancelled s)
    (if o_return o then RDefer else RLoop (o_sends o))
    (writer s)
    (streamers s ++ option_list (o_go o))
    (service_log s ++ o_calls o)
    (ws_log s).

(** The [send] closure of [writeLoop]: either [stop] is closed and it
    returns, or the writer is at its outer [select] and takes the message. *)
Definition send (stopped : bool) (m : operationMessage) (s : state) : option state :=
  if stopped then (if stopClosed s then Some s else None)
  else match writer s with
       | WSelect => Some (set_writer (WGot m) s)
       | _ => None
       end.

(** [opCtx.Done()] is ready once the operation's cancel or the connection's
    was called. *)
Definition scope_done (scope : nat) (s : state) : bool :=
  ctxDone s || bool_decide (scope ∈ cancelled s).

Definition set_pc (i : nat) (g : streamer Value) (pc : stream_pc) (s : state) : state :=
  set_streamers (<[i := mkStreamer (s_id g) (s_scope g) (s_chan g) pc]> (streamers s)) s.

(** The frame the streaming goroutine makes of a value received from [c]. *)
Definition frame_of (id : string) (payload : Value) : operationMessage :=
  match Marshal_payload payload with
  | Err err => mkMsg id (errPayload err) typeError
  | Ok jsonPayload => mkMsg id (Some jsonPayload) typeData
  end.

(** What the streaming goroutine does with what it received from [c]: with
    [c] closed it goes on to send complete, with a value to send its frame. *)
Definition received (g : streamer Value) : streamer Value :=
  match s_chan g with
  | [] => mkStreamer (s_id g) (s_scope g) [] SComplete
  | payload :: c => mkStreamer (s_id g) (s_scope g) c (SSend (frame_of (s_id g) payload))
  end.

Definition step (a : action) (s : state) : option state :=
  match a with
  | Cancel => Some (set_ctxDone s)
  | Read r =>
    match reader s with
    | RLoop [] =>
      let s := ws Dispatcher (ReadJSON r) s in
      match r with
      | None => Some (set_reader RDefer s)
      | Some msg => Some (dispatch (handle (opDone s) (scopes s) msg) s)
      end
    | _ => None
    end
  | Send Dispatcher stopped =>
    match reader s with
    | RLoop (m :: sends) => set_reader (RLoop sends) <$> send stopped m s
    | _ => None
    end
  | Send (Streamer i) stopped =>
    g ← streamers s !! i;
    match s_pc g with
    | SSend m => set_pc i g SSelect <$> send stopped m s
    | SComplete =>
      (λ s, cancel (s_scope g) (set_pc i g SDone s))
        <$> send stopped (mkMsg (s_id g) None typeComplete) s
    | _ => None
    end
  | Send _ _ => None
  | DispatcherClose =>
    match reader s with
    | RDefer => Some (set_reader RDone (close Dispatcher s))
    | _ => None
    end
  | WriterDone =>
    match writer s with
    | WSelect => if ctxDone s then Some (set_writer WDefer s) else None
    | _ => None
    end
  | WriterCheck =>
    match writer s with
    | WGot m => Some (set_writer (if ctxDone s then WDefer else WDeadline m) s)
    | _ => None
    end
  | WriterSetDeadline ok =>
    match writer s with
    | WDeadline m =>
      Some (set_writer (if ok then WWrite m else WDefer)
              (ws Writer (SetWriteDeadline (writeTimeout s) ok) s))
    | _ => None
    end
  | WriterWrite ok =>
    match writer s with
    | WWrite m =>
      Some (set_writer (if ok then WSelect else WDefer) (ws Writer (WriteJSON m ok) s))
    | _ => None
    end
  | WriterClose =>
    match writer s with
    | WDefer => Some (set_writer WStop (close Writer s))
    | _ => None
    end
  | WriterCloseStop =>
    match writer s with
    | WStop => Some (set_writer WDone (set_stopClosed s))
    | _ => None
    end
  | StreamDone i =>
    g ← streamers s !! i;
    match s_pc g with
    | SSelect =>
      if scope_done (s_scope g) s
      then Some (cancel (s_scope g) (set_pc i g SDone s))
      else None
    | _ => None
    end
  | StreamRecv i =>
    g ← streamers s !! i;
    match s_pc g with
    | SSelect => Some (set_streamers (<[i := received g]> (streamers s)) s)
    | _ => None
    end
  end.

Fixpoint run (sched : list action) (s : state) : option state :=
  match sched with
  | [] => Some s
  | a :: sched => s' ← step a s; run sched s'
  end.

(** [Connect], up to the point where the writer goroutine is started and
    [readLoop] is entered; [run] takes it from there. *)
Definition apply_option (s : state) (opt : conn_option) : state :=
  match opt with
  | ReadLimit limit => ws Dispatcher (SetReadLimit limit) s
  | WriteTimeout d => set_writeTimeout d s
  end.

Definition Connect (options : list conn_option) : state :=
  foldl apply_option
    (mkState 0 false false ∅ 0 ∅ (RLoop []) WSelect [] [] [])
    (defaultOpts ++ options).

(** ** Observations *)

(** The frames the transport accepted, in order. *)
Definition written_frame (e : thread * ws_call) : option operationMessage :=
  match e.2 with
  | WriteJSON m true => Some m
  | _ => None
  end.

Definition written (s : state) : list operationMessage := omap written_frame (ws_log s).

Definition is_write (c : ws_call) : bool :=
  match c with
  | SetWriteDeadline _ _ | WriteJSON _ _ => true
  | _ => false
  end.

Definition is_close (e : thread * ws_call) : bool :=
  match e.2 with
  | Close => true
  | _ => false
  end.

Definition closes (s : state) : nat := length (filter is_close (ws_log s)).

Definition received_msgs (s : state) : list operationMessage :=
  omap (λ e, match e.2 with ReadJSON r => r | _ => None end) (ws_log s).

Definition frames_of (id : string) (l : list operationMessage) : list operationMessage :=
  filter (λ m, ID m = id) l.

(** The message the writer goroutine holds, between receiving it from [out]
    and the end of [WriteJSON]. *)
Definition held (w : writer_pc) : option operationMessage :=
  match w with
  | WGot m | WDeadline m | WWrite m => Some m
  | _ => None
  end.

(** The writer goroutine has not returned. *)
Definition live (w : writer_pc) : bool :=
  match w with
  | WSelect | WGot _ | WDeadline _ | WWrite _ => true
  | _ => false
  end.

(** The frames a streaming goroutine sends for a channel that yields [c] and
    is then closed, when nothing interrupts it. *)
Definition stream_frames (id : string) (c : list Value) : list operationMessage :=
  map (frame_of id) c ++ [mkMsg id None typeComplete].

(** The frames a streaming goroutine still has to send from where it is. *)
Definition to_send (g : streamer Value) : list operationMessage :=
  match s_pc g with
  | SSelect => stream_frames (s_id g) (s_chan g)
  | SSend m => m :: stream_frames (s_id g) (s_chan g)
  | SComplete => [mkMsg (s_id g) None typeComplete]
  | SDone => []
  end.

End Connection.

(** ** A sample service

    A concrete [GraphQLService] and payload codec, used to run the model on
    closed examples: subscription [Q1] yields two values and closes, [Q2]
    yields a value [json.Marshal] rejects and then one it accepts; any other
    document is refused.  A start payload is read as its query text, a
    receive payload as its id. *)

Definition demo_service : GraphQLService unit (option string) string := {|
  Subscribe _ document _ _ :=
    if decide (document = "Q1") then Ok [Some "A"; Some "B"]
    else if decide (document = "Q2") then Ok [None; Some "A"]
    else Err (mkError "no such subscription");
  Exec query _ _ := query
|}.

Definition demo_json : JSON unit (option string) string := {|
  Unmarshal_init _ := Ok tt;
  Unmarshal_start p :=
    match p with
    | Some q => Ok (mkStart EmptyString q tt)
    | None => Err (mkError "unexpected end of JSON input")
    end;
  Unmarshal_receive p :=
    match p with
    | Some i => Ok (mkReceive i)
    | None => Err (mkError "unexpected end of JSON input")
    end;
  Marshal_payload v :=
    match v with
    | Some b => Ok b
    | None => Err (mkError "json: unsupported value: NaN")
    end;
  Marshal_response r := Ok r
|}.

(** A service whose [Subscribe] fails with an error whose text is not valid
    UTF-8: the lone byte FF. *)
Definition raw_text : string := String (ascii_of_nat 255) EmptyString.

Definition raw_service : GraphQLService unit (option string) string := {|
  Subscribe _ _ _ _ := Err (mkError raw_text);
  Exec query _ _ := query
|}.

Definition demo_step := step (service := demo_service) (json := demo_json).
Definition demo_run := run (service := demo_service) (json := demo_json).
Definition demo_Connect : list conn_option -> state unit (option string) :=
  Connect.

(** The writer takes [t]'s pending frame and writes it. *)
Definition deliver (t : thread) : list action :=
  [Send t false; WriterCheck; WriterSetDeadline true; WriterWrite true].

(** ** Vocabulary of the properties *)

Definition reader_finished (r : reader_pc) : bool :=
  match r with
  | RDone => true
  | _ => false
  end.

(** The writer goroutine has run its deferred [conn.close()]. *)
Definition writer_closed (w : writer_pc) : bool :=
  match w with
  | WStop | WDone => true
  | _ => false
  end.

(** The goroutine that takes an action. *)
Definition actor (a : action) : thread :=
  match a with
  | Cancel => Caller
  | Read _ | DispatcherClose => Dispatcher
  | Send t _ => t
  | WriterDone | WriterCheck | WriterSetDeadline _ | WriterWrite _
  | WriterClose | WriterCloseStop => Writer
  | StreamDone i | StreamRecv i => Streamer i
  end.

Definition write_calls (l : list (thread * ws_call)) : list (thread * ws_call) :=
  filter (λ e, is_write e.2) l.

(** The frame goroutine [t] is about to pass to [send], if any. *)
Definition pending {Variables Value : Type} (t : thread) (s : state Variables Value)
    : option operationMessage :=
  match t with
  | Dispatcher =>
    match reader s with
    | RLoop (m :: _) => Some m
    | _ => None
    end
  | Streamer i =>
    g ← streamers s !! i;
    match s_pc g with
    | SSend m => Some m
    | SComplete => Some (mkMsg (s_id g) None typeComplete)
    | _ => None
    end
  | _ => None
  end.

(** A connection that ends on a read error: [readLoop] returns and closes,
    the writer sees the cancellation and closes. *)
Definition teardown : list action :=
  [Read None; DispatcherClose; WriterDone; WriterClose; WriterCloseStop].

(** The payload of an error or connection_error frame comes from
    [errPayload]. *)
Definition error_frame (m : operationMessage) : Prop :=
  Type_ m = typeError \/ Type_ m = typeConnectionError.

Section Origins.
Context {Variables Value Response : Type}.
Context {service : GraphQLService Variables Value Response}.
Context {json : JSON Variables Value Response}.

(** The errors the connection makes a payload of: the three it words itself
    ([errors.New], [fmt.Errorf]) and the ones [Subscribe], [json.Marshal]
    (of a stream value or of a response of [Exec]) and [json.Unmarshal] (of a
    receive payload) return to it. *)
Inductive raised : error -> Prop :=
  | raised_missing_id : raised (mkError "missing ID for start operation")
  | raised_invalid_payload t :
      t = typeConnectionInit \/ t = typeStart -> raised (invalid_payload t)
  | raised_unknown_type t : raised (unknown_type t)
  | raised_Subscribe scope document operationName variables err :
      Subscribe scope document operationName variables = Err err -> raised err
  | raised_Marshal_payload payload err :
      Marshal_payload payload = Err err -> raised err
  | raised_Marshal_response query err :
      Marshal_response (Exec query EmptyString None) = Err err -> raised err
  | raised_Unmarshal_receive payload err :
      Unmarshal_receive payload = Err err -> raised err.

Definition payload_ok (m : operationMessage) : Prop :=
  error_frame m -> exists err, raised err /\ Payload m = errPayload err.

End Origins.

(** The shapes a handler's outcome can take. *)
Inductive handled {Variables Value : Type} (opDone : gmap string nat) (fresh : nat)
    (msg : operationMessage) : outcome Variables Value -> Prop :=
  | handled_reply calls sends :
      handled opDone fresh msg (mkOutcome opDone false [] calls None sends false)
  | handled_failed calls sends :
      handled opDone fresh msg (mkOutcome opDone true [fresh] calls None sends false)
  | handled_started calls c :
      Type_ msg = typeStart ->
      ID msg <> EmptyString ->
      handled opDone fresh msg
        (mkOutcome (<[ID msg := fresh]> opDone) true [] calls
           (Some (mkStreamer (ID msg) fresh c SSelect)) [] false)
  | handled_stopped onDone sends :
      Type_ msg = typeStop ->
      opDone !! ID msg = Some onDone ->
      handled opDone fresh msg
        (mkOutcome (delete (ID msg) opDone) false [onDone] [] None sends false)
  | handled_terminated :
      handled opDone fresh msg (mkOutcome opDone false [] [] None [] true).

(** Some data frame under [id] comes after a complete frame under [id]. *)
Fixpoint data_after_complete (id : string) (l : list operationMessage) : bool :=
  match l with
  | [] => false
  | m :: l =>
    bool_decide (ID m = id /\ Type_ m = typeComplete)
    && existsb (λ m', bool_decide (ID m' = id /\ Type_ m' = typeData)) l
    || data_after_complete id l
  end.

(** Operation 1 is started on [Q1]; its goroutine receives the first value;
    the client's stop for 1 is handled and its complete is written; the
    goroutine then hands over the data frame it was about to send. *)
Definition stop_race : list action :=
  [Read (Some (mkMsg "1" (Some "Q1") typeStart));
   StreamRecv 0;
   Read (Some (mkMsg "1" None typeStop))]
  ++ deliver Dispatcher ++ deliver (Streamer 0).

(** ** One operation's frames

    For an operation id: the frames under that id that were written or are
    in the writer's hands, in order. *)
Definition line {Variables Value : Type} (id : string) (s : state Variables Value)
    : list operationMessage :=
  frames_of id (written s) ++ frames_of id (option_list (held (writer s))).

Section OperationInvariants.
Context {Variables Value Response : Type}.
Context {json : JSON Variables Value Response}.
Variable id : string.
Variable expected : list operationMessage.

#[local] Abbreviation state := (state Variables Value).

(** Before any message under [id] was read. *)
Record pre_inv (s : state) : Prop := {
  pre_streamers : forall j g, streamers s !! j = Some g -> s_id g <> id;
  pre_reader : forall q, reader s = RLoop q -> Forall (λ m, ID m <> id) q;
  pre_line : line id s = []
}.

(** After the start message under [id] was read, and no other message under
    [id]: goroutine [i] is the only one under [id]; only it can cancel its
    scope; the frames under [id] written so far, the one in the writer's
    hands and those the goroutine still has to send make up [expected], as
    long as the writer goroutine runs. *)
Record op_inv (i : nat) (g : streamer Value) (s : state) : Prop := {
  op_streamer : streamers s !! i = Some g;
  op_id : s_id g = id;
  op_cancelled : s_scope g ∈ cancelled s -> s_pc g = SDone;
  op_table : forall k, opDone s !! k = Some (s_scope g) -> k = id;
  op_running :
    live (writer s) = true -> s_pc g <> SDone -> line id s ++ to_send g = expected;
  op_finished :
    live (writer s) = true -> s_pc g = SDone -> ctxDone s = false ->
    line id s = expected;
  op_unique : forall j g', streamers s !! j = Some g' -> s_id g' = id -> j = i;
  op_reader : forall q, reader s = RLoop q -> Forall (λ m, ID m <> id) q;
  op_prefix : line id s `prefix_of` expected
}.

End OperationInvariants.

(** What is known about operation [ID msg] in a state, by the messages under
    that id that were read so far: none, the start message [msg] alone, or
    more. *)
Definition phase_inv {Variables Value Response : Type}
    {json : JSON Variables Value Response}
    (msg : operationMessage) (expected : list operationMessage)
    (s : state Variables Value) : Prop :=
  match frames_of (ID msg) (received_msgs s) with
  | [] => pre_inv (ID msg) s
  | [m] => m = msg -> exists i g, op_inv (ID msg) expected i g s
  | _ => True
  end.

(** The goroutine [i] and the writer run alone until the goroutine has sent
    complete: one round per value left in a channel of [n] values, and the
    round in which the channel is found closed. *)
Fixpoint drain (i n : nat) : list action :=
  match n with
  | 0 => StreamRecv i :: deliver (Streamer i)
  | S n => StreamRecv i :: deliver (Streamer i) ++ drain i n
  end.

(** ** Reading a JSON string back

    The other direction of [encode_runes], after RFC 8259: the characters
    between the quotes of a JSON string are unescaped characters (from U+0020
    on, except the quote and the backslash, well-formed UTF-8), two-character
    escapes, and [u] escapes of four hex digits.  Escapes of surrogates are
    not read (the encoder never writes one). *)

Definition hex_value (c : ascii) : option N :=
  if in_range 48 57 c then Some (byte c - 48)%N
  else if in_range 97 102 c then Some (byte c - 87)%N
  else if in_range 65 70 c then Some (byte c - 55)%N
  else None.

Definition utf8_encode (n : N) : option string :=
  if (n <? 128)%N then Some (String (ascii_of_N n) EmptyString)
  else if (n <? 2048)%N then
    Some (String (ascii_of_N (192 + n / 64))
            (String (ascii_of_N (128 + n mod 64)) EmptyString))
  else if ((55296 <=? n) && (n <=? 57343))%N then None
  else
    Some (String (ascii_of_N (224 + n / 4096))
            (String (ascii_of_N (128 + (n / 64) mod 64))
               (String (ascii_of_N (128 + n mod 64)) EmptyString))).

Definition unescape (c : ascii) : option ascii :=
  if bool_decide (c = quote) then Some quote
  else if bool_decide (c = backslash) then Some backslash
  else if bool_decide (c = "/"%char) then Some "/"%char
  else if bool_decide (c = "b"%char) then Some (ascii_of_N 8)
  else if bool_decide (c = "f"%char) then Some (ascii_of_N 12)
  else if bool_decide (c = "n"%char) then Some (ascii_of_N 10)
  else if bool_decide (c = "r"%char) then Some (ascii_of_N 13)
  else if bool_decide (c = "t"%char) then Some (ascii_of_N 9)
  else None.

Definition code_point (h1 h2 h3 h4 : ascii) : option N :=
  d1 ← hex_value h1; d2 ← hex_value h2; d3 ← hex_value h3; d4 ← hex_value h4;
  Some (((d1 * 16 + d2) * 16 + d3) * 16 + d4)%N.

Fixpoint json_unquote (s : string) : option string :=
  match s with
  | EmptyString => Some EmptyString
  | String b0 s1 =>
    if (byte b0 <? 128)%N then
      if bool_decide (b0 = backslash) then
        match s1 with
        | EmptyString => None
        | String e s2 =>
          if bool_decide (e = "u"%char) then
            match s2 with
            | String h1 (String h2 (String h3 (String h4 s6))) =>
              n ← code_point h1 h2 h3 h4;
              bytes ← utf8_encode n;
              rest ← json_unquote s6;
              Some (bytes +:+ rest)
            | _ => None
            end
          else
            c ← unescape e; rest ← json_unquote s2; Some (String c rest)
        end
      else if (32 <=? byte b0)%N && negb (bool_decide (b0 = quote))
      then String b0 <$> json_unquote s1
      else None
    else
      match s1 with
      | EmptyString => None
      | String b1 s2 =>
        if rune2 b0 b1 then (λ r, String b0 (String b1 r)) <$> json_unquote s2
        else
          match s2 with
          | EmptyString => None
          | String b2 s3 =>
            if rune3 b0 b1 b2
            then (λ r, String b0 (String b1 (String b2 r))) <$> json_unquote s3
            else
              match s3 with
              | EmptyString => None
              | String b3 s4 =>
                if rune4 b0 b1 b2 b3
                then (λ r, String b0 (String b1 (String b2 (String b3 r))))
                       <$> json_unquote s4
                else None
              end
          end
      end
  end.

(** A Go string coerced to valid UTF-8: every byte that does not start a
    well-formed sequence is replaced by U+FFFD (the bytes EF BF BD). *)
Definition utf8_replacement : string :=
  String (ascii_of_N 239) (String (ascii_of_N 191) (String (ascii_of_N 189) EmptyString)).

Fixpoint to_valid_utf8 (s : string) : string :=
  match s with
  | EmptyString => EmptyString
  | String b0 s1 =>
    if (byte b0 <? 128)%N then String b0 (to_valid_utf8 s1)
    else
      let bad := utf8_replacement +:+ to_valid_utf8 s1 in
      match s1 with
      | EmptyString => bad
      | String b1 s2 =>
        if rune2 b0 b1 then String b0 (String b1 (to_valid_utf8 s2))
        else
          match s2 with
          | EmptyString => bad
          | String b2 s3 =>
            if rune3 b0 b1 b2 then String b0 (String b1 (String b2 (to_valid_utf8 s3)))
            else
              match s3 with
              | EmptyString => bad
              | String b3 s4 =>
                if rune4 b0 b1 b2 b3
                then String b0 (String b1 (String b2 (String b3 (to_valid_utf8 s4))))
                else bad
              end
          end
      end
  end.

Fixpoint is_ascii (s : string) : bool :=
  match s with
  | EmptyString => true
  | String c s => (byte c <? 128)%N && is_ascii s
  end.

(** [utf8.ValidString]: the string is a sequence of well-formed UTF-8
    sequences. *)
Fixpoint valid_utf8 (s : string) : bool :=
  match s with
  | EmptyString => true
  | String b0 s1 =>
    if (byte b0 <? 128)%N then valid_utf8 s1
    else
      match s1 with
      | EmptyString => false
      | String b1 s2 =>
        if rune2 b0 b1 then valid_utf8 s2
        else
          match s2 with
          | EmptyString => false
          | String b2 s3 =>
            if rune3 b0 b1 b2 then valid_utf8 s3
            else
              match s3 with
              | EmptyString => false
              | String b3 s4 => rune4 b0 b1 b2 b3 && valid_utf8 s4
              end
          end
      end
  end.

(** The payload is the object with the one member "message" whose value is
    a JSON string that reads back as [m]. *)
Definition message_object (payload : RawMessage) (m : string) : Prop :=
  exists body,
    payload = Some ("{" +:+ quoted "message" +:+ ":" +:+ quoted body +:+ "}")
    /\ json_unquote body = Some m.

(** ** The shapes spec.md gives an operation's frames *)

(** Zero or more data frames followed by one complete. *)
Fixpoint data_then_complete (l : list operationMessage) : bool :=
  match l with
  | [] => false
  | m :: l' =>
    match l' with
    | [] => bool_decide (Type_ m = typeComplete)
    | _ => bool_decide (Type_ m = typeData) && data_then_complete l'
    end
  end.

(** One error followed by one complete. *)
Definition error_then_complete (l : list operationMessage) : bool :=
  match l with
  | [e; m] => bool_decide (Type_ e = typeError) && bool_decide (Type_ m = typeComplete)
  | _ => false
  end.

Definition terminal_shape (l : list operationMessage) : bool :=
  data_then_complete l || error_then_complete l.

(** ** Closed runs of the sample service *)

(** Operation 1 is started on [Q2] and runs to completion, undisturbed. *)
Definition mixed_stream : list action :=
  Read (Some (mkMsg "1" (Some "Q2") typeStart)) :: drain 0 2.

(** Operation 1 is started on [Q1] twice. *)
Definition started_once : list action := [Read (Some (mkMsg "1" (Some "Q1") typeStart))].

(** The state the sample connection is in after [sched]. *)
Definition demo_state (sched : list action) : state unit (option string) :=
  default (demo_Connect []) (demo_run sched (demo_Connect [])).

(** ** Invariants of a connection *)

Section Invariants.
Context {Variables Value Response : Type}.
Context {service : GraphQLService Variables Value Response}.
Context {json : JSON Variables Value Response}.

#[local] Abbreviation state := (state Variables Value).

(** What [Connect] sets up, whatever the options. *)
Record initial (s : state) : Prop := {
  init_ctxDone : ctxDone s = false;
  init_stopClosed : stopClosed s = false;
  init_opDone : opDone s = ∅;
  init_scopes : scopes s = 0;
  init_cancelled : cancelled s = ∅;
  init_reader : reader s = RLoop [];
  init_writer : writer s = WSelect;
  init_streamers : streamers s = [];
  init_service_log : service_log s = [];
  init_ws_log : Forall (λ e, exists limit, e = (Dispatcher, SetReadLimit limit)) (ws_log s)
}.

Record shutdown_inv (s : state) : Prop := {
  sd_closes :
    closes s = (if reader_finished (reader s) then 1 else 0)
               + (if writer_closed (writer s) then 1 else 0);
  sd_ctx : 0 < closes s -> ctxDone s = true;
  sd_stop : stopClosed s = true -> writer s = WDone;
  sd_writes : Forall (λ e, is_write e.2 = true -> e.1 = Writer) (ws_log s)
}.

(** Every tracked handle cancels the scope of a goroutine started under that
    id; scopes are handed out in increasing order, one per goroutine. *)
Record scopes_inv (s : state) : Prop := {
  sc_table : forall id scope, opDone s !! id = Some scope ->
    exists i g, streamers s !! i = Some g /\ s_scope g = scope /\ s_id g = id;
  sc_fresh : forall i g, streamers s !! i = Some g -> s_scope g < scopes s;
  sc_distinct : forall i j gi gj,
    streamers s !! i = Some gi -> streamers s !! j = Some gj ->
    s_scope gi = s_scope gj -> i = j
}.

(** Only scopes that were handed out are cancelled. *)
Definition cancelled_inv (s : state) : Prop :=
  forall scope, scope ∈ cancelled s -> scope < scopes s.

(** Wherever a frame sits (in the dispatcher's hands, in a streaming
    goroutine's, in the writer's, or on the transport), an error frame
    carries an [errPayload]; a streaming goroutine's frame is under its id. *)
Record frames_inv (s : state) : Prop := {
  fr_reader : forall q, reader s = RLoop q -> Forall payload_ok q;
  fr_writer : forall m, held (writer s) = Some m -> payload_ok m;
  fr_streamers : forall i g m,
    streamers s !! i = Some g -> s_pc g = SSend m -> ID m = s_id g /\ payload_ok m;
  fr_log : Forall (λ e, forall m ok, e.2 = WriteJSON m ok -> payload_ok m) (ws_log s)
}.

End Invariants.

(** Everything that is kept along a run, for the operation started by [msg]
    on a stream yielding [c]. *)
Record all_inv {Variables Value Response : Type}
    {service : GraphQLService Variables Value Response}
    {json : JSON Variables Value Response}
    (msg : operationMessage) (c : list Value) (s : state Variables Value) : Prop := {
  all_shutdown : shutdown_inv s;
  all_scopes : scopes_inv s;
  all_cancelled : cancelled_inv s;
  all_frames : frames_inv s;
  all_phase : phase_inv msg (stream_frames (ID msg) c) s
}.

(** ** Tactics *)

(** Case analysis on an enabled step. *)
Ltac step_inv H :=
  unfold step, send in H;
  repeat
    (simpl in *;
     match goal with
     | H : (_ ≫= _) = Some _ |- _ => apply bind_Some in H as (? & ? & H)
     | H : (_ <$> _) = Some _ |- _ => apply fmap_Some in H as (? & H & ?)
     | H : match ?a with Cancel => _ | _ => _ end = Some _ |- _ => destruct a
     | H : match ?t with Caller => _ | _ => _ end = Some _ |- _ => destruct t
     | H : match ?r with Some _ => _ | None => _ end = Some _ |- _ => destruct r eqn:?
     | H : match ?p with RLoop _ => _ | _ => _ end = Some _ |- _ => destruct p eqn:?
     | H : match ?l with [] => _ | _ :: _ => _ end = Some _ |- _ => destruct l eqn:?
     | H : match ?w with WSelect => _ | _ => _ end = Some _ |- _ => destruct w eqn:?
     | H : match ?p with SSelect => _ | _ => _ end = Some _ |- _ => destruct p eqn:?
     | H : (if ?b then _ else _) = Some _ |- _ => destruct b eqn:?
     | H : None = Some _ |- _ => discriminate H
     | H : Some _ = Some _ |- _ => injection H as H
     end);
  subst.

Ltac closes_tac :=
  unfold closes, close, ws; simpl;
  rewrite ?filter_app, ?length_app; simpl; try reflexivity; try lia.



(** ** One message on an idle connection *)

(** The dispatcher reads [msg] and the writer writes its reply. *)
Definition exchange (msg : operationMessage) : list action :=
  Read (Some msg) :: deliver Dispatcher.

(** The message types [readLoop] has a case for. *)
Definition handled_types : list operationMessageType :=
  [typeConnectionInit; typeStart; typeStop; typePing; typeReceive;
   typeConnectionTerminate].

(** [readLoop] is still in its loop. *)
Definition in_loop (r : reader_pc) : bool :=
  match r with
  | RLoop _ => true
  | _ => false
  end.

(** ** The writer goroutine's use of the transport *)

#[global] Instance thread_eq_dec : EqDecision thread.
Proof. solve_decision. Defined.

(** The calls goroutine [t] made on the transport, in order. *)
Definition calls_of (t : thread) (l : list (thread * ws_call)) : list ws_call :=
  omap (λ e, if decide (e.1 = t) then Some e.2 else None) l.

(** Where the writer goroutine is in its use of the transport: ready to set
    a deadline, with the deadline set, after a failed call, after Close. *)
Inductive writer_use := Ready | Armed | Failed | Closed.

(** The calls the loop of [writeLoop] allows in each of them, for the
    write timeout [d]. *)
Definition writer_allows (d : Z) (u : writer_use) (c : ws_call) : option writer_use :=
  match u, c with
  | Ready, SetWriteDeadline t ok =>
    if decide (t = d) then Some (if ok then Armed else Failed) else None
  | Ready, Close => Some Closed
  | Armed, WriteJSON _ ok => Some (if ok then Ready else Failed)
  | Failed, Close => Some Closed
  | _, _ => None
  end.

Definition writer_accepts (d : Z) (l : list ws_call) : option writer_use :=
  foldl (λ u c, u ≫= λ u, writer_allows d u c) (Some Ready) l.

(** The writer has set a deadline (or is about to) for the frame it holds. *)
Definition armed (w : writer_pc) : nat :=
  match w with
  | WDeadline _ | WWrite _ => 1
  | _ => 0
  end.

(** ** The options of Connect *)

Definition timeouts (options : list conn_option) : list Z :=
  omap (λ o, match o with WriteTimeout d => Some d | _ => None end) options.

Definition limits (options : list conn_option) : list Z :=
  omap (λ o, match o with ReadLimit l => Some l | _ => None end) options.

(** What the position of the writer goroutine says about its use of the
    transport. *)
Definition writer_at (u : writer_use) (w : writer_pc) : Prop :=
  match w with
  | WSelect | WGot _ | WDeadline _ => u = Ready
  | WWrite _ => u = Armed
  | WDefer => u = Ready \/ u = Failed
  | WStop | WDone => u = Closed
  end.

(** ** Tearing a connection down

    After the root scope is cancelled, each goroutine let run to its end:
    the writer (the transport answering [ok] to the calls still to come),
    then the dispatcher (its pending sends find stop closed, its next read
    fails on the closed transport), then each streaming goroutine (a pending
    send finds stop closed, the select takes the cancellation branch). *)

Definition finish_writer (ok : bool) (w : writer_pc) : list action :=
  match w with
  | WSelect => [WriterDone; WriterClose; WriterCloseStop]
  | WGot _ => [WriterCheck; WriterClose; WriterCloseStop]
  | WDeadline _ =>
    WriterSetDeadline ok
    :: (if ok then [WriterWrite ok; WriterDone] else [])
    ++ [WriterClose; WriterCloseStop]
  | WWrite _ =>
    WriterWrite ok :: (if ok then [WriterDone] else []) ++ [WriterClose; WriterCloseStop]
  | WDefer => [WriterClose; WriterCloseStop]
  | WStop => [WriterCloseStop]
  | WDone => []
  end.

Definition finish_reader (r : reader_pc) : list action :=
  match r with
  | RLoop sends => replicate (length sends) (Send Dispatcher true) ++ [Read None; DispatcherClose]
  | RDefer => [DispatcherClose]
  | RDone => []
  end.

Definition finish_streamer (i : nat) (pc : stream_pc) : list action :=
  match pc with
  | SSelect => [StreamDone i]
  | SSend _ => [Send (Streamer i) true; StreamDone i]
  | SComplete => [Send (Streamer i) true]
  | SDone => []
  end.

Fixpoint finish_streamers {Value : Type} (i : nat) (gs : list (streamer Value))
    : list action :=
  match gs with
  | [] => []
  | g :: gs => finish_streamer i (s_pc g) ++ finish_streamers (S i) gs
  end.

Definition shutdown {Variables Value : Type} (ok : bool) (s : state Variables Value)
    : list action :=
  Cancel
  :: finish_writer ok (writer s)
  ++ finish_reader (reader s)
  ++ finish_streamers 0 (streamers s).

(** ** Bytes of an encoded string *)

(** A byte that can stand in an HTML page as it is: no control byte and none
    of the three bytes the encoder escapes for HTML. *)
Definition html_byte (c : ascii) : bool :=
  (32 <=? byte c)%N
  && negb (bool_decide (c ∈ ["<"%char; ">"%char; "&"%char])).

(** ** generateRandomString

    [math/rand] is the stream of values its calls will return: [Intn n]
    answers the next one, brought into the range below [n]. *)

Definition Rand (A : Type) : Type := list nat -> A * list nat.

Definition ret {A : Type} (a : A) : Rand A := λ draws, (a, draws).

Definition bind {A B : Type} (m : Rand A) (k : A -> Rand B) : Rand B :=
  λ draws, let (a, draws) := m draws in k a draws.

Definition Intn (n : nat) : Rand nat := λ draws,
  match draws with
  | [] => (0, [])
  | r :: draws => (r mod n, draws)
  end.

Definition digits : string := "0123456789".

Definition all : string :=
  "ABCDEFGHIJKLMNOPQRSTUVWXYZ" +:+ "abcdefghijklmnopqrstuvwxyz" +:+ digits.

(** [s[i]], for an index in range. *)
Definition at_index (s : string) (i : nat) : ascii :=
  default (ascii_of_nat 0) (String.get i s).

(** The loop [for i := 1; i < length; i++], with [n] rounds to go. *)
Fixpoint fill (n : nat) : Rand (list ascii) :=
  match n with
  | 0 => ret []
  | S n =>
    bind (Intn (String.length all)) (λ k,
    bind (fill n) (λ buf, ret (at_index all k :: buf)))
  end.

(** [buf[i], buf[j] = buf[j], buf[i]] *)
Definition swap (i j : nat) (buf : list ascii) : list ascii :=
  match buf !! i, buf !! j with
  | Some x, Some y => <[i := y]> (<[j := x]> buf)
  | _, _ => buf
  end.

(** [rand.Shuffle]: for [i] from the last index down to 1, swap [i] with an
    index drawn from [0..i]. *)
Fixpoint shuffle_from (i : nat) (buf : list ascii) : Rand (list ascii) :=
  match i with
  | 0 => ret buf
  | S i' => bind (Intn (S i)) (λ j, shuffle_from i' (swap i j buf))
  end.

Definition Shuffle (buf : list ascii) : Rand (list ascii) :=
  shuffle_from (length buf - 1) buf.

(** [None]: the function panics ([make] with a negative length, [buf[0]] on
    an empty buffer). *)
Definition generateRandomString (length : Z) (draws : list nat) : option string :=
  if (length <=? 0)%Z then None
  else
    Some (string_of_list_ascii
            (bind (Intn (String.length digits)) (λ k,
             bind (fill (Z.to_nat length - 1)) (λ rest,
             Shuffle (at_index all k :: rest))) draws).1).

(** ** The HTTP handler (http.go)

    What [NewHandlerFunc]'s handler does with one request, as the list of
    calls it makes on its collaborators, in order.  The request carries what
    those collaborators answer: the subprotocols [websocket.Subprotocols]
    reads from it, whether [CheckAuth] accepts it, and what
    [upgrader.Upgrade] returns for it ([None]: an error; [Some p]: a socket
    whose negotiated subprotocol is [p]). *)

Definition protocolGraphQLWS : string := "graphql-ws".

Inductive http_call :=
  | CheckAuth
  | Upgrade
  | CloseSocket
  | GoConnect
  | ServeHTTP.

#[global] Instance http_call_eq_dec : EqDecision http_call.
Proof. solve_decision. Defined.

Record request := mkRequest {
  Subprotocols : list string;
  authorized : bool;
  upgraded : option string;
}.

(** The body of [if subprotocol == "graphql-ws" { ... }]: every path returns. *)
Definition upgrade_request (r : request) : list http_call :=
  CheckAuth ::
  if negb (authorized r) then []
  else
    Upgrade ::
    match upgraded r with
    | None => []
    | Some negotiated =>
      if decide (negotiated ≠ protocolGraphQLWS) then [CloseSocket]
      else [GoConnect]
    end.

(** [for _, subprotocol := range websocket.Subprotocols(r)], then the
    fallback behind the loop. *)
Fixpoint range_subprotocols (r : request) (subprotocols : list string) : list http_call :=
  match subprotocols with
  | [] => [ServeHTTP]
  | subprotocol :: subprotocols =>
    if decide (subprotocol = "graphql-ws") then upgrade_request r
    else range_subprotocols r subprotocols
  end.

Definition NewHandlerFunc (r : request) : list http_call :=
  range_subprotocols r (Subprotocols r).

(** ** Sample schedules *)

(** The root scope is cancelled while the writer holds a frame with its
    deadline set. *)
Definition cancel_armed : list action :=
  [Read (Some (mkMsg "1" (Some "Q1") typeStart)); StreamRecv 0;
   Send (Streamer 0) false; WriterCheck; WriterSetDeadline true; Cancel].

(** The writer goroutine has returned on cancellation, a goroutine holding a
    frame. *)
Definition writer_returned : list action :=
  [Read (Some (mkMsg "1" (Some "Q1") typeStart)); StreamRecv 0; Cancel; WriterDone].

(** What the other goroutines do after that. *)
Definition after_return : list action :=
  [Read (Some (mkMsg EmptyString None typePing)); WriterClose; WriterCloseStop;
   Send Dispatcher true; Send (Streamer 0) true].

(** * Properties *)

(** ** The handlers *)

Section HandlerFacts.
Context {Variables Value Response : Type}.
Context {service : GraphQLService Variables Value Response}.
Context {json : JSON Variables Value Response}.

#[local] Abbreviation state := (state Variables Value).

Lemma closes_ws (t : thread) (c : ws_call) (s : state) :
  closes (ws t c s) = closes s + (if is_close (t, c) then 1 else 0).
Proof.
  unfold closes, ws; simpl. rewrite filter_app, length_app. f_equal.
  rewrite filter_cons, filter_nil. unfold is_close; simpl.
  destruct c; reflexivity.
Qed.

Lemma closes_dispatch (o : outcome Variables Value) (s : state) :
  closes (dispatch o s) = closes s.
Proof. reflexivity. Qed.

(** C6. A start message without id: the dispatcher makes no service call,
    creates no scope, registers and starts nothing, and has exactly one frame
    to send, a connection_error without id whose payload is the object with
    message "missing ID for start operation"; the connection is not torn down
    and, once that send returns, the dispatcher reads the next message. *)
Theorem start_missing_id (s : state) (msg : operationMessage) :
  reader s = RLoop [] ->
  Type_ msg = typeStart ->
  ID msg = EmptyString ->
  exists s',
    step (Read (Some msg)) s = Some s'
    /\ reader s'
       = RLoop [mkMsg EmptyString
                  (Some ("{" +:+ quoted "message" +:+ ":"
                         +:+ quoted "missing ID for start operation" +:+ "}"))
                  typeConnectionError]
    /\ opDone s' = opDone s
    /\ streamers s' = streamers s
    /\ service_log s' = service_log s
    /\ scopes s' = scopes s
    /\ cancelled s' = cancelled s
    /\ ctxDone s' = ctxDone s
    /\ writer s' = writer s
    /\ closes s' = closes s
    /\ (forall stopped s'',
          step (Send Dispatcher stopped) s' = Some s'' ->
          reader s'' = RLoop [] /\ opDone s'' = opDone s /\ closes s'' = closes s).
Proof.
  intros Hr Ht Hid. unfold step. rewrite Hr. simpl.
  unfold handle. simpl. rewrite Ht, Hid. simpl.
  eexists. split; [reflexivity|]. simpl.
  rewrite !app_nil_r, (left_id_L ∅ (∪)), closes_dispatch, closes_ws. simpl.
  split_and!; try reflexivity; try lia.
  intros stopped s'' H. unfold send in H.
  destruct stopped; simpl in H.
  - destruct (stopClosed s); simplify_eq/=. split_and!; try reflexivity; closes_tac.
  - destruct (writer s); simplify_eq/=. split_and!; try reflexivity; closes_tac.
Qed.

(** C7. A start message with an id and a decodable payload whose Subscribe
    fails: the dispatcher cancels the scope it had just created, leaves the
    table and the goroutines as they were, and has an error frame carrying the
    failure and then a complete frame to send, both under the message's id;
    the connection is not torn down and the dispatcher reads on afterwards. *)
Theorem start_subscribe_error (s : state) (msg : operationMessage)
    (osp : startMessagePayload Variables) (err : error) :
  reader s = RLoop [] ->
  Type_ msg = typeStart ->
  ID msg <> EmptyString ->
  Unmarshal_start (Payload msg) = Ok osp ->
  Subscribe (scopes s) (Query osp) (OperationName osp) (Variables_ osp) = Err err ->
  exists s',
    step (Read (Some msg)) s = Some s'
    /\ reader s'
       = RLoop [mkMsg (ID msg) (errPayload err) typeError;
                mkMsg (ID msg) None typeComplete]
    /\ cancelled s' = {[scopes s]} ∪ cancelled s
    /\ scopes s' = S (scopes s)
    /\ opDone s' = opDone s
    /\ streamers s' = streamers s
    /\ ctxDone s' = ctxDone s
    /\ stopClosed s' = stopClosed s
    /\ writer s' = writer s
    /\ closes s' = closes s
    /\ (forall b1 b2 s1 s2,
          step (Send Dispatcher b1) s' = Some s1 ->
          step (Send Dispatcher b2) s1 = Some s2 ->
          reader s2 = RLoop []).
Proof.
  intros Hr Ht Hid Hosp Hsub. unfold step. rewrite Hr. simpl.
  unfold handle. simpl. rewrite Ht. simpl.
  rewrite decide_False by exact Hid. rewrite Hosp, Hsub.
  eexists. split; [reflexivity|]. simpl.
  rewrite !app_nil_r, (right_id_L ∅ (∪)).
  split_and!; try reflexivity; try closes_tac.
  intros b1 b2 s1 s2 H1 H2. unfold send in *.
  destruct b1; simpl in H1.
  - destruct (stopClosed s) eqn:E1; simplify_eq/=.
    destruct b2; simpl in H2; [|destruct (writer s)];
      simplify_eq/=; reflexivity.
  - destruct (writer s) eqn:E1; simplify_eq/=.
    destruct b2; simpl in H2; [destruct (stopClosed s)|]; simplify_eq/=; reflexivity.
Qed.

(** C5. Processing the same stop message twice in a row: each time the
    dispatcher's only frame is a complete under that id (no error frame), no
    service call is made, nothing is started and [readLoop] does not return;
    the second time nothing is cancelled and the table stays as the first stop
    left it, without an entry for the id. *)
Theorem stop_twice (opDone : gmap string nat) (fresh fresh' : nat)
    (msg : operationMessage) :
  Type_ msg = typeStop ->
  let first := handle opDone fresh msg in
  let second := handle (o_opDone first) fresh' msg in
  o_sends first = [mkMsg (ID msg) None typeComplete]
  /\ o_sends second = [mkMsg (ID msg) None typeComplete]
  /\ o_opDone first = delete (ID msg) opDone
  /\ o_opDone second = o_opDone first
  /\ o_opDone second !! ID msg = None
  /\ o_cancel second = []
  /\ o_calls first = [] /\ o_calls second = []
  /\ o_go first = None /\ o_go second = None
  /\ o_return first = false /\ o_return second = false.
Proof.
  intros Ht. unfold handle. rewrite Ht. simpl.
  destruct (opDone !! ID msg) as [onDone|] eqn:E; simpl.
  - rewrite lookup_delete_eq. simpl. split_and!; try reflexivity.
    apply lookup_delete_eq.
  - rewrite E. simpl. split_and!; try reflexivity; try exact E.
    symmetry. apply delete_id. exact E.
Qed.

(** C9. A receive message: when the payload decodes, Exec is called, in the
    handler itself, with the decoded id spliced into the mutation text, and
    the dispatcher's only frame is a pong without id carrying the encoded
    response, or an error under the message's id when the response does not
    encode; when the payload does not decode, no call is made and the only
    frame is an error under the message's id.  The table is untouched. *)
Theorem receive_handled (opDone : gmap string nat) (fresh : nat)
    (msg : operationMessage) :
  Type_ msg = typeReceive ->
  handle opDone fresh msg =
  match Unmarshal_receive (Payload msg) with
  | Err err => reply opDone [] [mkMsg (ID msg) (errPayload err) typeError]
  | Ok rp =>
    let query := "mutation {receive_socket_event(id:" +:+ rp_ID rp +:+ ")}" in
    reply opDone [CallExec query EmptyString None]
      [match Marshal_response (Exec query EmptyString None) with
       | Ok responseJSON => mkMsg EmptyString (Some responseJSON) typePong
       | Err err => mkMsg (ID msg) (errPayload err) typeError
       end]
  end.
Proof.
  intros Ht. unfold handle. rewrite Ht. simpl.
  destruct (Unmarshal_receive (Payload msg)) as [rp|err]; [|reflexivity].
  unfold receive_query. simpl.
  destruct (Marshal_response _); reflexivity.
Qed.

Lemma handle_stop (opDone : gmap string nat) (fresh : nat) (msg : operationMessage) :
  Type_ msg = typeStop ->
  handle opDone fresh msg =
  match opDone !! ID msg with
  | Some onDone =>
    mkOutcome (delete (ID msg) opDone) false [onDone] [] None
      [mkMsg (ID msg) None typeComplete] false
  | None => reply opDone [] [mkMsg (ID msg) None typeComplete]
  end.
Proof. intros Ht. unfold handle. rewrite Ht. reflexivity. Qed.

Lemma handle_start (opDone : gmap string nat) (fresh : nat) (msg : operationMessage)
    (osp : startMessagePayload Variables) :
  Type_ msg = typeStart ->
  ID msg <> EmptyString ->
  Unmarshal_start (Payload msg) = Ok osp ->
  handle opDone fresh msg =
  let call := CallSubscribe fresh (Query osp) (OperationName osp) (Variables_ osp) in
  match Subscribe fresh (Query osp) (OperationName osp) (Variables_ osp) with
  | Err err =>
    mkOutcome opDone true [fresh] [call] None
      [mkMsg (ID msg) (errPayload err) typeError; mkMsg (ID msg) None typeComplete]
      false
  | Ok c =>
    mkOutcome (<[ID msg := fresh]> opDone) true [] [call]
      (Some (mkStreamer (ID msg) fresh c SSelect)) [] false
  end.
Proof.
  intros Ht Hid Hosp. unfold handle. rewrite Ht. simpl.
  rewrite decide_False by exact Hid. rewrite Hosp. reflexivity.
Qed.

Lemma handle_cases (opDone : gmap string nat) (fresh : nat) (msg : operationMessage) :
  handled opDone fresh msg (handle opDone fresh msg).
Proof.
  unfold handle, reply.
  repeat match goal with
         | |- context [decide ?P] => destruct (decide P)
         | |- context [match ?x with Ok _ => _ | Err _ => _ end] => destruct x
         | |- context [match ?x with Some _ => _ | None => _ end] => destruct x eqn:?
         end;
    try (constructor; assumption).
Qed.

(** Every frame a handler sends is keyed to the message's id or to none, and
    its error frames carry an [errPayload]. *)
Lemma handle_sends (opDone : gmap string nat) (fresh : nat) (msg : operationMessage) :
  Forall (λ m, (ID m = ID msg \/ ID m = EmptyString) /\ payload_ok m)
    (o_sends (handle opDone fresh msg)).
Proof.
  unfold handle, reply, payload_ok, error_frame.
  repeat match goal with
         | |- context [decide ?P] => destruct (decide P)
         | |- context [match ?x with Ok _ => _ | Err _ => _ end] => destruct x eqn:?
         | |- context [match ?x with Some _ => _ | None => _ end] => destruct x eqn:?
         end; simpl;
    repeat match goal with
           | |- Forall _ (_ :: _) => apply Forall_cons; split
           | |- Forall _ [] => constructor
           | |- _ /\ _ => split
           | |- _ \/ _ => first [left; reflexivity | right; reflexivity]
           end;
    intros [?|?]; try discriminate;
    (eexists; split; [|reflexivity]); eauto using raised.
Qed.

End HandlerFacts.

(** ** errPayload is JSON *)

Lemma unquote_escape_ascii (b : ascii) (rest : string) :
  (byte b <? 128)%N = true ->
  json_unquote (escape_ascii b +:+ rest) = String b <$> json_unquote rest.
Proof.
  destruct b as [[] [] [] [] [] [] [] []]; intros H; try discriminate H;
    match goal with
    | |- context [escape_ascii ?c] =>
      let v := eval vm_compute in (escape_ascii c) in change (escape_ascii c) with v
    end;
    cbv beta iota fix delta [String.append]; cbn;
    destruct (json_unquote rest); reflexivity.
Qed.

Lemma unquote_replacement (rest : string) :
  json_unquote (replacement +:+ rest)
  = (λ r, utf8_replacement +:+ r) <$> json_unquote rest.
Proof.
  unfold replacement. cbv beta iota fix delta [String.append]. cbn.
  destruct (json_unquote rest); reflexivity.
Qed.

Lemma unquote_rune2 (b0 b1 : ascii) (rest : string) :
  (byte b0 <? 128)%N = false -> rune2 b0 b1 = true ->
  json_unquote (String b0 (String b1 rest))
  = (λ r, String b0 (String b1 r)) <$> json_unquote rest.
Proof. intros H0 H2. cbn [json_unquote]. rewrite H0, H2. reflexivity. Qed.

Lemma unquote_rune3 (b0 b1 b2 : ascii) (rest : string) :
  (byte b0 <? 128)%N = false -> rune2 b0 b1 = false -> rune3 b0 b1 b2 = true ->
  json_unquote (String b0 (String b1 (String b2 rest)))
  = (λ r, String b0 (String b1 (String b2 r))) <$> json_unquote rest.
Proof. intros H0 H2 H3. cbn [json_unquote]. rewrite H0, H2, H3. reflexivity. Qed.

Lemma unquote_rune4 (b0 b1 b2 b3 : ascii) (rest : string) :
  (byte b0 <? 128)%N = false -> rune2 b0 b1 = false -> rune3 b0 b1 b2 = false ->
  rune4 b0 b1 b2 b3 = true ->
  json_unquote (String b0 (String b1 (String b2 (String b3 rest))))
  = (λ r, String b0 (String b1 (String b2 (String b3 r)))) <$> json_unquote rest.
Proof. intros H0 H2 H3 H4. cbn [json_unquote]. rewrite H0, H2, H3, H4. reflexivity. Qed.

Lemma byte_eq (b : ascii) (n : N) : (byte b =? n)%N = true -> b = ascii_of_N n.
Proof.
  intros H. apply N.eqb_eq in H. unfold byte in H. rewrite <- H.
  symmetry. apply ascii_N_embedding.
Qed.

Lemma unquote_line_sep (b0 b1 b2 : ascii) (rest : string) :
  line_sep b0 b1 b2 = true ->
  json_unquote ((String backslash "u202"
                 +:+ String (hex_digit (N.land (byte b2) 15)) EmptyString) +:+ rest)
  = (λ r, String b0 (String b1 (String b2 r))) <$> json_unquote rest.
Proof.
  unfold line_sep. intros H.
  apply andb_true_iff in H as [H H2]. apply andb_true_iff in H as [H0 H1].
  apply byte_eq in H0, H1. subst b0 b1.
  assert (Hb2 : b2 = ascii_of_N 168 \/ b2 = ascii_of_N 169).
  { unfold in_range in H2. apply andb_true_iff in H2 as [Hlo Hhi].
    apply N.leb_le in Hlo, Hhi.
    destruct (decide (byte b2 = 168%N)) as [E|E].
    - left. apply byte_eq. apply N.eqb_eq. exact E.
    - right. apply byte_eq. apply N.eqb_eq. lia. }
  destruct Hb2 as [-> | ->];
    cbv beta iota fix delta [String.append]; cbn;
    destruct (json_unquote rest); reflexivity.
Qed.

Lemma string_length_ind (P : string -> Prop) :
  (forall s, (forall t, String.length t < String.length s -> P t) -> P s) ->
  forall s, P s.
Proof.
  intros H s. remember (String.length s) as n eqn:Hn. revert s Hn.
  induction n as [n IH] using lt_wf_ind. intros s ->.
  apply H. intros t Ht. eapply IH; [exact Ht|reflexivity].
Qed.

(** Reading back what the encoder wrote gives the string, coerced to valid
    UTF-8. *)
Lemma unquote_encode (s : string) :
  json_unquote (encode_runes s) = Some (to_valid_utf8 s).
Proof.
  induction s as [s IH] using string_length_ind.
  destruct s as [|b0 s1]; [reflexivity|].
  assert (Hbad : json_unquote (replacement +:+ encode_runes s1)
                 = Some (utf8_replacement +:+ to_valid_utf8 s1)).
  { rewrite unquote_replacement, IH by (simpl; lia). reflexivity. }
  cbn [encode_runes to_valid_utf8].
  destruct (byte b0 <? 128)%N eqn:H0.
  { rewrite unquote_escape_ascii, IH by (assumption || (simpl; lia)). reflexivity. }
  destruct s1 as [|b1 s2]; [exact Hbad|].
  destruct (rune2 b0 b1) eqn:H2.
  { rewrite unquote_rune2, IH by (assumption || (simpl; lia)). reflexivity. }
  destruct s2 as [|b2 s3]; [exact Hbad|].
  destruct (rune3 b0 b1 b2) eqn:H3.
  { destruct (line_sep b0 b1 b2) eqn:Hls.
    - rewrite (unquote_line_sep b0 b1 b2), IH by (assumption || (simpl; lia)).
      reflexivity.
    - cbv beta iota fix delta [String.append].
      rewrite unquote_rune3, IH by (assumption || (simpl; lia)). reflexivity. }
  destruct s3 as [|b3 s4]; [exact Hbad|].
  destruct (rune4 b0 b1 b2 b3) eqn:H4; [|exact Hbad].
  rewrite unquote_rune4, IH by (assumption || (simpl; lia)). reflexivity.
Qed.

Lemma to_valid_utf8_ascii (s : string) : is_ascii s = true -> to_valid_utf8 s = s.
Proof.
  induction s as [|c s IH]; [reflexivity|]. simpl. intros H.
  apply andb_true_iff in H as [Hc Hs]. rewrite Hc, IH by exact Hs. reflexivity.
Qed.

Lemma errPayload_object (err : error) :
  errPayload err
  = Some ("{" +:+ quoted "message" +:+ ":" +:+ quoted (encode_runes (Error err)) +:+ "}").
Proof. reflexivity. Qed.

Lemma list_of_append (a b : string) :
  list_ascii_of_string (a +:+ b) = list_ascii_of_string a ++ list_ascii_of_string b.
Proof.
  induction a as [|c a IH]; [reflexivity|].
  cbv beta iota fix delta [String.append]. fold (String.append a b).
  simpl. f_equal. exact IH.
Qed.

Lemma append_inj_r (a b c : string) : a +:+ c = b +:+ c -> a = b.
Proof.
  intros H. apply (f_equal list_ascii_of_string) in H.
  rewrite !list_of_append in H. apply app_inv_tail in H.
  rewrite <- (string_of_list_ascii_of_string a), <- (string_of_list_ascii_of_string b).
  f_equal. exact H.
Qed.

Lemma replacement_cons (s : string) :
  utf8_replacement +:+ s
  = String (ascii_of_N 239) (String (ascii_of_N 191) (String (ascii_of_N 189) s)).
Proof. reflexivity. Qed.

(** Coercion never shortens a string: a byte is kept or becomes three. *)
Lemma to_valid_utf8_length (s : string) :
  String.length s <= String.length (to_valid_utf8 s).
Proof.
  induction s as [s IH] using string_length_ind.
  destruct s as [|b0 s1]; [reflexivity|].
  assert (Hbad : String.length (String b0 s1)
                 <= String.length (utf8_replacement +:+ to_valid_utf8 s1)).
  { rewrite replacement_cons. cbn [String.length].
    pose proof (IH s1 ltac:(cbn [String.length]; lia)). lia. }
  cbn [to_valid_utf8].
  destruct (byte b0 <? 128)%N.
  { cbn [String.length]. pose proof (IH s1 ltac:(cbn [String.length]; lia)). lia. }
  destruct s1 as [|b1 s2]; [exact Hbad|].
  destruct (rune2 b0 b1).
  { cbn [String.length]. pose proof (IH s2 ltac:(cbn [String.length]; lia)). lia. }
  destruct s2 as [|b2 s3]; [exact Hbad|].
  destruct (rune3 b0 b1 b2).
  { cbn [String.length]. pose proof (IH s3 ltac:(cbn [String.length]; lia)). lia. }
  destruct s3 as [|b3 s4]; [exact Hbad|].
  destruct (rune4 b0 b1 b2 b3); [|exact Hbad].
  cbn [String.length]. pose proof (IH s4 ltac:(cbn [String.length]; lia)). lia.
Qed.

(** The strings coercion leaves alone are the valid ones. *)
Lemma valid_utf8_fixed (s : string) : to_valid_utf8 s = s <-> valid_utf8 s = true.
Proof.
  induction s as [s IH] using string_length_ind.
  destruct s as [|b0 s1]; [split; reflexivity|].
  assert (Hbad : utf8_replacement +:+ to_valid_utf8 s1 = String b0 s1 <-> false = true).
  { split; [|discriminate]. intros H. apply (f_equal String.length) in H.
    rewrite replacement_cons in H. cbn [String.length] in H.
    pose proof (to_valid_utf8_length s1). lia. }
  cbn [to_valid_utf8 valid_utf8].
  destruct (byte b0 <? 128)%N.
  { rewrite <- (IH s1) by (cbn [String.length]; lia).
    split; [intros [= H]; exact H|intros ->; reflexivity]. }
  destruct s1 as [|b1 s2]; [exact Hbad|].
  destruct (rune2 b0 b1).
  { rewrite <- (IH s2) by (cbn [String.length]; lia).
    split; [intros [= H]; exact H|intros ->; reflexivity]. }
  destruct s2 as [|b2 s3]; [exact Hbad|].
  destruct (rune3 b0 b1 b2).
  { rewrite <- (IH s3) by (cbn [String.length]; lia).
    split; [intros [= H]; exact H|intros ->; reflexivity]. }
  destruct s3 as [|b3 s4]; [exact Hbad|].
  destruct (rune4 b0 b1 b2 b3); [|exact Hbad].
  rewrite andb_true_l, <- (IH s4) by (cbn [String.length]; lia).
  split; [intros [= H]; exact H|intros ->; reflexivity].
Qed.

(** What [errPayload] writes is the message object of the coerced text, and
    of no other text. *)
Lemma errPayload_message (err : error) (m : string) :
  message_object (errPayload err) m <-> m = to_valid_utf8 (Error err).
Proof.
  split.
  - intros (body & Hp & Hb). unfold errPayload, encode_string, quoted in Hp.
    injection Hp as Hp. apply append_inj_r in Hp. apply append_inj_r in Hp.
    subst body. rewrite unquote_encode in Hb. congruence.
  - intros ->. exists (encode_runes (Error err)). split.
    + apply errPayload_object.
    + apply unquote_encode.
Qed.

(** ** Runs and invariants *)

Section Runs.
Context {Variables Value Response : Type}.
Context {service : GraphQLService Variables Value Response}.
Context {json : JSON Variables Value Response}.

#[local] Abbreviation state := (state Variables Value).

Lemma run_invariant (P : state -> Prop) :
  (forall a s s', P s -> step a s = Some s' -> P s') ->
  forall sched s s', P s -> run sched s = Some s' -> P s'.
Proof.
  intros Hstep sched. induction sched as [|a sched IH]; intros s s' HP Hrun.
  - simpl in Hrun. congruence.
  - simpl in Hrun. destruct (step a s) as [s1|] eqn:E; [|discriminate].
    simpl in Hrun. eapply IH; [|exact Hrun]. eapply Hstep; eassumption.
Qed.

Lemma run_app (l1 l2 : list action) (s : state) :
  run (l1 ++ l2) s = run l1 s ≫= run l2.
Proof.
  revert s. induction l1 as [|a l1 IH]; intros s; simpl; [reflexivity|].
  destruct (step a s); simpl; [apply IH|reflexivity].
Qed.

Lemma Connect_initial (options : list conn_option) : initial (Connect options : state).
Proof.
  unfold Connect. generalize (defaultOpts ++ options). intros l.
  assert (H : initial (mkState (Variables:=Variables) (Value:=Value)
                         0 false false ∅ 0 ∅ (RLoop []) WSelect [] [] []))
    by (split; simpl; auto).
  revert H. generalize (mkState (Variables:=Variables) (Value:=Value)
                          0 false false ∅ 0 ∅ (RLoop []) WSelect [] [] []).
  induction l as [|o l IH]; intros s H; simpl; [exact H|].
  apply IH. destruct H. destruct o; split; simpl; auto.
  apply Forall_app; split; [assumption|]. repeat constructor. eexists; reflexivity.
Qed.

(** *** Shutdown *)

Lemma shutdown_initial (s : state) : initial s -> shutdown_inv s.
Proof.
  intros []. split.
  - rewrite init_reader0, init_writer0. simpl. unfold closes.
    induction init_ws_log0 as [|e l [limit ->] _ IH]; [reflexivity|].
    rewrite filter_cons. simpl. exact IH.
  - intros H. exfalso. revert H. unfold closes.
    induction init_ws_log0 as [|e l [limit ->] _ IH]; simpl; [lia|].
    rewrite filter_cons. simpl. exact IH.
  - congruence.
  - eapply Forall_impl; [exact init_ws_log0|]. intros e [limit ->]. discriminate.
Qed.

Lemma shutdown_step (a : action) (s s' : state) :
  shutdown_inv s -> step a s = Some s' -> shutdown_inv s'.
Proof.
  intros [Hc Hx Hs Hw] H. step_inv H.
  all: split; unfold closes, close, ws in *; simpl in *;
    rewrite ?filter_app, ?length_app, ?Forall_app in *; simpl.
  all: repeat match goal with
       | |- context [o_return ?o] => destruct (o_return o)
       | |- context [if ?b then WDefer else _] => destruct b eqn:?
       | |- context [if ?b then WWrite _ else _] => destruct b eqn:?
       | |- context [if ?b then WSelect else _] => destruct b eqn:?
       | E : reader _ = _ |- _ => rewrite E in *; clear E
       | E : writer _ = _, Hc : _ = _ + _ |- _ => rewrite E in Hc
       end; simpl in *.
  all: try (intros Hst; try specialize (Hs Hst); congruence).
  all: try (repeat constructor; simpl; auto; try lia; try discriminate; fail).
  all: try (intros; apply Hx; lia).
Qed.

Lemma shutdown_reachable (options : list conn_option) (sched : list action) (s : state) :
  run sched (Connect options) = Some s -> shutdown_inv s.
Proof.
  apply (run_invariant shutdown_inv shutdown_step).
  apply shutdown_initial, Connect_initial.
Qed.

(** C2 (as the code has it). [conn.close] is run once by the dispatcher, when
    [readLoop] returns, and once by the writer goroutine, when it returns;
    each run cancels the root scope and calls the transport's Close.  So
    Close has been called once for each of the two that has got that far, at
    most twice, and exactly twice once both have finished; the root scope is
    cancelled from the first Close on.  Cancelling from outside only cancels
    the root scope. *)
Theorem close_per_goroutine (options : list conn_option) (sched : list action)
    (s : state) :
  run sched (Connect options) = Some s ->
  closes s = (if reader_finished (reader s) then 1 else 0)
             + (if writer_closed (writer s) then 1 else 0)
  /\ closes s <= 2
  /\ (0 < closes s -> ctxDone s = true)
  /\ (reader s = RDone -> writer s = WDone -> closes s = 2)
  /\ (forall s', step Cancel s = Some s' ->
        ctxDone s' = true /\ ws_log s' = ws_log s).
Proof.
  intros Hrun. destruct (shutdown_reachable _ _ _ Hrun) as [Hc Hx _ _].
  split_and!; try assumption.
  - rewrite Hc. destruct (reader_finished _), (writer_closed _); simpl; lia.
  - intros Hr Hw. rewrite Hc, Hr, Hw. reflexivity.
  - intros s' H. simpl in H. injection H as <-. split; reflexivity.
Qed.

(** C3. In every state a connection reaches, the calls that write to the
    transport (SetWriteDeadline, WriteJSON) were all made by the writer
    goroutine, and a step of any other goroutine adds none.  A send by the
    dispatcher or by a streaming goroutine leaves the transport alone: either
    the writer is at its select and takes the sender's frame, or stop is
    closed, the writer goroutine is gone and nothing happens to the frame. *)
Theorem single_writer (options : list conn_option) (sched : list action) (s : state) :
  run sched (Connect options) = Some s ->
  (forall t c, (t, c) ∈ ws_log s -> is_write c = true -> t = Writer)
  /\ (forall a s', step a s = Some s' -> actor a <> Writer ->
        write_calls (ws_log s') = write_calls (ws_log s))
  /\ (forall t stopped s', step (Send t stopped) s = Some s' ->
        t <> Writer
        /\ ws_log s' = ws_log s
        /\ if stopped
           then stopClosed s = true /\ writer s = WDone /\ writer s' = WDone
           else writer s = WSelect
                /\ exists m, pending t s = Some m /\ writer s' = WGot m).
Proof.
  intros Hrun. destruct (shutdown_reachable _ _ _ Hrun) as [_ _ Hs Hw].
  split_and!.
  - intros t c Hin Hc. rewrite Forall_forall in Hw. exact (Hw _ Hin Hc).
  - intros a s' H Ha. unfold write_calls. step_inv H; simpl in *;
      try congruence; unfold ws, close; simpl;
      rewrite ?filter_app, ?app_nil_r; reflexivity.
  - intros t stopped s' H. unfold pending. step_inv H; simpl.
    all: repeat match goal with
         | E : _ = _ |- _ => rewrite E
         end; simpl.
    all: split_and!; try discriminate; try reflexivity; eauto.
    all: eexists; rewrite Heqs0; split; reflexivity.
Qed.

End Runs.

(** ** Operation scopes and the tracking table *)

Section Scopes.
Context {Variables Value Response : Type}.
Context {service : GraphQLService Variables Value Response}.
Context {json : JSON Variables Value Response}.

#[local] Abbreviation state := (state Variables Value).

Lemma scopes_initial (s : state) : initial s -> scopes_inv s.
Proof.
  intros []. split.
  - intros id scope. rewrite init_opDone0, lookup_empty. discriminate.
  - intros i g. rewrite init_streamers0, lookup_nil. discriminate.
  - intros i j gi gj. rewrite init_streamers0, lookup_nil. discriminate.
Qed.

(** Changing the program counter or the channel of a goroutine keeps the
    invariant. *)
Lemma scopes_update (s : state) (i : nat) (g g' : streamer Value) :
  scopes_inv s -> streamers s !! i = Some g ->
  forall s' : state,
    streamers s' = <[i := g']> (streamers s) ->
    opDone s' = opDone s -> scopes s' = scopes s ->
    s_scope g' = s_scope g -> s_id g' = s_id g ->
    scopes_inv s'.
Proof.
  intros [Ht Hf Hd] Hi s' Hs Ho Hn Hsc Hid. split.
  - intros id scope. rewrite Ho, Hs. intros H. destruct (Ht _ _ H) as (j & gj & Hj & ? & ?).
    destruct (decide (i = j)) as [->|Hne].
    + exists j, g'. rewrite list_lookup_insert_eq by (eapply lookup_lt_Some; eassumption).
      simplify_eq. auto.
    + exists j, gj. rewrite list_lookup_insert_ne by assumption. auto.
  - intros j gj. rewrite Hn, Hs. intros H. destruct (decide (i = j)) as [->|Hne].
    + rewrite list_lookup_insert_eq in H by (eapply lookup_lt_Some; eassumption).
      simplify_eq. rewrite Hsc. eauto.
    + rewrite list_lookup_insert_ne in H by assumption. eauto.
  - assert (Hsame : forall j gj, <[i := g']> (streamers s) !! j = Some gj ->
              exists gj0, streamers s !! j = Some gj0 /\ s_scope gj0 = s_scope gj).
    { intros j gj H. destruct (decide (i = j)) as [->|Hne].
      - rewrite list_lookup_insert_eq in H by (eapply lookup_lt_Some; eassumption).
        simplify_eq. eauto.
      - rewrite list_lookup_insert_ne in H by assumption. eauto. }
    intros j k gj gk. rewrite Hs. intros Hj Hk Heq.
    destruct (Hsame _ _ Hj) as (gj0 & Hj0 & Ej), (Hsame _ _ Hk) as (gk0 & Hk0 & Ek).
    eapply Hd; [exact Hj0|exact Hk0|congruence].
Qed.

Lemma scopes_same (s s' : state) :
  scopes_inv s ->
  opDone s' = opDone s -> scopes s' = scopes s -> streamers s' = streamers s ->
  scopes_inv s'.
Proof.
  intros [Ht Hf Hd] Ho Hn Hs. split.
  - intros id scope. rewrite Ho, Hs. apply Ht.
  - intros i g. rewrite Hn, Hs. apply Hf.
  - intros i j gi gj. rewrite Hs. apply Hd.
Qed.

Lemma scopes_dispatch (s : state) (msg : operationMessage) :
  scopes_inv s ->
  scopes_inv (dispatch (handle (opDone s) (scopes s) msg) s).
Proof.
  intros [Ht Hf Hd]. destruct (handle_cases (opDone s) (scopes s) msg).
  - split; simpl; rewrite ?app_nil_r; auto.
  - split; simpl; rewrite ?app_nil_r; auto.
    intros i g Hi. specialize (Hf _ _ Hi). lia.
  - split; simpl.
    + intros id scope Hl. destruct (decide (ID msg = id)) as [<-|Hne].
      * rewrite lookup_insert_eq in Hl. simplify_eq.
        exists (length (streamers s)), (mkStreamer (ID msg) (scopes s) c SSelect).
        rewrite lookup_app_r, Nat.sub_diag by lia. auto.
      * rewrite lookup_insert_ne in Hl by assumption.
        destruct (Ht _ _ Hl) as (i & g & Hi & ? & ?). exists i, g.
        rewrite lookup_app_l by (eapply lookup_lt_Some; eassumption). auto.
    + intros i g Hi. apply lookup_app_Some in Hi as [Hi|[_ Hi]].
      * specialize (Hf _ _ Hi). lia.
      * apply list_lookup_singleton_Some in Hi as [_ <-]. simpl. lia.
    + intros i j gi gj Hi Hj Heq.
      apply lookup_app_Some in Hi as [Hi|[Hli Hi]];
        apply lookup_app_Some in Hj as [Hj|[Hlj Hj]].
      * eapply Hd; eassumption.
      * apply list_lookup_singleton_Some in Hj as [_ <-]. simpl in Heq.
        specialize (Hf _ _ Hi). lia.
      * apply list_lookup_singleton_Some in Hi as [_ <-]. simpl in Heq.
        specialize (Hf _ _ Hj). lia.
      * apply list_lookup_singleton_Some in Hi as [Hi _].
        apply list_lookup_singleton_Some in Hj as [Hj _]. lia.
  - split; simpl; rewrite ?app_nil_r; auto.
    intros id scope Hl. apply lookup_delete_Some in Hl as [_ Hl]. eauto.
  - split; simpl; rewrite ?app_nil_r; auto.
Qed.

Lemma scopes_step (a : action) (s s' : state) :
  scopes_inv s -> step a s = Some s' -> scopes_inv s'.
Proof.
  intros Hinv H. step_inv H.
  all: try (eapply scopes_same; [exact Hinv|reflexivity..]).
  all: try (eapply scopes_update; [exact Hinv|eassumption|reflexivity..]).
  - apply (scopes_dispatch (ws Dispatcher (ReadJSON (Some o)) s) o).
    eapply scopes_same; [exact Hinv|reflexivity..].
  - eapply scopes_update; [exact Hinv|eassumption|reflexivity..| |];
      unfold received; destruct (s_chan x); reflexivity.
Qed.

Lemma cancelled_step (a : action) (s s' : state) :
  scopes_inv s -> cancelled_inv s -> step a s = Some s' -> cancelled_inv s'.
Proof.
  intros Hsc Hc H. unfold cancelled_inv in *. step_inv H; auto.
  all: try (intros scope Hin; simpl in *;
            apply elem_of_union in Hin as [Hin|Hin]; [|auto];
            apply elem_of_singleton in Hin; subst scope;
            eapply (sc_fresh _ Hsc); eassumption).
  intros scope Hin. simpl in *. apply elem_of_union in Hin as [Hin|Hin].
  - destruct (handle_cases (opDone s) (scopes s) o); simpl in *; set_unfold in Hin;
      repeat match goal with
             | H : _ \/ _ |- _ => destruct H
             | H : False |- _ => destruct H
             end; subst.
    + lia.
    + destruct (sc_table _ Hsc _ _ H0) as (i & g & Hi & <- & _).
      eapply (sc_fresh _ Hsc). eassumption.
  - specialize (Hc _ Hin). destruct (o_scoped _); lia.
Qed.

Lemma scopes_reachable (options : list conn_option) (sched : list action) (s : state) :
  run sched (Connect options) = Some s -> scopes_inv s.
Proof.
  apply (run_invariant scopes_inv scopes_step).
  apply scopes_initial, Connect_initial.
Qed.

Lemma cancelled_reachable (options : list conn_option) (sched : list action)
    (s : state) :
  run sched (Connect options) = Some s -> cancelled_inv s.
Proof.
  intros H.
  apply (run_invariant (λ s, scopes_inv s /\ cancelled_inv s)) in H; [apply H| |].
  - intros a s0 s1 [Hsc Hc] Hstep. split.
    + eapply scopes_step; eassumption.
    + eapply cancelled_step; eassumption.
  - split; [apply scopes_initial, Connect_initial|].
    intros scope. rewrite (init_cancelled _ (Connect_initial options)).
    intros Hin. apply elem_of_empty in Hin. destruct Hin.
Qed.

(** C8. A start message, accepted by Subscribe, whose id is already tracked:
    the table entry for the id now holds the new operation's scope, which
    differs from the one it held; the earlier scope is no longer in the table
    under any id; nothing is cancelled by the handler, so the earlier
    scope is exactly as done as before; the earlier goroutine, started under
    this id, is still in the pool as it was, next to the new one. *)
Theorem duplicate_start (options : list conn_option) (sched : list action)
    (s : state) (msg : operationMessage) (osp : startMessagePayload Variables)
    (c : list Value) (old : nat) :
  run sched (Connect options) = Some s ->
  reader s = RLoop [] ->
  Type_ msg = typeStart ->
  ID msg <> EmptyString ->
  Unmarshal_start (Payload msg) = Ok osp ->
  Subscribe (scopes s) (Query osp) (OperationName osp) (Variables_ osp) = Ok c ->
  opDone s !! ID msg = Some old ->
  exists s',
    step (Read (Some msg)) s = Some s'
    /\ opDone s' = <[ID msg := scopes s]> (opDone s)
    /\ opDone s' !! ID msg = Some (scopes s)
    /\ old <> scopes s
    /\ (forall id, opDone s' !! id <> Some old)
    /\ cancelled s' = cancelled s
    /\ ctxDone s' = ctxDone s
    /\ scope_done old s' = scope_done old s
    /\ streamers s' = streamers s ++ [mkStreamer (ID msg) (scopes s) c SSelect]
    /\ reader s' = RLoop []
    /\ exists i g,
         streamers s !! i = Some g /\ s_scope g = old /\ s_id g = ID msg
         /\ streamers s' !! i = Some g.
Proof.
  intros Hrun Hr Ht Hid Hosp Hsub Hold.
  destruct (scopes_reachable _ _ _ Hrun) as [Htab Hfresh Hdist].
  destruct (Htab _ _ Hold) as (i & g & Hi & Hsc & Hg).
  assert (Hlt : old < scopes s) by (rewrite <- Hsc; eauto).
  unfold step. rewrite Hr. simpl.
  unfold handle. simpl. rewrite Ht. simpl.
  rewrite decide_False by exact Hid. rewrite Hosp, Hsub.
  eexists. split; [reflexivity|]. simpl.
  rewrite (left_id_L ∅ (∪)).
  split_and!; try reflexivity.
  - rewrite lookup_insert_eq. reflexivity.
  - lia.
  - intros id Hl. destruct (decide (ID msg = id)) as [<-|Hne].
    + rewrite lookup_insert_eq in Hl. simplify_eq. lia.
    + rewrite lookup_insert_ne in Hl by assumption.
      destruct (Htab _ _ Hl) as (j & gj & Hj & Hscj & Hgj).
      assert (i = j) by (eapply Hdist; [exact Hi|exact Hj|congruence]).
      subst j. congruence.
  - unfold scope_done, dispatch. simpl. rewrite (left_id_L ∅ (∪)). reflexivity.
  - exists i, g. split_and!; try assumption.
    rewrite lookup_app_l by (eapply lookup_lt_Some; eassumption). assumption.
Qed.

End Scopes.

(** ** stop *)

Section Stop.
Context {Variables Value Response : Type}.
Context {service : GraphQLService Variables Value Response}.
Context {json : JSON Variables Value Response}.

#[local] Abbreviation state := (state Variables Value).

Lemma streamer_done_stuck (s : state) (i : nat) (g : streamer Value) (a : action) :
  streamers s !! i = Some g -> s_pc g = SDone -> actor a = Streamer i ->
  step a s = None.
Proof.
  intros Hi Hpc Ha. destruct a; simpl in Ha; try discriminate; simplify_eq; simpl;
    rewrite Hi; simpl; rewrite Hpc; reflexivity.
Qed.

Lemma stream_done_step (s : state) (i : nat) (g : streamer Value) :
  streamers s !! i = Some g -> s_pc g = SSelect -> scope_done (s_scope g) s = true ->
  exists s',
    step (StreamDone i) s = Some s'
    /\ pending (Streamer i) s' = None
    /\ ws_log s' = ws_log s
    /\ writer s' = writer s
    /\ reader s' = reader s
    /\ forall a, actor a = Streamer i -> step a s' = None.
Proof.
  intros Hi Hpc Hdone.
  assert (Hlt : i < length (streamers s)) by (eapply lookup_lt_Some; eassumption).
  unfold step at 1. rewrite Hi. simpl. rewrite Hpc, Hdone.
  eexists. split; [reflexivity|]. unfold pending. simpl.
  rewrite list_lookup_insert_eq by exact Hlt. simpl.
  split_and!; try reflexivity.
  intros a Ha.
  apply (streamer_done_stuck _ i (mkStreamer (s_id g) (s_scope g) (s_chan g) SDone) a);
    [|reflexivity|exact Ha].
  simpl. rewrite list_lookup_insert_eq by exact Hlt. reflexivity.
Qed.

(** C4 (as the code has it). A stop message, whether its id is tracked or
    not: the dispatcher removes the id from the table, calls the handle it
    found there, if any, leaves the goroutines and the transport alone, and
    has exactly one frame to send, a complete under that id, after which it
    reads on.  A goroutine of the cancelled scope that is at its select can
    take the cancellation branch; doing so it returns without handing anything
    to the writer and never moves again. *)
Theorem stop_handled (s : state) (msg : operationMessage) :
  reader s = RLoop [] ->
  Type_ msg = typeStop ->
  exists s',
    step (Read (Some msg)) s = Some s'
    /\ reader s' = RLoop [mkMsg (ID msg) None typeComplete]
    /\ opDone s' = delete (ID msg) (opDone s)
    /\ cancelled s'
       = match opDone s !! ID msg with
         | Some onDone => {[onDone]} ∪ cancelled s
         | None => cancelled s
         end
    /\ streamers s' = streamers s
    /\ writer s' = writer s
    /\ written s' = written s
    /\ ctxDone s' = ctxDone s
    /\ (forall stopped s'',
          step (Send Dispatcher stopped) s' = Some s'' ->
          reader s'' = RLoop []
          /\ (stopped = false ->
              writer s'' = WGot (mkMsg (ID msg) None typeComplete)))
    /\ (forall i g,
          streamers s' !! i = Some g ->
          opDone s !! ID msg = Some (s_scope g) ->
          s_pc g = SSelect ->
          exists s'',
            step (StreamDone i) s' = Some s''
            /\ pending (Streamer i) s'' = None
            /\ ws_log s'' = ws_log s'
            /\ writer s'' = writer s'
            /\ reader s'' = reader s'
            /\ forall a, actor a = Streamer i -> step a s'' = None).
Proof.
  intros Hr Ht. unfold step at 1. rewrite Hr.
  cbv beta iota zeta.
  rewrite (handle_stop _ _ _ Ht).
  change (opDone (ws Dispatcher (ReadJSON (Some msg)) s)) with (opDone s).
  destruct (opDone s !! ID msg) as [onDone|] eqn:E.
  - eexists. split; [reflexivity|].
    split_and!.
    all: try (simpl; rewrite ?app_nil_r, ?(right_id_L ∅ (∪)); reflexivity).
    + unfold written, ws. simpl. rewrite omap_app. simpl. apply app_nil_r.
    + intros stopped s'' H. step_inv H; simpl; split; try reflexivity; discriminate.
    + intros i g Hi Hsc Hpc. simplify_eq.
      apply (stream_done_step _ i g); [exact Hi|exact Hpc|].
      unfold scope_done. simpl.
      rewrite bool_decide_eq_true_2 by set_solver. apply orb_true_r.
  - eexists. split; [reflexivity|].
    split_and!.
    all: try (simpl; rewrite ?app_nil_r, ?(left_id_L ∅ (∪)); reflexivity).
    + symmetry. apply delete_id. exact E.
    + unfold written, ws. simpl. rewrite omap_app. simpl. apply app_nil_r.
    + intros stopped s'' H. step_inv H; simpl; split; try reflexivity; discriminate.
    + intros i g _ Hsc. discriminate.
Qed.

End Stop.

(** ** Frames in flight *)

Section Frames.
Context {Variables Value Response : Type}.
Context {service : GraphQLService Variables Value Response}.
Context {json : JSON Variables Value Response}.

#[local] Abbreviation state := (state Variables Value).

Lemma frame_of_ok (id : string) (payload : Value) :
  ID (frame_of id payload) = id /\ payload_ok (frame_of id payload).
Proof.
  unfold frame_of, payload_ok, error_frame.
  destruct (Marshal_payload payload) eqn:He; simpl; split; try reflexivity.
  - intros [?|?]; discriminate.
  - intros _. eexists. split; [|reflexivity]. eauto using raised.
Qed.

Lemma complete_ok (id : string) : payload_ok (mkMsg id None typeComplete).
Proof. intros [?|?]; discriminate. Qed.

Lemma frames_initial (s : state) : initial s -> frames_inv s.
Proof.
  intros []. split.
  - rewrite init_reader0. intros q [= <-]. constructor.
  - rewrite init_writer0. discriminate.
  - intros i g m. rewrite init_streamers0, lookup_nil. discriminate.
  - eapply Forall_impl; [exact init_ws_log0|]. intros e [limit ->]. discriminate.
Qed.

Lemma lookup_insert_streamer (l : list (streamer Value)) (i j : nat)
    (g g' gj : streamer Value) :
  l !! i = Some g -> <[i := g']> l !! j = Some gj ->
  (j = i /\ gj = g') \/ (j <> i /\ l !! j = Some gj).
Proof.
  intros Hi Hj. destruct (decide (i = j)) as [->|Hne].
  - rewrite list_lookup_insert_eq in Hj by (eapply lookup_lt_Some; eassumption).
    left. split; congruence.
  - rewrite list_lookup_insert_ne in Hj by assumption. right. split; congruence.
Qed.

Lemma frames_step (a : action) (s s' : state) :
  frames_inv s -> step a s = Some s' -> frames_inv s'.
Proof.
  intros [Hr Hw Hs Hl] H. step_inv H.
  all: split; simpl;
    try (rewrite Forall_app; split; [exact Hl|repeat constructor; simpl; congruence]);
    try exact Hl; try exact Hw; try exact Hs; try exact Hr; try discriminate.
  all: repeat match goal with
       | Hr : forall q, RLoop _ = RLoop q -> _ |- _ => specialize (Hr _ eq_refl)
       | Hw : forall m, Some _ = Some m -> _ |- _ => specialize (Hw _ eq_refl)
       | H : Forall _ (_ :: _) |- _ => apply Forall_cons in H as [? ?]
       end.
  all: try (intros ? [= <-]; auto using complete_ok; fail).
  all: try (intros ? ? ? Hj Hpc;
            eapply lookup_insert_streamer in Hj as [[-> ->]|[_ Hj]]; [| |eassumption];
            simpl in *; [try discriminate|eauto]).
  all: try (destruct (ctxDone _); simpl; [discriminate|intros ? [= <-]; auto]; fail).
  all: try (destruct ok; simpl; [intros ? [= <-]; auto|discriminate]; fail).
  all: try (destruct ok; simpl; discriminate).
  - destruct (o_return _); [discriminate|]. intros q [= <-].
    eapply Forall_impl; [apply handle_sends|]. intros m [_ Hm]. exact Hm.
  - intros i g m Hi Hpc. apply lookup_app_Some in Hi as [Hi|[_ Hi]]; [eauto|].
    destruct (handle_cases (opDone s) (scopes s) o); simpl in Hi;
      try (rewrite lookup_nil in Hi; discriminate).
    apply list_lookup_singleton_Some in Hi as [_ <-]. discriminate.
  - intros ? [= <-]. eapply Hs; eassumption.
  - rewrite Forall_app. split; [exact Hl|]. repeat constructor. simpl.
    intros m0 ok0 [= <- <-]. assumption.
  - unfold received in *. destruct (s_chan x); simpl in *; [discriminate|].
    injection Hpc as <-. apply frame_of_ok.
Qed.

Lemma frames_reachable (options : list conn_option) (sched : list action) (s : state) :
  run sched (Connect options) = Some s -> frames_inv s.
Proof.
  apply (run_invariant frames_inv frames_step).
  apply frames_initial, Connect_initial.
Qed.

(** C10. Every error and connection_error frame handed to the transport
    carries a payload made by [errPayload] from an error the connection
    raised: one of its own three messages, or the error returned by
    [Subscribe], by [json.Marshal] of a stream value or of a response of
    [Exec], or by [json.Unmarshal] of a receive payload.  Whatever the error,
    [errPayload] produces a payload, there is no failing case: the JSON
    object with the one member "message" whose value is a JSON string that
    reads back as the error's text coerced to valid UTF-8 (and as nothing
    else).  It reads back as the error's text itself exactly when that text
    is valid UTF-8. *)
Theorem error_payloads (options : list conn_option) (sched : list action) (s : state) :
  run sched (Connect options) = Some s ->
  (forall t m ok, (t, WriteJSON m ok) ∈ ws_log s -> error_frame m ->
     exists err, raised err /\ Payload m = errPayload err)
  /\ (forall err m,
        message_object (errPayload err) m <-> m = to_valid_utf8 (Error err))
  /\ (forall err,
        message_object (errPayload err) (Error err) <-> valid_utf8 (Error err) = true).
Proof.
  intros Hrun. destruct (frames_reachable _ _ _ Hrun) as [_ _ _ Hlog].
  split_and!.
  - intros t m ok Hin Hm. rewrite Forall_forall in Hlog.
    exact (Hlog _ Hin m ok eq_refl Hm).
  - intros err m. apply errPayload_message.
  - intros err. rewrite errPayload_message, <- valid_utf8_fixed.
    split; intros H; symmetry; exact H.
Qed.

End Frames.

(** ** The frames of one operation *)

Section Operation.
Context {Variables Value Response : Type}.
Context {service : GraphQLService Variables Value Response}.
Context {json : JSON Variables Value Response}.
Variable id : string.
Variable expected : list operationMessage.

#[local] Abbreviation state := (state Variables Value).

Lemma frames_of_app (l1 l2 : list operationMessage) :
  frames_of id (l1 ++ l2) = frames_of id l1 ++ frames_of id l2.
Proof. apply filter_app. Qed.

Lemma frames_of_other (m : operationMessage) : ID m <> id -> frames_of id [m] = [].
Proof.
  intros H. unfold frames_of. rewrite filter_cons, decide_False by exact H. reflexivity.
Qed.

Lemma frames_of_same (m : operationMessage) : ID m = id -> frames_of id [m] = [m].
Proof.
  intros H. unfold frames_of. rewrite filter_cons, decide_True by exact H. reflexivity.
Qed.

(** Steps that leave goroutine [i], its scope and the table alone. *)
Lemma op_frame (i : nat) (g : streamer Value) (s s' : state) :
  op_inv id expected i g s ->
  streamers s' !! i = Some g ->
  (forall j g', streamers s' !! j = Some g' ->
     exists g0, streamers s !! j = Some g0 /\ s_id g0 = s_id g') ->
  (s_scope g ∈ cancelled s' -> s_scope g ∈ cancelled s) ->
  opDone s' = opDone s ->
  (ctxDone s' = false -> ctxDone s = false) ->
  (forall q, reader s' = RLoop q -> Forall (λ m, ID m <> id) q) ->
  line id s' `prefix_of` line id s ->
  (live (writer s') = true -> live (writer s) = true /\ line id s' = line id s) ->
  op_inv id expected i g s'.
Proof.
  intros [] Hs Hu Hc Ho Hx Hr Hp Hl. split; try assumption.
  - auto.
  - rewrite Ho. assumption.
  - intros Hlive Hpc. destruct (Hl Hlive) as [Hlive0 ->]. auto.
  - intros Hlive Hpc Hctx. destruct (Hl Hlive) as [Hlive0 ->]. auto.
  - intros j g' Hj Hid. destruct (Hu _ _ Hj) as (g0 & Hj0 & Hid0).
    eapply op_unique0; [exact Hj0|congruence].
  - etransitivity; eassumption.
Qed.

Lemma prefix_app_nil (l k : list operationMessage) : l `prefix_of` l ++ k.
Proof. apply prefix_app_r. reflexivity. Qed.

(** The line after a step, from what it appended to the transport log and
    where it left the writer. *)
Lemma line_logged (s s' : state) (l : list (thread * ws_call)) (w : writer_pc) :
  ws_log s' = ws_log s ++ l -> writer s' = w ->
  line id s' = frames_of id (written s) ++ frames_of id (omap written_frame l)
               ++ frames_of id (option_list (held w)).
Proof.
  intros Hl Hw. unfold line, written. rewrite Hl, Hw, omap_app, frames_of_app.
  symmetry. apply app_assoc.
Qed.

Lemma line_quiet (s s' : state) (w : writer_pc) :
  ws_log s' = ws_log s -> writer s' = w ->
  line id s' = frames_of id (written s) ++ frames_of id (option_list (held w)).
Proof. intros Hl Hw. unfold line, written. rewrite Hl, Hw. reflexivity. Qed.

Lemma line_at (s : state) (w : writer_pc) :
  writer s = w ->
  line id s = frames_of id (written s) ++ frames_of id (option_list (held w)).
Proof. intros <-. reflexivity. Qed.

(** A step of another streaming goroutine. *)
Lemma op_other (i j : nat) (g x x' : streamer Value) (s s' : state) :
  op_inv id expected i g s ->
  scopes_inv s ->
  j <> i ->
  streamers s !! j = Some x ->
  streamers s' = <[j := x']> (streamers s) ->
  s_id x' = s_id x ->
  (forall scope, scope ∈ cancelled s' -> scope = s_scope x \/ scope ∈ cancelled s) ->
  opDone s' = opDone s ->
  ctxDone s' = ctxDone s ->
  reader s' = reader s ->
  line id s' = line id s ->
  (live (writer s') = true -> live (writer s) = true) ->
  op_inv id expected i g s'.
Proof.
  intros Hop Hsc Hne Hj Hs Hid Hc Ho Hx Hr Hl Hlive.
  pose proof (op_streamer _ _ _ _ _ Hop) as Hi.
  eapply op_frame; [exact Hop|..].
  - rewrite Hs, list_lookup_insert_ne by exact Hne. exact Hi.
  - intros k g' Hk. rewrite Hs in Hk.
    eapply lookup_insert_streamer in Hk as [[-> ->]|[_ Hk]]; [| |exact Hj]; eauto.
  - intros Hin. destruct (Hc _ Hin) as [Heq|?]; [|assumption].
    exfalso. apply Hne. symmetry. eapply (sc_distinct _ Hsc); eassumption.
  - exact Ho.
  - rewrite Hx. auto.
  - rewrite Hr. eapply op_reader. exact Hop.
  - rewrite Hl. reflexivity.
  - intros Hw. split; auto.
Qed.

(** A step of the goroutine itself. *)
Lemma op_self (i : nat) (g g' : streamer Value) (s s' : state) :
  op_inv id expected i g s ->
  streamers s' = <[i := g']> (streamers s) ->
  s_id g' = s_id g ->
  s_scope g' = s_scope g ->
  opDone s' = opDone s ->
  reader s' = reader s ->
  (s_scope g ∈ cancelled s' -> s_pc g' = SDone) ->
  (live (writer s') = true -> s_pc g' <> SDone -> line id s' ++ to_send g' = expected) ->
  (live (writer s') = true -> s_pc g' = SDone -> ctxDone s' = false ->
   line id s' = expected) ->
  line id s' `prefix_of` expected ->
  op_inv id expected i g' s'.
Proof.
  intros [] Hs Hid Hsc Ho Hr Hc Hrun Hfin Hp.
  assert (Hlt : i < length (streamers s)) by (eapply lookup_lt_Some; eassumption).
  split; try assumption.
  - rewrite Hs. apply list_lookup_insert_eq. exact Hlt.
  - congruence.
  - rewrite Hsc. exact Hc.
  - rewrite Hsc, Ho. exact op_table0.
  - intros j gj Hj Hgj. rewrite Hs in Hj.
    eapply lookup_insert_streamer in Hj as [[-> ->]|[_ Hj]];
      [reflexivity|eauto|eassumption].
  - rewrite Hr. exact op_reader0.
Qed.

(** The handler of a message under another id. *)
Lemma op_dispatch (i : nat) (g : streamer Value) (s : state) (msg : operationMessage) :
  id <> EmptyString ->
  ID msg <> id ->
  scopes_inv s ->
  op_inv id expected i g s ->
  op_inv id expected i g
    (dispatch (handle (opDone s) (scopes s) msg) (ws Dispatcher (ReadJSON (Some msg)) s)).
Proof.
  intros Hid Hmsg Hsc Hop.
  set (s' := dispatch _ _).
  assert (Hline : line id s' = line id s).
  { unfold s'. erewrite line_logged by reflexivity. reflexivity. }
  pose proof (sc_fresh _ Hsc _ _ (op_streamer _ _ _ _ _ Hop)) as Hfresh.
  destruct Hop. split; try assumption.
  - unfold s'. simpl. apply lookup_app_l_Some. assumption.
  - unfold s'. simpl. intros Hin. apply op_cancelled0.
    apply elem_of_union in Hin as [Hin|Hin]; [|exact Hin]. exfalso.
    destruct (handle_cases (opDone s) (scopes s) msg); simpl in Hin;
      set_unfold in Hin;
      repeat match goal with
             | H : _ \/ _ |- _ => destruct H
             | H : False |- _ => destruct H
             end.
    + lia.
    + apply Hmsg, op_table0. congruence.
  - unfold s'. simpl. intros k Hk.
    destruct (handle_cases (opDone s) (scopes s) msg); simpl in Hk; auto.
    + destruct (decide (ID msg = k)) as [<-|Hne].
      * rewrite lookup_insert_eq in Hk. injection Hk as Hk. lia.
      * rewrite lookup_insert_ne in Hk by exact Hne. auto.
    + apply lookup_delete_Some in Hk as [_ Hk]. auto.
  - rewrite Hline. exact op_running0.
  - rewrite Hline. exact op_finished0.
  - unfold s'. simpl. intros j g' Hj Hg'.
    apply lookup_app_Some in Hj as [Hj|[_ Hj]]; [eauto|]. exfalso.
    destruct (handle_cases (opDone s) (scopes s) msg); simpl in Hj;
      try (rewrite lookup_nil in Hj; discriminate).
    apply list_lookup_singleton_Some in Hj as [_ <-]. simpl in Hg'. contradiction.
  - unfold s'. simpl. intros q Hq.
    destruct (o_return _); [discriminate|]. injection Hq as <-.
    eapply Forall_impl; [apply handle_sends|]. simpl.
    intros m [[->| ->] _]; [exact Hmsg|congruence].
  - rewrite Hline. assumption.
Qed.

Lemma op_step (a : action) (s s' : state) (i : nat) (g : streamer Value) :
  id <> EmptyString ->
  shutdown_inv s -> scopes_inv s -> frames_inv s ->
  op_inv id expected i g s ->
  step a s = Some s' ->
  (forall m, a = Read (Some m) -> ID m <> id) ->
  exists g', op_inv id expected i g' s'.
Proof.
  intros Hid Hsd Hsc Hfr Hop H Hread.
  pose proof (op_streamer _ _ _ _ _ Hop) as Hi.
  pose proof (op_reader _ _ _ _ _ Hop) as Hrd.
  step_inv H.
  - (* Cancel *)
    exists g. eapply op_frame; [exact Hop|..]; eauto; try discriminate.
  - (* Read (Some o) *)
    exists g. apply op_dispatch; auto.
  - (* Read None *)
    assert (Hline : line id (set_reader RDefer (ws Dispatcher (ReadJSON None) s))
                    = line id s).
    { erewrite line_logged by reflexivity. reflexivity. }
    exists g. eapply op_frame; [exact Hop|..]; eauto; try discriminate.
    rewrite Hline. reflexivity.
  - (* Send Dispatcher, stop closed *)
    exists g. eapply op_frame; [exact Hop|..]; eauto.
    intros q [= <-]. specialize (Hrd _ eq_refl). apply Forall_cons in Hrd as [_ ?].
    assumption.
  - (* Send Dispatcher, handed over *)
    specialize (Hrd _ eq_refl). apply Forall_cons in Hrd as [Ho Hl].
    assert (Hline : line id (set_reader (RLoop l) (set_writer (WGot o) s)) = line id s).
    { erewrite line_quiet by reflexivity. rewrite (line_at s _ Heqw). simpl.
      rewrite (frames_of_other o) by exact Ho. reflexivity. }
    exists g. eapply op_frame; [exact Hop|..]; eauto.
    + intros q [= <-]. assumption.
    + rewrite Hline. reflexivity.
    + intros _. rewrite Heqw. split; [reflexivity|exact Hline].
  - (* Send (Streamer i0), SSend, stop closed *)
    rename x0 into s, x into gj, i0 into j, H0 into Hj, Heqs0 into Hpc.
    pose proof (sd_stop _ Hsd Heqb0) as Hw.
    destruct (decide (j = i)) as [->|Hne].
    + assert (gj = g) by congruence. subst gj.
      eexists. eapply op_self; [exact Hop|reflexivity..| | | |]; simpl.
      * intros Hin. apply (op_cancelled _ _ _ _ _ Hop) in Hin. congruence.
      * rewrite Hw. discriminate.
      * rewrite Hw. discriminate.
      * apply (op_prefix _ _ _ _ _ Hop).
    + exists g. eapply (op_other i j g gj _ s); [exact Hop|exact Hsc|exact Hne|exact Hj|..];
        try reflexivity; auto.
  - (* Send (Streamer i0), SSend, handed over *)
    rename x into gj, i0 into j, H0 into Hj, Heqs0 into Hpc.
    destruct (fr_streamers _ Hfr _ _ _ Hj Hpc) as [Hm _].
    destruct (decide (j = i)) as [->|Hne].
    + assert (gj = g) by congruence. subst gj.
      rewrite (op_id _ _ _ _ _ Hop) in Hm.
      assert (Hrun : line id (set_pc i g SSelect (set_writer (WGot m) s))
                     ++ stream_frames (s_id g) (s_chan g) = expected).
      { erewrite line_quiet by reflexivity. simpl.
        rewrite (frames_of_same m) by exact Hm.
        rewrite <- (op_running _ _ _ _ _ Hop); [|rewrite Heqw; reflexivity|congruence].
        rewrite (line_at s _ Heqw). unfold to_send. rewrite Hpc. simpl.
        rewrite app_nil_r, <- app_assoc. reflexivity. }
      eexists. eapply op_self; [exact Hop|reflexivity..| | | |]; simpl.
      * intros Hin. apply (op_cancelled _ _ _ _ _ Hop) in Hin. congruence.
      * intros _ _. exact Hrun.
      * discriminate.
      * rewrite <- Hrun. apply prefix_app_nil.
    + assert (ID m <> id).
      { intros Heq. apply Hne. eapply (op_unique _ _ _ _ _ Hop); [exact Hj|congruence]. }
      exists g. eapply (op_other i j g gj _ s); [exact Hop|exact Hsc|exact Hne|exact Hj|..];
        try reflexivity; auto.
      * erewrite line_quiet by reflexivity. rewrite (line_at s _ Heqw). simpl.
        rewrite (frames_of_other m) by assumption. reflexivity.
      * rewrite Heqw. reflexivity.
  - (* Send (Streamer i0), SComplete, stop closed *)
    rename x0 into s, x into gj, i0 into j, H0 into Hj, Heqs0 into Hpc.
    pose proof (sd_stop _ Hsd Heqb0) as Hw.
    destruct (decide (j = i)) as [->|Hne].
    + assert (gj = g) by congruence. subst gj.
      eexists. eapply op_self; [exact Hop|reflexivity..| | | |]; simpl.
      * reflexivity.
      * rewrite Hw. discriminate.
      * rewrite Hw. discriminate.
      * apply (op_prefix _ _ _ _ _ Hop).
    + exists g. eapply (op_other i j g gj _ s); [exact Hop|exact Hsc|exact Hne|exact Hj|..];
        try reflexivity; auto.
      simpl. intros scope Hin. apply elem_of_union in Hin as [Hin|Hin]; [|auto].
      apply elem_of_singleton in Hin. auto.
  - (* Send (Streamer i0), SComplete, handed over *)
    rename x into gj, i0 into j, H0 into Hj, Heqs0 into Hpc.
    destruct (decide (j = i)) as [->|Hne].
    + assert (gj = g) by congruence. subst gj.
      pose proof (op_id _ _ _ _ _ Hop) as Hg.
      assert (Hfin : line id (cancel (s_scope g) (set_pc i g SDone
                        (set_writer (WGot (mkMsg (s_id g) None typeComplete)) s)))
                     = expected).
      { erewrite line_quiet by reflexivity. simpl.
        rewrite frames_of_same by exact Hg.
        rewrite <- (op_running _ _ _ _ _ Hop); [|rewrite Heqw; reflexivity|congruence].
        rewrite (line_at s _ Heqw). unfold to_send. rewrite Hpc. simpl.
        rewrite app_nil_r. reflexivity. }
      eexists. eapply op_self; [exact Hop|reflexivity..| | | |]; simpl.
      * reflexivity.
      * intros _ Hc. contradiction Hc. reflexivity.
      * intros _ _ _. exact Hfin.
      * rewrite Hfin. reflexivity.
    + assert (s_id gj <> id).
      { intros Heq. apply Hne. eapply (op_unique _ _ _ _ _ Hop); [exact Hj|congruence]. }
      exists g. eapply (op_other i j g gj _ s); [exact Hop|exact Hsc|exact Hne|exact Hj|..];
        try reflexivity; auto.
      * simpl. intros scope Hin. apply elem_of_union in Hin as [Hin|Hin]; [|auto].
        apply elem_of_singleton in Hin. auto.
      * erewrite line_quiet by reflexivity. rewrite (line_at s _ Heqw). simpl.
        rewrite frames_of_other by assumption. reflexivity.
      * rewrite Heqw. reflexivity.
  - (* DispatcherClose *)
    assert (Hline : line id (set_reader RDone (close Dispatcher s)) = line id s).
    { erewrite line_logged by reflexivity. reflexivity. }
    exists g. eapply op_frame; [exact Hop|..]; eauto; try discriminate.
    rewrite Hline. reflexivity.
  - (* WriterDone *)
    exists g. eapply op_frame; [exact Hop|..]; eauto; try discriminate.
    erewrite line_quiet by reflexivity. rewrite (line_at s _ Heqw). reflexivity.
  - (* WriterCheck *)
    exists g. eapply op_frame; [exact Hop|..]; eauto.
    + erewrite line_quiet by reflexivity. rewrite (line_at s _ Heqw).
      destruct (ctxDone s); simpl; [rewrite app_nil_r; apply prefix_app_nil|reflexivity].
    + simpl. rewrite Heqw. destruct (ctxDone s); simpl; [discriminate|].
      intros _. split; [reflexivity|].
      erewrite line_quiet by reflexivity. rewrite (line_at s _ Heqw). reflexivity.
  - (* WriterSetDeadline *)
    exists g. eapply op_frame; [exact Hop|..]; eauto.
    + erewrite line_logged by reflexivity. rewrite (line_at s _ Heqw).
      destruct ok; simpl; [reflexivity|rewrite app_nil_r; apply prefix_app_nil].
    + simpl. rewrite Heqw. destruct ok; simpl; [|discriminate].
      intros _. split; [reflexivity|].
      erewrite line_logged by reflexivity. rewrite (line_at s _ Heqw). reflexivity.
  - (* WriterWrite *)
    exists g. eapply op_frame; [exact Hop|..]; eauto.
    + erewrite line_logged by reflexivity. rewrite (line_at s _ Heqw).
      destruct ok; simpl; rewrite ?app_nil_r; [reflexivity|apply prefix_app_nil].
    + simpl. rewrite Heqw. destruct ok; simpl; [|discriminate].
      intros _. split; [reflexivity|].
      erewrite line_logged by reflexivity. rewrite (line_at s _ Heqw). simpl.
      rewrite app_nil_r. reflexivity.
  - (* WriterClose *)
    exists g. eapply op_frame; [exact Hop|..]; eauto; try discriminate.
    erewrite line_logged by reflexivity. rewrite (line_at s _ Heqw). reflexivity.
  - (* WriterCloseStop *)
    exists g. eapply op_frame; [exact Hop|..]; eauto; try discriminate.
    erewrite line_quiet by reflexivity. rewrite (line_at s _ Heqw). reflexivity.
  - (* StreamDone *)
    rename x into gj, i0 into j, H0 into Hj, Heqs0 into Hpc.
    destruct (decide (j = i)) as [->|Hne].
    + assert (gj = g) by congruence. subst gj.
      assert (Hctx : ctxDone s = true).
      { unfold scope_done in Heqb. apply orb_true_iff in Heqb as [?|Hin]; [assumption|].
        apply bool_decide_eq_true in Hin.
        apply (op_cancelled _ _ _ _ _ Hop) in Hin. congruence. }
      eexists. eapply op_self; [exact Hop|reflexivity..| | | |]; simpl.
      * reflexivity.
      * intros _ Hc. contradiction Hc. reflexivity.
      * rewrite Hctx. discriminate.
      * apply (op_prefix _ _ _ _ _ Hop).
    + exists g. eapply (op_other i j g gj _ s); [exact Hop|exact Hsc|exact Hne|exact Hj|..];
        try reflexivity; auto.
      simpl. intros scope Hin. apply elem_of_union in Hin as [Hin|Hin]; [|auto].
      apply elem_of_singleton in Hin. auto.
  - (* StreamRecv *)
    rename x into gj, i0 into j, H0 into Hj, Heqs0 into Hpc.
    assert (Hrec : s_id (received gj) = s_id gj /\ s_scope (received gj) = s_scope gj
                   /\ s_pc (received gj) <> SDone
                   /\ to_send (received gj) = to_send gj).
    { unfold received, to_send. rewrite Hpc.
      destruct (s_chan gj); simpl; split_and!; try reflexivity; discriminate. }
    destruct Hrec as (Hrid & Hrsc & Hrpc & Hrts).
    destruct (decide (j = i)) as [->|Hne].
    + assert (gj = g) by congruence. subst gj.
      assert (Hrun : live (writer s) = true ->
                     line id s ++ to_send (received g) = expected).
      { intros Hl. rewrite Hrts. apply (op_running _ _ _ _ _ Hop); [exact Hl|congruence]. }
      eexists. eapply op_self;
        [exact Hop|reflexivity|exact Hrid|exact Hrsc|reflexivity|reflexivity| | | |]; simpl.
      * intros Hin. apply (op_cancelled _ _ _ _ _ Hop) in Hin. congruence.
      * intros Hl _. apply Hrun, Hl.
      * intros _ Hc. contradiction.
      * apply (op_prefix _ _ _ _ _ Hop).
    + exists g. eapply (op_other i j g gj _ s); [exact Hop|exact Hsc|exact Hne|exact Hj|..];
        try reflexivity; auto.
Qed.

(** *** Before the operation is started *)

Lemma line_step (a : action) (s s' : state) :
  step a s = Some s' ->
  line id s' `prefix_of` line id s
  \/ exists t m, a = Send t false /\ pending t s = Some m
                 /\ line id s' = line id s ++ frames_of id [m].
Proof.
  intros H. step_inv H.
  all: try (left; erewrite line_quiet by reflexivity; reflexivity).
  all: try (left; erewrite line_logged by reflexivity; reflexivity).
  all: try (left;
            first [erewrite line_logged by reflexivity
                  |erewrite line_quiet by reflexivity];
            rewrite (line_at s _ Heqw);
            repeat match goal with
                   | |- context [if ?b then _ else _] => destruct b
                   end;
            simpl; rewrite ?app_nil_r;
            first [reflexivity|apply prefix_app_nil]; fail).
  all: right; eexists _, _; split; [reflexivity|]; unfold pending; simpl;
    rewrite ?Heqr, ?H0; simpl; rewrite ?Heqs0; split; [reflexivity|];
    erewrite line_quiet by reflexivity; rewrite (line_at s _ Heqw); simpl;
    rewrite ?app_nil_r; reflexivity.
Qed.

(** A goroutine keeps its id; a new one has the id of the start message. *)
Lemma streamers_step (a : action) (s s' : state) (j : nat) (g' : streamer Value) :
  step a s = Some s' ->
  streamers s' !! j = Some g' ->
  (exists g0, streamers s !! j = Some g0 /\ s_id g0 = s_id g')
  \/ exists msg, a = Read (Some msg) /\ s_id g' = ID msg.
Proof.
  intros H Hj. step_inv H; eauto.
  all: try (eapply lookup_insert_streamer in Hj as [[-> ->]|[_ Hj]]; [| |eassumption];
            eauto; fail).
  - apply lookup_app_Some in Hj as [Hj|[_ Hj]]; [eauto|]. right.
    destruct (handle_cases (opDone s) (scopes s) o); simpl in Hj;
      try (rewrite lookup_nil in Hj; discriminate).
    apply list_lookup_singleton_Some in Hj as [_ <-]. eauto.
  - eapply lookup_insert_streamer in Hj as [[-> ->]|[_ Hj]]; [| |eassumption]; eauto.
    left. eexists. split; [eassumption|].
    unfold received. destruct (s_chan x); reflexivity.
Qed.

(** The frames the dispatcher has to send come from the message it read. *)
Lemma reader_step (a : action) (s s' : state) (q' : list operationMessage) :
  step a s = Some s' ->
  reader s' = RLoop q' ->
  (exists q, reader s = RLoop q /\ q' `suffix_of` q)
  \/ exists msg, a = Read (Some msg)
                 /\ Forall (λ m, ID m = ID msg \/ ID m = EmptyString) q'.
Proof.
  intros H Hq. step_inv H; try discriminate.
  all: try (left; eexists; split; [eassumption|reflexivity]; fail).
  1: { right. eexists. split; [reflexivity|]. simpl in Hq.
       destruct (o_return _); [discriminate|]. injection Hq as <-.
       eapply Forall_impl; [apply handle_sends|]. intros m [Hm _]. exact Hm. }
  all: simpl in Hq; injection Hq as <-; left; eexists;
    (split; [first [eassumption|reflexivity]|apply suffix_cons_r; reflexivity]).
Qed.

Lemma pending_id (t : thread) (s : state) (m : operationMessage) :
  frames_inv s ->
  pending t s = Some m ->
  (t = Dispatcher /\ exists q, reader s = RLoop (m :: q))
  \/ exists j g, t = Streamer j /\ streamers s !! j = Some g /\ ID m = s_id g.
Proof.
  intros Hfr H. unfold pending in H. destruct t; try discriminate.
  - left. destruct (reader s) as [[|m0 q]| |]; try discriminate.
    injection H as ->. eauto.
  - right. destruct (streamers s !! i) as [g|] eqn:Hi; [|discriminate]. simpl in H.
    exists i, g. split_and!; try reflexivity; try assumption.
    destruct (s_pc g) eqn:Hpc; try discriminate; injection H as <-.
    + exact (proj1 (fr_streamers _ Hfr _ _ _ Hi Hpc)).
    + reflexivity.
Qed.

Lemma pre_step (a : action) (s s' : state) :
  id <> EmptyString ->
  frames_inv s ->
  pre_inv id s ->
  step a s = Some s' ->
  (forall m, a = Read (Some m) -> ID m <> id) ->
  pre_inv id s'.
Proof.
  intros Hid Hfr [Hs Hr Hl] H Hread. split.
  - intros j g' Hj. destruct (streamers_step _ _ _ _ _ H Hj) as [(g0 & Hj0 & <-)|(m & -> & ->)].
    + eauto.
    + apply Hread. reflexivity.
  - intros q' Hq. destruct (reader_step _ _ _ _ H Hq) as [(q & Hq0 & Hsuf)|(m & -> & Hall)].
    + specialize (Hr _ Hq0). destruct Hsuf as [k ->]. apply Forall_app in Hr as [_ ?].
      assumption.
    + eapply Forall_impl; [exact Hall|]. simpl.
      intros m0 [->| ->]; [apply Hread; reflexivity|congruence].
  - destruct (line_step _ _ _ H) as [Hp|(t & m & -> & Hpend & ->)].
    + rewrite Hl in Hp. apply prefix_nil_inv in Hp. exact Hp.
    + rewrite Hl. simpl. apply frames_of_other.
      destruct (pending_id _ _ _ Hfr Hpend) as [(_ & q & Hq)|(j & g & _ & Hj & ->)].
      * specialize (Hr _ Hq). apply Forall_cons in Hr as [? _]. assumption.
      * eauto.
Qed.

(** *** The start message *)

Lemma op_start (s : state) (msg : operationMessage)
    (osp : startMessagePayload Variables) (c : list Value) :
  id <> EmptyString ->
  ID msg = id ->
  Type_ msg = typeStart ->
  Unmarshal_start (Payload msg) = Ok osp ->
  Subscribe (scopes s) (Query osp) (OperationName osp) (Variables_ osp) = Ok c ->
  expected = stream_frames id c ->
  scopes_inv s -> cancelled_inv s ->
  pre_inv id s ->
  op_inv id expected (length (streamers s)) (mkStreamer id (scopes s) c SSelect)
    (dispatch (handle (opDone s) (scopes s) msg) (ws Dispatcher (ReadJSON (Some msg)) s)).
Proof.
  intros Hid Hmsg Ht Hosp Hsub -> Hsc Hc [Hs Hr Hl].
  rewrite (handle_start _ _ _ osp Ht) by congruence.
  cbv zeta. rewrite Hsub, Hmsg.
  set (s' := dispatch _ _).
  assert (Hline : line id s' = []).
  { unfold s'. erewrite line_logged by reflexivity. rewrite <- Hl. reflexivity. }
  split.
  - unfold s'. simpl. rewrite lookup_app_r, Nat.sub_diag by lia. reflexivity.
  - reflexivity.
  - unfold s'. simpl. rewrite (left_id_L ∅ (∪)). intros Hin. apply Hc in Hin. lia.
  - unfold s'. simpl. intros k Hk. destruct (decide (id = k)) as [<-|Hne]; [reflexivity|].
    rewrite lookup_insert_ne in Hk by exact Hne.
    destruct (sc_table _ Hsc _ _ Hk) as (i & g & Hi & Hg & _).
    pose proof (sc_fresh _ Hsc _ _ Hi). lia.
  - intros _ _. rewrite Hline. reflexivity.
  - discriminate.
  - unfold s'. simpl. intros j g' Hj Hg'.
    apply lookup_app_Some in Hj as [Hj|[Hlen Hj]].
    + exfalso. eapply Hs; eassumption.
    + apply list_lookup_singleton_Some in Hj as [Hj _]. lia.
  - unfold s'. simpl. intros q [= <-]. constructor.
  - rewrite Hline. apply prefix_nil.
Qed.

Lemma received_step (a : action) (s s' : state) :
  step a s = Some s' ->
  received_msgs s' = received_msgs s ++ match a with
                                        | Read (Some m) => [m]
                                        | _ => []
                                        end.
Proof.
  intros H. unfold received_msgs. step_inv H; simpl;
    rewrite ?omap_app, ?app_nil_r; reflexivity.
Qed.

End Operation.

Section StartFrames.
Context {Variables Value Response : Type}.
Context {service : GraphQLService Variables Value Response}.
Context {json : JSON Variables Value Response}.
Variable msg : operationMessage.
Variable osp : startMessagePayload Variables.
Variable c : list Value.
Hypothesis start_type : Type_ msg = typeStart.
Hypothesis start_id : ID msg <> EmptyString.
Hypothesis start_payload : Unmarshal_start (Payload msg) = Ok osp.
Hypothesis start_subscribed :
  forall fresh, Subscribe fresh (Query osp) (OperationName osp) (Variables_ osp) = Ok c.

#[local] Abbreviation state := (state Variables Value).
#[local] Abbreviation expected := (stream_frames (ID msg) c).

Lemma all_step (a : action) (s s' : state) :
  all_inv msg c s -> step a s = Some s' -> all_inv msg c s'.
Proof.
  intros [Hsd Hsc Hc Hfr Hph] H. split.
  - eapply shutdown_step; eassumption.
  - eapply scopes_step; eassumption.
  - eapply cancelled_step; eassumption.
  - eapply frames_step; eassumption.
  - unfold phase_inv in *. rewrite (received_step _ _ _ H), frames_of_app.
    assert (Hcases : (exists m, a = Read (Some m) /\ ID m = ID msg)
                     \/ forall m, a = Read (Some m) -> ID m <> ID msg).
    { destruct a as [|[m|]| | | | | | | | | |]; try (right; discriminate).
      destruct (decide (ID m = ID msg)); [left; eauto|right; congruence]. }
    destruct Hcases as [(m & -> & Hm)|Hother].
    + rewrite frames_of_same by exact Hm.
      destruct (frames_of (ID msg) (received_msgs s)) as [|m0 [|m1 l]]; simpl; trivial.
      intros ->. assert (Hr : reader s = RLoop []).
      { simpl in H. destruct (reader s) as [[|]| |]; try discriminate. reflexivity. }
      simpl in H. rewrite Hr in H. injection H as <-.
      eexists _, _. eapply op_start; eauto.
    + assert (Hnil : frames_of (ID msg) match a with
                                        | Read (Some m) => [m]
                                        | _ => []
                                        end = []).
      { destruct a as [|[m|]| | | | | | | | | |]; try reflexivity.
        apply frames_of_other. apply Hother. reflexivity. }
      rewrite Hnil, app_nil_r.
      destruct (frames_of (ID msg) (received_msgs s)) as [|m0 [|m1 l]]; trivial.
      * eapply pre_step; eassumption.
      * intros Hm0. destruct (Hph Hm0) as (i & g & Hop).
        destruct (op_step _ _ _ _ _ _ _ start_id Hsd Hsc Hfr Hop H Hother) as [g' Hop'].
        eauto.
Qed.

Lemma all_initial (options : list conn_option) : all_inv msg c (Connect options : state).
Proof.
  pose proof (Connect_initial (Variables:=Variables) (Value:=Value) options) as Hi.
  split.
  - apply shutdown_initial, Hi.
  - apply scopes_initial, Hi.
  - intros scope. rewrite (init_cancelled _ Hi). intros Hin.
    apply elem_of_empty in Hin. destruct Hin.
  - apply frames_initial, Hi.
  - unfold phase_inv.
    assert (Hrec : received_msgs (Connect options : state) = []).
    { unfold received_msgs. destruct Hi as [_ _ _ _ _ _ _ _ _ Hlog].
      induction Hlog as [|e l [limit ->] _ IH]; [reflexivity|]. simpl. exact IH. }
    rewrite Hrec. simpl. split.
    + intros j g. rewrite (init_streamers _ Hi), lookup_nil. discriminate.
    + rewrite (init_reader _ Hi). intros q [= <-]. constructor.
    + unfold line, written. rewrite (init_writer _ Hi). simpl. rewrite app_nil_r.
      destruct Hi as [_ _ _ _ _ _ _ _ _ Hlog].
      induction Hlog as [|e l [limit ->] _ IH]; [reflexivity|]. simpl. exact IH.
Qed.

End StartFrames.

(** ** A stream running to completion *)

Section Drain.
Context {Variables Value Response : Type}.
Context {service : GraphQLService Variables Value Response}.
Context {json : JSON Variables Value Response}.

#[local] Abbreviation state := (state Variables Value).

Lemma deliver_send (i : nat) (g : streamer Value) (m : operationMessage) (s : state) :
  streamers s !! i = Some g -> s_pc g = SSend m ->
  writer s = WSelect -> ctxDone s = false ->
  exists s',
    run (deliver (Streamer i)) s = Some s'
    /\ streamers s' = <[i := mkStreamer (s_id g) (s_scope g) (s_chan g) SSelect]> (streamers s)
    /\ written s' = written s ++ [m]
    /\ writer s' = WSelect
    /\ ctxDone s' = false.
Proof.
  intros Hi Hpc Hw Hctx. unfold deliver. cbn [run].
  assert (H1 : step (Send (Streamer i) false) s
               = Some (set_pc i g SSelect (set_writer (WGot m) s))).
  { unfold step. rewrite Hi. simpl. rewrite Hpc. unfold send. rewrite Hw. reflexivity. }
  rewrite H1. simpl. rewrite Hctx. simpl.
  eexists. split; [reflexivity|]. simpl. split_and!; try reflexivity; try assumption.
  unfold written. simpl. rewrite !omap_app. simpl. rewrite app_nil_r. reflexivity.
Qed.

Lemma deliver_complete (i : nat) (g : streamer Value) (s : state) :
  streamers s !! i = Some g -> s_pc g = SComplete ->
  writer s = WSelect -> ctxDone s = false ->
  exists s',
    run (deliver (Streamer i)) s = Some s'
    /\ streamers s' = <[i := mkStreamer (s_id g) (s_scope g) (s_chan g) SDone]> (streamers s)
    /\ written s' = written s ++ [mkMsg (s_id g) None typeComplete]
    /\ writer s' = WSelect
    /\ ctxDone s' = false.
Proof.
  intros Hi Hpc Hw Hctx. unfold deliver. cbn [run].
  assert (H1 : step (Send (Streamer i) false) s
               = Some (cancel (s_scope g) (set_pc i g SDone
                         (set_writer (WGot (mkMsg (s_id g) None typeComplete)) s)))).
  { unfold step. rewrite Hi. simpl. rewrite Hpc. unfold send. rewrite Hw. reflexivity. }
  rewrite H1. simpl. rewrite Hctx. simpl.
  eexists. split; [reflexivity|]. simpl. split_and!; try reflexivity; try assumption.
  unfold written. simpl. rewrite !omap_app. simpl. rewrite app_nil_r. reflexivity.
Qed.

Lemma drain_run (i : nat) (c : list Value) :
  forall (s : state) (g : streamer Value),
    streamers s !! i = Some g -> s_pc g = SSelect -> s_chan g = c ->
    writer s = WSelect -> ctxDone s = false ->
    exists s' g',
      run (drain i (length c)) s = Some s'
      /\ streamers s' !! i = Some g' /\ s_pc g' = SDone
      /\ written s' = written s ++ stream_frames (s_id g) c
      /\ writer s' = WSelect
      /\ ctxDone s' = false.
Proof.
  induction c as [|v c IH]; intros s g Hi Hpc Hc Hw Hctx.
  - assert (Hlt : i < length (streamers s)) by (eapply lookup_lt_Some; eassumption).
    set (s1 := set_streamers (<[i := received g]> (streamers s)) s).
    assert (H1 : step (StreamRecv i) s = Some s1).
    { unfold step. rewrite Hi. simpl. rewrite Hpc. reflexivity. }
    assert (Hg1 : streamers s1 !! i = Some (received g)).
    { unfold s1. simpl. apply list_lookup_insert_eq. exact Hlt. }
    destruct (deliver_complete i (received g) s1 Hg1) as (s2 & H2 & Hs2 & Hwr & Hw2 & Hc2);
      try assumption.
    { unfold received. rewrite Hc. reflexivity. }
    exists s2. eexists. change (drain i (length [])) with (StreamRecv i :: deliver (Streamer i)).
    change (run (StreamRecv i :: deliver (Streamer i)) s)
      with (step (StreamRecv i) s ≫= run (deliver (Streamer i))).
    rewrite H1.
    split; [exact H2|]. split_and!; try eassumption.
    + rewrite Hs2. apply list_lookup_insert_eq. unfold s1. simpl.
      rewrite length_insert. exact Hlt.
    + reflexivity.
    + rewrite Hwr. unfold received. rewrite Hc. reflexivity.
  - assert (Hlt : i < length (streamers s)) by (eapply lookup_lt_Some; eassumption).
    set (s1 := set_streamers (<[i := received g]> (streamers s)) s).
    assert (H1 : step (StreamRecv i) s = Some s1).
    { unfold step. rewrite Hi. simpl. rewrite Hpc. reflexivity. }
    assert (Hg1 : streamers s1 !! i = Some (received g)).
    { unfold s1. simpl. apply list_lookup_insert_eq. exact Hlt. }
    destruct (deliver_send i (received g) (frame_of (s_id g) v) s1 Hg1)
      as (s2 & H2 & Hs2 & Hwr & Hw2 & Hc2); try assumption.
    { unfold received. rewrite Hc. reflexivity. }
    assert (Hg2 : streamers s2 !! i = Some (mkStreamer (s_id g) (s_scope g) c SSelect)).
    { rewrite Hs2. unfold received. rewrite Hc. simpl.
      apply list_lookup_insert_eq. unfold s1. simpl. rewrite length_insert. exact Hlt. }
    destruct (IH s2 _ Hg2) as (s3 & g3 & H3 & Hg3 & Hpc3 & Hwr3 & Hw3 & Hc3);
      try reflexivity; try assumption.
    exists s3, g3.
    change (drain i (length (v :: c)))
      with ((StreamRecv i :: deliver (Streamer i)) ++ drain i (length c)).
    rewrite run_app.
    change (run (StreamRecv i :: deliver (Streamer i)) s)
      with (step (StreamRecv i) s ≫= run (deliver (Streamer i))).
    rewrite H1.
    change (Some s1 ≫= run (deliver (Streamer i))) with (run (deliver (Streamer i)) s1).
    rewrite H2. split; [exact H3|].
    split_and!; try assumption.
    rewrite Hwr3, Hwr. simpl. unfold stream_frames. simpl.
    rewrite <- app_assoc. reflexivity.
Qed.

End Drain.

(** ** start *)

Section Start.
Context {Variables Value Response : Type}.
Context {service : GraphQLService Variables Value Response}.
Context {json : JSON Variables Value Response}.

#[local] Abbreviation state := (state Variables Value).

Lemma frame_of_not_complete (id : string) (v : Value) :
  Type_ (frame_of id v) <> typeComplete.
Proof. unfold frame_of. destruct (Marshal_payload v); discriminate. Qed.

Lemma frames_of_stream (id : string) (c : list Value) :
  frames_of id (stream_frames id c) = stream_frames id c.
Proof.
  unfold stream_frames, frames_of. rewrite filter_app. f_equal.
  - induction c as [|v c IH]; [reflexivity|]. simpl.
    rewrite filter_cons, decide_True by apply frame_of_ok. f_equal. exact IH.
  - rewrite filter_cons, decide_True by reflexivity. reflexivity.
Qed.

(** In a prefix of a stream's frames, a complete frame can only be last. *)
Lemma complete_last (id : string) (c : list Value) (l1 l2 k : list operationMessage)
    (m : operationMessage) :
  l1 ++ m :: l2 ++ k = stream_frames id c -> Type_ m = typeComplete -> l2 = [].
Proof.
  unfold stream_frames. revert l1. induction c as [|v c IH]; intros l1 H Hm; simpl in H.
  - destruct l1 as [|x l1]; simpl in H.
    + injection H as _ H. apply app_eq_nil in H as [? _]. assumption.
    + injection H as _ H. destruct l1; discriminate.
  - destruct l1 as [|x l1]; simpl in H.
    + injection H as -> _. exfalso. exact (frame_of_not_complete _ _ Hm).
    + injection H as _ H. eapply IH; eassumption.
Qed.

(** C1 (as the code has it). A start message with an id, a decodable payload
    and a successful Subscribe, whose id no other message read so far
    carries: the frames written under that id are a prefix of one frame per
    value of the stream, in order (data when the value encodes, error when it
    does not), followed by one complete; so a complete is never followed by
    another frame.  One goroutine runs under the id.  Once it has returned
    while the connection was not cancelled and the writer is idle again, all
    these frames have been written; while it waits at its select with the
    connection not cancelled and the writer idle, it and the writer, left to
    run, write all of them. *)
Theorem start_frames (options : list conn_option) (sched : list action) (s : state)
    (msg : operationMessage) (osp : startMessagePayload Variables) (c : list Value) :
  Type_ msg = typeStart ->
  ID msg <> EmptyString ->
  Unmarshal_start (Payload msg) = Ok osp ->
  (forall fresh, Subscribe fresh (Query osp) (OperationName osp) (Variables_ osp) = Ok c) ->
  run sched (Connect options) = Some s ->
  frames_of (ID msg) (received_msgs s) = [msg] ->
  let sent := frames_of (ID msg) (written s) in
  let expected := map (frame_of (ID msg)) c ++ [mkMsg (ID msg) None typeComplete] in
  sent `prefix_of` expected
  /\ (forall l1 m l2, sent = l1 ++ m :: l2 -> Type_ m = typeComplete -> l2 = [])
  /\ exists i g,
       streamers s !! i = Some g
       /\ s_id g = ID msg
       /\ (forall j g', streamers s !! j = Some g' -> s_id g' = ID msg -> j = i)
       /\ (s_pc g = SDone -> ctxDone s = false -> writer s = WSelect ->
           sent = expected)
       /\ (s_pc g = SSelect -> ctxDone s = false -> writer s = WSelect ->
           exists s',
             run (drain i (length (s_chan g))) s = Some s'
             /\ frames_of (ID msg) (written s') = expected).
Proof.
  intros Ht Hid Hosp Hsub Hrun Hrec. cbv zeta.
  change (map (frame_of (ID msg)) c ++ [mkMsg (ID msg) None typeComplete])
    with (stream_frames (ID msg) c).
  set (sent := frames_of (ID msg) (written s)).
  set (expected := stream_frames (ID msg) c).
  assert (Hall : all_inv msg c s).
  { eapply (run_invariant (all_inv msg c)); [|apply all_initial|exact Hrun].
    intros a s0 s1. apply (all_step msg osp c); assumption. }
  destruct Hall as [_ _ _ _ Hph]. unfold phase_inv in Hph. rewrite Hrec in Hph.
  destruct (Hph eq_refl) as (i & g & Hop).
  assert (Hpre : sent `prefix_of` expected).
  { etransitivity; [|exact (op_prefix _ _ _ _ _ Hop)]. apply prefix_app_r. reflexivity. }
  split; [exact Hpre|]. split.
  - intros l1 m l2 Hsent Hm. destruct Hpre as [k Hk]. rewrite Hsent in Hk.
    eapply (complete_last (ID msg) c l1 l2 k m); [|exact Hm].
    rewrite <- app_assoc in Hk. simpl in Hk. symmetry. exact Hk.
  - exists i, g. split_and!.
    + exact (op_streamer _ _ _ _ _ Hop).
    + exact (op_id _ _ _ _ _ Hop).
    + exact (op_unique _ _ _ _ _ Hop).
    + intros Hpc Hctx Hw.
      pose proof (op_finished _ _ _ _ _ Hop) as Hfin. rewrite Hw in Hfin.
      unfold expected. rewrite <- (Hfin eq_refl Hpc Hctx).
      unfold line. rewrite Hw. simpl. rewrite app_nil_r. reflexivity.
    + intros Hpc Hctx Hw.
      destruct (drain_run i (s_chan g) s g (op_streamer _ _ _ _ _ Hop) Hpc eq_refl Hw Hctx)
        as (s' & g' & Hrun' & _ & _ & Hwr & _ & _).
      exists s'. split; [exact Hrun'|].
      rewrite Hwr, frames_of_app, (op_id _ _ _ _ _ Hop), frames_of_stream.
      pose proof (op_running _ _ _ _ _ Hop) as Hr. rewrite Hw in Hr.
      unfold expected. rewrite <- (Hr eq_refl); [|congruence].
      unfold line, to_send. rewrite Hw, Hpc, (op_id _ _ _ _ _ Hop). simpl.
      rewrite app_nil_r. reflexivity.
Qed.

End Start.

(** * Closed instances *)

Example errPayload_missing_id :
  errPayload (mkError "missing ID for start operation")
  = Some ("{" +:+ quoted "message" +:+ ":"
          +:+ quoted "missing ID for start operation" +:+ "}").
Proof. reflexivity. Qed.

Example errPayload_escapes :
  errPayload (mkError (String quote (String "<" (String (ascii_of_nat 10) "x"))))
  = Some ("{" +:+ quoted "message" +:+ ":"
          +:+ quoted (String backslash (String quote
                (String backslash ("u003c" +:+ String backslash "nx")))) +:+ "}").
Proof. reflexivity. Qed.

Example stream_Q1 :
  written <$> demo_run (Read (Some (mkMsg "1" (Some "Q1") typeStart)) :: drain 0 2)
                (demo_Connect [])
  = Some [mkMsg "1" (Some "A") typeData; mkMsg "1" (Some "B") typeData;
          mkMsg "1" None typeComplete].
Proof. vm_compute. reflexivity. Qed.

Example ping_pong :
  written <$> demo_run (Read (Some (mkMsg EmptyString None typePing)) :: deliver Dispatcher)
                (demo_Connect [])
  = Some [mkMsg EmptyString (Some "{check_subscription}") typePong].
Proof. vm_compute. reflexivity. Qed.

(** C1, as stated, fails: operation 1 is started on a stream whose first
    value does not encode; it is never stopped and the connection is never
    torn down; the frames written under its id are an error, a data and a
    complete, which is neither of the two shapes. *)
Lemma start_frames_counterexample :
  (λ s, (received_msgs s, ctxDone s, s_pc <$> streamers s,
         frames_of "1" (written s), terminal_shape (frames_of "1" (written s))))
    <$> demo_run mixed_stream (demo_Connect [])
  = Some ([mkMsg "1" (Some "Q2") typeStart], false, [SDone],
          [mkMsg "1" (errPayload (mkError "json: unsupported value: NaN")) typeError;
           mkMsg "1" (Some "A") typeData;
           mkMsg "1" None typeComplete],
          false).
Proof. vm_compute. reflexivity. Qed.

(** C2, as stated, fails: on a read error the dispatcher closes and then the
    writer closes; the transport's Close has been called twice. *)
Lemma close_twice_counterexample :
  (λ s, (reader s, writer s, ctxDone s, closes s))
    <$> demo_run teardown (demo_Connect [])
  = Some (RDone, WDone, true, 2).
Proof. vm_compute. reflexivity. Qed.

(** C4, as stated, fails: the data frame of a value the goroutine had already
    received is written after the complete that answers the stop. *)
Lemma data_after_stop_counterexample :
  (λ s, (received_msgs s, written s, data_after_complete "1" (written s)))
    <$> demo_run stop_race (demo_Connect [])
  = Some ([mkMsg "1" (Some "Q1") typeStart; mkMsg "1" None typeStop],
          [mkMsg "1" None typeComplete; mkMsg "1" (Some "A") typeData],
          true).
Proof. vm_compute. reflexivity. Qed.

(** C10, as stated, fails: a start is refused by [Subscribe] with an error
    whose text is the lone byte FF; the error frame written for it carries
    the object whose "message" is the escape of U+FFFD, which reads back as
    the three bytes EF BF BD and not as the error's text. *)
Lemma error_payloads_counterexample :
  (written <$> run (service := raw_service) (json := demo_json)
                 (Read (Some (mkMsg "1" (Some "Q1") typeStart)) :: deliver Dispatcher)
                 (Connect []),
   json_unquote replacement,
   bool_decide (utf8_replacement = raw_text),
   valid_utf8 raw_text)
  = (Some [mkMsg "1"
             (Some ("{" +:+ quoted "message" +:+ ":" +:+ quoted replacement +:+ "}"))
             typeError],
     Some utf8_replacement, false, false).
Proof. vm_compute. reflexivity. Qed.

(** ** Instances of the theorems *)

Lemma start_frames_witness :
  frames_of "1" (received_msgs (demo_state mixed_stream))
  = [mkMsg "1" (Some "Q2") typeStart]
  /\ frames_of "1" (written (demo_state mixed_stream))
     `prefix_of` map (frame_of (json := demo_json) "1") [None; Some "A"]
                 ++ [mkMsg "1" None typeComplete].
Proof.
  split; [vm_compute; reflexivity|].
  apply (start_frames (service := demo_service) (json := demo_json)
           [] mixed_stream (demo_state mixed_stream)
           (mkMsg "1" (Some "Q2") typeStart) (mkStart EmptyString "Q2" tt)
           [None; Some "A"]).
  - reflexivity.
  - discriminate.
  - reflexivity.
  - intros fresh. reflexivity.
  - vm_compute. reflexivity.
  - vm_compute. reflexivity.
Defined.

Lemma close_per_goroutine_witness :
  demo_run teardown (demo_Connect []) = Some (demo_state teardown)
  /\ closes (demo_state teardown) <= 2.
Proof.
  split; [vm_compute; reflexivity|].
  apply (close_per_goroutine (service := demo_service) (json := demo_json)
           [] teardown (demo_state teardown)).
  vm_compute. reflexivity.
Defined.

Lemma single_writer_witness :
  demo_run stop_race (demo_Connect []) = Some (demo_state stop_race)
  /\ forall t c, (t, c) ∈ ws_log (demo_state stop_race) -> is_write c = true -> t = Writer.
Proof.
  split; [vm_compute; reflexivity|].
  apply (single_writer (service := demo_service) (json := demo_json)
           [] stop_race (demo_state stop_race)).
  vm_compute. reflexivity.
Defined.

Lemma stop_handled_witness :
  reader (demo_state started_once) = RLoop []
  /\ exists s',
       demo_step (Read (Some (mkMsg "1" None typeStop))) (demo_state started_once) = Some s'
       /\ reader s' = RLoop [mkMsg "1" None typeComplete].
Proof.
  split; [vm_compute; reflexivity|].
  destruct (stop_handled (service := demo_service) (json := demo_json)
              (demo_state started_once) (mkMsg "1" None typeStop))
    as (s' & Hstep & Hr & _).
  - vm_compute. reflexivity.
  - reflexivity.
  - exists s'. split; assumption.
Defined.

Lemma stop_twice_witness :
  o_sends (handle (service := demo_service) (json := demo_json)
             {["1" := 0]} 1 (mkMsg "1" None typeStop))
  = [mkMsg "1" None typeComplete].
Proof.
  apply (stop_twice (service := demo_service) (json := demo_json)
           {["1" := 0]} 1 1 (mkMsg "1" None typeStop)).
  reflexivity.
Defined.

Lemma start_missing_id_witness :
  exists s',
    demo_step (Read (Some (mkMsg EmptyString (Some "Q1") typeStart))) (demo_Connect [])
    = Some s'
    /\ streamers s' = [].
Proof.
  destruct (start_missing_id (service := demo_service) (json := demo_json)
              (demo_Connect []) (mkMsg EmptyString (Some "Q1") typeStart))
    as (s' & Hstep & _ & _ & Hs & _).
  - reflexivity.
  - reflexivity.
  - reflexivity.
  - exists s'. split; assumption.
Defined.

Lemma start_subscribe_error_witness :
  exists s',
    demo_step (Read (Some (mkMsg "7" (Some "Q9") typeStart))) (demo_Connect [])
    = Some s'
    /\ reader s'
       = RLoop [mkMsg "7" (errPayload (mkError "no such subscription")) typeError;
                mkMsg "7" None typeComplete].
Proof.
  destruct (start_subscribe_error (service := demo_service) (json := demo_json)
              (demo_Connect []) (mkMsg "7" (Some "Q9") typeStart)
              (mkStart EmptyString "Q9" tt) (mkError "no such subscription"))
    as (s' & Hstep & Hr & _).
  - reflexivity.
  - reflexivity.
  - discriminate.
  - reflexivity.
  - reflexivity.
  - exists s'. split; assumption.
Defined.

Lemma duplicate_start_witness :
  opDone (demo_state started_once) !! "1" = Some 0
  /\ exists s',
       demo_step (Read (Some (mkMsg "1" (Some "Q1") typeStart))) (demo_state started_once)
       = Some s'
       /\ opDone s' !! "1" = Some 1
       /\ cancelled s' = cancelled (demo_state started_once).
Proof.
  split; [vm_compute; reflexivity|].
  destruct (duplicate_start (service := demo_service) (json := demo_json)
              [] started_once (demo_state started_once)
              (mkMsg "1" (Some "Q1") typeStart) (mkStart EmptyString "Q1" tt)
              [Some "A"; Some "B"] 0)
    as (s' & Hstep & _ & Hl & _ & _ & Hc & _).
  - vm_compute. reflexivity.
  - vm_compute. reflexivity.
  - reflexivity.
  - discriminate.
  - reflexivity.
  - reflexivity.
  - vm_compute. reflexivity.
  - exists s'. split_and!; assumption.
Defined.

Lemma receive_handled_witness :
  handle (service := demo_service) (json := demo_json)
    ∅ 0 (mkMsg "5" (Some "42") typeReceive)
  = reply ∅ [CallExec "mutation {receive_socket_event(id:42)}" EmptyString None]
      [mkMsg EmptyString (Some "mutation {receive_socket_event(id:42)}") typePong].
Proof.
  apply (receive_handled (service := demo_service) (json := demo_json)
           ∅ 0 (mkMsg "5" (Some "42") typeReceive)).
  reflexivity.
Defined.

Lemma error_payloads_witness :
  demo_run mixed_stream (demo_Connect []) = Some (demo_state mixed_stream)
  /\ forall t m ok,
       (t, WriteJSON m ok) ∈ ws_log (demo_state mixed_stream) -> error_frame m ->
       exists err,
         raised (service := demo_service) (json := demo_json) err
         /\ Payload m = errPayload err.
Proof.
  split; [vm_compute; reflexivity|].
  apply (error_payloads (service := demo_service) (json := demo_json)
           [] mixed_stream (demo_state mixed_stream)).
  vm_compute. reflexivity.
Defined.

(** * Further properties *)

(** ** Replies of the dispatcher *)

Section Replies.
Context {Variables Value Response : Type}.
Context {service : GraphQLService Variables Value Response}.
Context {json : JSON Variables Value Response}.

#[local] Abbreviation state := (state Variables Value).

(** A handler with one reply, on a connection whose dispatcher and writer
    are idle and which is not cancelled: the reply is written and both are
    idle again. *)
Lemma exchange_run (s : state) (msg m : operationMessage) :
  reader s = RLoop [] -> writer s = WSelect -> ctxDone s = false ->
  o_sends (handle (opDone s) (scopes s) msg) = [m] ->
  o_return (handle (opDone s) (scopes s) msg) = false ->
  exists s',
    run (exchange msg) s = Some s'
    /\ written s' = written s ++ [m]
    /\ reader s' = RLoop []
    /\ writer s' = WSelect
    /\ ctxDone s' = false
    /\ closes s' = closes s
    /\ opDone s' = o_opDone (handle (opDone s) (scopes s) msg)
    /\ streamers s' = streamers s ++ option_list (o_go (handle (opDone s) (scopes s) msg))
    /\ service_log s' = service_log s ++ o_calls (handle (opDone s) (scopes s) msg).
Proof.
  intros Hr Hw Hctx Hsends Hret. unfold exchange, deliver. cbn [run].
  assert (H1 : step (Read (Some msg)) s
               = Some (dispatch (handle (opDone s) (scopes s) msg)
                         (ws Dispatcher (ReadJSON (Some msg)) s))).
  { unfold step. rewrite Hr. reflexivity. }
  rewrite H1. cbn [mbind option_bind].
  set (o := handle _ _ msg) in *.
  unfold step, send, dispatch. simpl. rewrite Hret, Hsends. simpl. rewrite Hw. simpl.
  rewrite Hctx. simpl.
  eexists. split; [reflexivity|]. simpl.
  split_and!; try reflexivity; try assumption.
  - unfold written. simpl. rewrite !omap_app. simpl. rewrite !app_nil_r. reflexivity.
  - unfold closes. simpl. rewrite !filter_app. simpl. rewrite !length_app. simpl. lia.
Qed.

Lemma handle_init (opDone : gmap string nat) (fresh : nat) (msg : operationMessage) :
  Type_ msg = typeConnectionInit ->
  handle opDone fresh msg =
  reply opDone []
    [match Unmarshal_init (Payload msg) with
     | Ok _ => mkMsg EmptyString None typeConnectionAck
     | Err _ =>
       mkMsg EmptyString
         (errPayload (mkError "invalid payload for type: connection_init"))
         typeConnectionError
     end].
Proof.
  intros Ht. unfold handle. rewrite Ht. simpl.
  destruct (Unmarshal_init (Payload msg)); reflexivity.
Qed.

Lemma handle_ping (opDone : gmap string nat) (fresh : nat) (msg : operationMessage) :
  Type_ msg = typePing ->
  handle opDone fresh msg =
  reply opDone [CallExec "{check_subscription}" EmptyString None]
    [match Marshal_response (Exec "{check_subscription}" EmptyString None) with
     | Ok responseJSON => mkMsg EmptyString (Some responseJSON) typePong
     | Err err => mkMsg (ID msg) (errPayload err) typeError
     end].
Proof.
  intros Ht. unfold handle. rewrite Ht. simpl.
  destruct (Marshal_response _); reflexivity.
Qed.

Lemma handle_unknown (opDone : gmap string nat) (fresh : nat) (msg : operationMessage) :
  Type_ msg ∉ handled_types ->
  handle opDone fresh msg =
  reply opDone []
    [mkMsg (ID msg)
       (errPayload (mkError ("unknown operation message of type: " +:+ Type_ msg)))
       typeError].
Proof.
  intros Ht. unfold handle.
  repeat match goal with
         | |- context [decide (Type_ msg = ?t)] =>
           rewrite (decide_False (P := Type_ msg = t));
             [|intros E; apply Ht; rewrite E; unfold handled_types; set_solver]
         end.
  reflexivity.
Qed.

Lemma handle_start_undecodable (opDone : gmap string nat) (fresh : nat)
    (msg : operationMessage) (err : error) :
  Type_ msg = typeStart -> ID msg <> EmptyString ->
  Unmarshal_start (Payload msg) = Err err ->
  handle opDone fresh msg =
  reply opDone []
    [mkMsg (ID msg) (errPayload (mkError "invalid payload for type: start"))
       typeConnectionError].
Proof.
  intros Ht Hid Herr. unfold handle. rewrite Ht. simpl.
  rewrite decide_False by exact Hid. rewrite Herr. reflexivity.
Qed.

(** X1. connection_init on an idle connection: exactly one frame is written
    in reply, without id: connection_ack without payload when the payload
    decodes, connection_error with the message "invalid payload for type:
    connection_init" when it does not.  The table, the goroutines and the
    service are not touched, nothing is closed, and the dispatcher reads
    on. *)
Theorem init_answered (s : state) (msg : operationMessage) :
  reader s = RLoop [] -> writer s = WSelect -> ctxDone s = false ->
  Type_ msg = typeConnectionInit ->
  exists s',
    run (exchange msg) s = Some s'
    /\ written s'
       = written s
         ++ [match Unmarshal_init (Payload msg) with
             | Ok _ => mkMsg EmptyString None typeConnectionAck
             | Err _ =>
               mkMsg EmptyString
                 (errPayload (mkError "invalid payload for type: connection_init"))
                 typeConnectionError
             end]
    /\ reader s' = RLoop []
    /\ opDone s' = opDone s
    /\ streamers s' = streamers s
    /\ service_log s' = service_log s
    /\ closes s' = closes s.
Proof.
  intros Hr Hw Hctx Ht.
  destruct (exchange_run s msg _ Hr Hw Hctx
              (f_equal o_sends (handle_init (opDone s) (scopes s) msg Ht))
              (f_equal o_return (handle_init (opDone s) (scopes s) msg Ht)))
    as (s' & Hrun & Hwr & Hr' & _ & _ & Hcl & Ho & Hs & Hl).
  rewrite (handle_init _ _ _ Ht) in Ho, Hs, Hl. simpl in Ho, Hs, Hl.
  rewrite app_nil_r in Hs, Hl.
  exists s'. split_and!; assumption.
Qed.

(** X2. ping on an idle connection: Exec is called once, with the fixed
    query [{check_subscription}], and exactly one frame is written: a pong
    without id (whatever id the ping had) carrying the encoded response, or
    an error under the ping's id when the response does not encode. *)
Theorem ping_answered (s : state) (msg : operationMessage) :
  reader s = RLoop [] -> writer s = WSelect -> ctxDone s = false ->
  Type_ msg = typePing ->
  exists s',
    run (exchange msg) s = Some s'
    /\ written s'
       = written s
         ++ [match Marshal_response (Exec "{check_subscription}" EmptyString None) with
             | Ok responseJSON => mkMsg EmptyString (Some responseJSON) typePong
             | Err err => mkMsg (ID msg) (errPayload err) typeError
             end]
    /\ service_log s'
       = service_log s ++ [CallExec "{check_subscription}" EmptyString None]
    /\ reader s' = RLoop []
    /\ opDone s' = opDone s
    /\ streamers s' = streamers s
    /\ closes s' = closes s.
Proof.
  intros Hr Hw Hctx Ht.
  destruct (exchange_run s msg _ Hr Hw Hctx
              (f_equal o_sends (handle_ping (opDone s) (scopes s) msg Ht))
              (f_equal o_return (handle_ping (opDone s) (scopes s) msg Ht)))
    as (s' & Hrun & Hwr & Hr' & _ & _ & Hcl & Ho & Hs & Hl).
  rewrite (handle_ping _ _ _ Ht) in Ho, Hs, Hl. simpl in Ho, Hs, Hl.
  rewrite app_nil_r in Hs.
  exists s'. split_and!; assumption.
Qed.

(** X3. A message of a type [readLoop] has no case for (among them the
    server's own types, data, complete, ka, connection_ack...) on an idle
    connection: exactly one frame is written, an error under the message's
    id naming the type; the connection is not closed and the dispatcher reads
    on. *)
Theorem unknown_type_answered (s : state) (msg : operationMessage) :
  reader s = RLoop [] -> writer s = WSelect -> ctxDone s = false ->
  Type_ msg ∉ handled_types ->
  exists s',
    run (exchange msg) s = Some s'
    /\ written s'
       = written s
         ++ [mkMsg (ID msg)
               (errPayload
                  (mkError ("unknown operation message of type: " +:+ Type_ msg)))
               typeError]
    /\ reader s' = RLoop []
    /\ ctxDone s' = false
    /\ closes s' = closes s
    /\ opDone s' = opDone s
    /\ streamers s' = streamers s
    /\ service_log s' = service_log s.
Proof.
  intros Hr Hw Hctx Ht.
  destruct (exchange_run s msg _ Hr Hw Hctx
              (f_equal o_sends (handle_unknown (opDone s) (scopes s) msg Ht))
              (f_equal o_return (handle_unknown (opDone s) (scopes s) msg Ht)))
    as (s' & Hrun & Hwr & Hr' & _ & Hctx' & Hcl & Ho & Hs & Hl).
  rewrite (handle_unknown _ _ _ Ht) in Ho, Hs, Hl. simpl in Ho, Hs, Hl.
  rewrite app_nil_r in Hs, Hl.
  exists s'. split_and!; assumption.
Qed.

(** X4. A start message with an id whose payload does not decode, on an idle
    connection: exactly one frame is written, a connection_error under the
    message's id with the message "invalid payload for type: start" (the
    decoder's own error is dropped); no scope is created, Subscribe is not
    called, nothing is registered or started. *)
Theorem start_undecodable_answered (s : state) (msg : operationMessage) (err : error) :
  reader s = RLoop [] -> writer s = WSelect -> ctxDone s = false ->
  Type_ msg = typeStart -> ID msg <> EmptyString ->
  Unmarshal_start (Payload msg) = Err err ->
  exists s',
    run (exchange msg) s = Some s'
    /\ written s'
       = written s
         ++ [mkMsg (ID msg) (errPayload (mkError "invalid payload for type: start"))
               typeConnectionError]
    /\ reader s' = RLoop []
    /\ opDone s' = opDone s
    /\ streamers s' = streamers s
    /\ service_log s' = service_log s
    /\ closes s' = closes s.
Proof.
  intros Hr Hw Hctx Ht Hid Herr.
  pose proof (handle_start_undecodable (opDone s) (scopes s) msg err Ht Hid Herr) as Hh.
  destruct (exchange_run s msg _ Hr Hw Hctx (f_equal o_sends Hh) (f_equal o_return Hh))
    as (s' & Hrun & Hwr & Hr' & _ & _ & Hcl & Ho & Hs & Hl).
  rewrite Hh in Ho, Hs, Hl. simpl in Ho, Hs, Hl.
  rewrite app_nil_r in Hs, Hl.
  exists s'. split_and!; assumption.
Qed.

(** X5. A start that Subscribe accepts followed by a stop for the same id:
    the start registers the new scope under the id, starts the goroutine and
    sends nothing; the stop cancels exactly that scope, answers with one
    complete, and leaves the table as it was before the start, without the
    id; the same table, when the id was not tracked before. *)
Theorem start_then_stop (opDone : gmap string nat) (fresh fresh' : nat)
    (msg stop : operationMessage) (osp : startMessagePayload Variables)
    (c : list Value) :
  Type_ msg = typeStart -> ID msg <> EmptyString ->
  Unmarshal_start (Payload msg) = Ok osp ->
  Subscribe fresh (Query osp) (OperationName osp) (Variables_ osp) = Ok c ->
  Type_ stop = typeStop -> ID stop = ID msg ->
  let started := handle opDone fresh msg in
  let stopped := handle (o_opDone started) fresh' stop in
  o_opDone started !! ID msg = Some fresh
  /\ o_go started = Some (mkStreamer (ID msg) fresh c SSelect)
  /\ o_sends started = []
  /\ o_cancel started = []
  /\ o_cancel stopped = [fresh]
  /\ o_sends stopped = [mkMsg (ID msg) None typeComplete]
  /\ o_opDone stopped = delete (ID msg) opDone
  /\ (opDone !! ID msg = None -> o_opDone stopped = opDone).
Proof.
  intros Ht Hid Hosp Hsub Hts Hids. cbv zeta.
  rewrite (handle_start _ _ _ osp Ht Hid Hosp). cbv zeta. rewrite Hsub. simpl.
  rewrite (handle_stop _ _ _ Hts), Hids, lookup_insert_eq. simpl.
  split_and!; try reflexivity.
  - apply delete_insert_eq.
  - intros Hnone. rewrite delete_insert_eq. apply delete_id. exact Hnone.
Qed.

(** X6. The tracking table changes only when the dispatcher handles a start
    that Subscribe accepts (the id then maps to the new scope) or a stop (the
    id is removed): no other message, and no step of the writer or of a
    streaming goroutine (not even one that finishes its stream) touches
    it. *)
Theorem table_changes (a : action) (s s' : state) :
  step a s = Some s' ->
  opDone s' <> opDone s ->
  exists msg,
    a = Read (Some msg)
    /\ (Type_ msg = typeStart /\ ID msg <> EmptyString
        /\ opDone s' = <[ID msg := scopes s]> (opDone s)
        \/ Type_ msg = typeStop /\ opDone s' = delete (ID msg) (opDone s)).
Proof.
  intros H Hne. step_inv H; try (contradiction Hne; reflexivity).
  exists o. split; [reflexivity|].
  destruct (handle_cases (opDone s) (scopes s) o); simpl in *;
    try (contradiction Hne; reflexivity); auto.
Qed.

(** X7. [readLoop] leaves its loop only on a read error or on a
    connection_terminate message, whatever else a client sends; at that
    point nothing has been written, cancelled or closed yet, and the table is
    as it was. *)
Theorem loop_exit (a : action) (s s' : state) :
  step a s = Some s' ->
  in_loop (reader s) = true ->
  in_loop (reader s') = false ->
  (a = Read None
   \/ exists msg, a = Read (Some msg) /\ Type_ msg = typeConnectionTerminate)
  /\ reader s' = RDefer
  /\ written s' = written s
  /\ opDone s' = opDone s
  /\ cancelled s' = cancelled s
  /\ ctxDone s' = ctxDone s
  /\ closes s' = closes s.
Proof.
  intros H Hin Hout. step_inv H; simpl in *; try congruence.
  - unfold handle in *.
    repeat match goal with
           | H : context [decide ?P] |- _ => destruct (decide P)
           | |- context [decide ?P] => destruct (decide P)
           | H : context [match ?x with Ok _ => _ | Err _ => _ end] |- _ => destruct x
           | H : context [match ?x with Some _ => _ | None => _ end] |- _ =>
             destruct x eqn:?
           end; simpl in *; try discriminate.
    split_and!;
      first [reflexivity
            |unfold written; simpl; rewrite omap_app; simpl; apply app_nil_r
            |apply (left_id_L ∅ (∪))
            |solve [closes_tac]
            |eauto].
  - split_and!;
      first [reflexivity
            |unfold written; simpl; rewrite omap_app; simpl; apply app_nil_r
            |solve [closes_tac]
            |eauto].
Qed.

(** X8. Every message is answered by at most two frames, each under the
    message's id or without id; only connection_terminate and a start that
    Subscribe accepts are answered by none. *)
Theorem replies_bounded (opDone : gmap string nat) (fresh : nat) (msg : operationMessage) :
  length (o_sends (handle opDone fresh msg)) <= 2
  /\ Forall (λ m, ID m = ID msg \/ ID m = EmptyString) (o_sends (handle opDone fresh msg))
  /\ (o_sends (handle opDone fresh msg) = [] ->
      Type_ msg = typeConnectionTerminate
      \/ Type_ msg = typeStart /\ is_Some (o_go (handle opDone fresh msg))).
Proof.
  split_and!.
  - unfold handle, reply.
    repeat match goal with
           | |- context [decide ?P] => destruct (decide P)
           | |- context [match ?x with Ok _ => _ | Err _ => _ end] => destruct x
           | |- context [match ?x with Some _ => _ | None => _ end] => destruct x eqn:?
           end; simpl; lia.
  - eapply Forall_impl; [apply handle_sends|]. intros m [Hm _]. exact Hm.
  - unfold handle, reply.
    repeat match goal with
           | |- context [decide ?P] => destruct (decide P)
           | |- context [match ?x with Ok _ => _ | Err _ => _ end] => destruct x
           | |- context [match ?x with Some _ => _ | None => _ end] => destruct x eqn:?
           end; simpl; try discriminate; eauto.
Qed.

End Replies.

(** ** Options, deadlines and the writer goroutine *)

Section Writer.
Context {Variables Value Response : Type}.
Context {service : GraphQLService Variables Value Response}.
Context {json : JSON Variables Value Response}.

#[local] Abbreviation state := (state Variables Value).

Lemma apply_options (options : list conn_option) (s : state) :
  let s' := foldl apply_option s options in
  writeTimeout s' = default (writeTimeout s) (last (timeouts options))
  /\ ws_log s' = ws_log s ++ map (λ l, (Dispatcher, SetReadLimit l)) (limits options).
Proof.
  revert s. induction options as [|o options IH]; intros s; simpl.
  - rewrite app_nil_r. split; reflexivity.
  - destruct (IH (apply_option s o)) as [Ht Hl]. rewrite Ht, Hl.
    destruct o as [limit|d]; simpl.
    + rewrite <- app_assoc. split; reflexivity.
    + split; [|reflexivity]. unfold timeouts. simpl.
      fold (timeouts options). rewrite last_cons.
      destruct (last (timeouts options)); reflexivity.
Qed.

Lemma Connect_applied (options : list conn_option) :
  writeTimeout (Connect options : state) = default Second (last (timeouts options))
  /\ ws_log (Connect options : state)
     = map (λ l, (Dispatcher, SetReadLimit l)) (4096%Z :: limits options).
Proof.
  unfold Connect.
  destruct (apply_options (defaultOpts ++ options)
              (mkState 0 false false ∅ 0 ∅ (RLoop []) WSelect [] [] []))
    as [Ht Hl].
  split.
  - rewrite Ht. unfold timeouts. rewrite omap_app. simpl.
    fold (timeouts options). rewrite last_cons.
    destruct (last (timeouts options)); reflexivity.
  - rewrite Hl. unfold limits. rewrite omap_app. reflexivity.
Qed.

(** X9. The options of Connect: the defaults are applied first and the
    caller's options after them, in order.  The write timeout in force is
    that of the last WriteTimeout option, one second when there is none; the
    transport's read limit is set to 4096 and then to the limit of each
    ReadLimit option in turn, all before anything is read or written. *)
Theorem Connect_options (options : list conn_option) :
  writeTimeout (Connect options : state) = default Second (last (timeouts options))
  /\ ws_log (Connect options : state)
     = map (λ l, (Dispatcher, SetReadLimit l)) (4096%Z :: limits options)
  /\ reader (Connect options : state) = RLoop []
  /\ writer (Connect options : state) = WSelect.
Proof.
  destruct (Connect_applied options) as [Ht Hl].
  split_and!.
  - exact Ht.
  - exact Hl.
  - apply (init_reader _ (Connect_initial options)).
  - apply (init_writer _ (Connect_initial options)).
Qed.

Lemma calls_of_app (t : thread) (l1 l2 : list (thread * ws_call)) :
  calls_of t (l1 ++ l2) = calls_of t l1 ++ calls_of t l2.
Proof. apply omap_app. Qed.

Lemma writer_accepts_snoc (d : Z) (l : list ws_call) (c : ws_call) :
  writer_accepts d (l ++ [c]) = writer_accepts d l ≫= λ u, writer_allows d u c.
Proof. unfold writer_accepts. rewrite foldl_app. reflexivity. Qed.

Lemma writer_use_step (d : Z) (a : action) (s s' : state) :
  step a s = Some s' ->
  writeTimeout s = d ->
  (exists u, writer_accepts d (calls_of Writer (ws_log s)) = Some u
             /\ writer_at u (writer s)) ->
  writeTimeout s' = d
  /\ exists u, writer_accepts d (calls_of Writer (ws_log s')) = Some u
               /\ writer_at u (writer s').
Proof.
  intros H Hd (u & Hu & Hat). step_inv H; simpl in *.
  all: split; [reflexivity|].
  all: rewrite ?calls_of_app; simpl; rewrite ?app_nil_r, ?writer_accepts_snoc;
    try rewrite Hu; simpl; rewrite ?decide_True by reflexivity.
  all: repeat match goal with
              | H : _ \/ _ |- _ => destruct H; subst
              | |- context [if ?b then _ else _] => destruct b
              end; simpl in *.
  all: eexists; (split; [first [eassumption|reflexivity]|simpl; auto]).
Qed.

(** X10. The writer goroutine's calls on the transport, in every state a
    connection reaches: each WriteJSON comes right after a SetWriteDeadline
    that succeeded, every deadline is set with the configured write timeout,
    a call that fails is followed by nothing but Close, and nothing follows
    Close. *)
Theorem writer_discipline (options : list conn_option) (sched : list action)
    (s : state) :
  run sched (Connect options) = Some s ->
  writeTimeout s = default Second (last (timeouts options))
  /\ exists u,
       writer_accepts (default Second (last (timeouts options)))
         (calls_of Writer (ws_log s)) = Some u
       /\ writer_at u (writer s).
Proof.
  intros Hrun.
  destruct (Connect_applied options) as (Ht & Hl).
  assert (Hw : writer (Connect options : state) = WSelect)
    by apply (init_writer _ (Connect_initial options)).
  eapply (run_invariant
            (λ s, writeTimeout s = default Second (last (timeouts options))
                  /\ exists u,
                       writer_accepts (default Second (last (timeouts options)))
                         (calls_of Writer (ws_log s)) = Some u
                       /\ writer_at u (writer s)));
    [|split; [exact Ht|]|exact Hrun].
  - intros a s0 s1 [Hd Hu] Hstep. eapply writer_use_step; eassumption.
  - exists Ready. rewrite Hl, Hw. split; [|reflexivity].
    assert (Hnone : forall ls, calls_of Writer
                      (map (λ l, (Dispatcher, SetReadLimit l)) ls) = []).
    { induction ls as [|l ls IH]; [reflexivity|exact IH]. }
    rewrite Hnone. reflexivity.
Qed.

(** X11. Once the root scope is cancelled, the writer writes at most the one
    frame it had already set out to write (it was at or past the deadline
    call); every frame handed to it after that is dropped at the inner
    select. *)
Theorem cancelled_writes (sched : list action) (s s' : state) :
  ctxDone s = true ->
  run sched s = Some s' ->
  ctxDone s' = true
  /\ length (written s') + armed (writer s') <= length (written s) + armed (writer s).
Proof.
  intros Hctx Hrun.
  eapply (run_invariant
            (λ s0, ctxDone s0 = true
                   /\ length (written s0) + armed (writer s0)
                      <= length (written s) + armed (writer s)));
    [|split; [exact Hctx|reflexivity]|exact Hrun].
  intros a s0 s1 [Hc Hle] H. unfold written in *. step_inv H; simpl in *;
    rewrite ?omap_app, ?length_app in *; simpl in *;
    repeat match goal with
           | E : writer _ = _ |- _ => rewrite E in *; clear E
           | E : ctxDone _ = _ |- _ => rewrite E in *; clear E
           | |- context [if ?b then _ else _] => destruct b
           end; simpl in *;
    split; try reflexivity; try discriminate; try lia.
Qed.

(** X12. Once the writer goroutine has returned (on cancellation, or after a
    deadline or a write failed), nothing is written any more, whatever the
    other goroutines do. *)
Theorem returned_writer_silent (sched : list action) (s s' : state) :
  live (writer s) = false ->
  run sched s = Some s' ->
  live (writer s') = false /\ written s' = written s.
Proof.
  intros Hlive Hrun.
  eapply (run_invariant (λ s0, live (writer s0) = false /\ written s0 = written s));
    [|split; [exact Hlive|reflexivity]|exact Hrun].
  intros a s0 s1 [Hl Hw] H. rewrite <- Hw. unfold written. step_inv H; simpl in *;
    rewrite ?omap_app; simpl; rewrite ?app_nil_r;
    repeat match goal with
           | E : writer _ = _ |- _ => rewrite E in *; clear E
           end; simpl in *;
    split; try reflexivity; try discriminate; try assumption.
Qed.

End Writer.

(** ** Teardown runs to the end *)

Section Teardown.
Context {Variables Value Response : Type}.
Context {service : GraphQLService Variables Value Response}.
Context {json : JSON Variables Value Response}.

#[local] Abbreviation state := (state Variables Value).

(** [stop] is closed as soon as the writer goroutine is finished. *)
Lemma stop_closed_step (a : action) (s s' : state) :
  (writer s = WDone -> stopClosed s = true) ->
  step a s = Some s' ->
  writer s' = WDone -> stopClosed s' = true.
Proof.
  intros Hinv H. step_inv H; simpl in *; auto; try discriminate.
  all: try (destruct (ctxDone _); discriminate).
  all: try (destruct ok; discriminate).
Qed.

Lemma stop_closed_reachable (options : list conn_option) (sched : list action)
    (s : state) :
  run sched (Connect options) = Some s -> writer s = WDone -> stopClosed s = true.
Proof.
  apply (run_invariant (λ s, writer s = WDone -> stopClosed s = true)).
  - intros a s0 s1. apply stop_closed_step.
  - rewrite (init_writer _ (Connect_initial options)). discriminate.
Qed.

Lemma finish_writer_run (ok : bool) (s : state) :
  ctxDone s = true ->
  (writer s = WDone -> stopClosed s = true) ->
  exists s',
    run (finish_writer ok (writer s)) s = Some s'
    /\ writer s' = WDone /\ stopClosed s' = true /\ ctxDone s' = true
    /\ reader s' = reader s /\ streamers s' = streamers s /\ opDone s' = opDone s.
Proof.
  intros Hctx Hstop. destruct (writer s) eqn:Hw; simpl.
  all: try destruct ok; unfold step; repeat (simpl; rewrite ?Hw, ?Hctx).
  all: eexists; (split; [reflexivity|]); simpl; split_and!; auto.
Qed.

Lemma drop_sends (q : list operationMessage) :
  forall s : state,
    reader s = RLoop q -> stopClosed s = true ->
    exists s',
      run (replicate (length q) (Send Dispatcher true)) s = Some s'
      /\ reader s' = RLoop []
      /\ writer s' = writer s /\ stopClosed s' = true /\ ctxDone s' = ctxDone s
      /\ streamers s' = streamers s /\ opDone s' = opDone s.
Proof.
  induction q as [|m q IH]; intros s Hr Hstop; simpl.
  - exists s. split_and!; auto.
  - unfold step, send. rewrite Hr, Hstop. simpl.
    destruct (IH (set_reader (RLoop q) s)) as (s' & Hrun & H); [reflexivity|exact Hstop|].
    exists s'. split; [exact Hrun|exact H].
Qed.

Lemma finish_reader_run (s : state) :
  stopClosed s = true -> ctxDone s = true ->
  exists s',
    run (finish_reader (reader s)) s = Some s'
    /\ reader s' = RDone
    /\ writer s' = writer s /\ stopClosed s' = true /\ ctxDone s' = true
    /\ streamers s' = streamers s /\ opDone s' = opDone s.
Proof.
  intros Hstop Hctx. destruct (reader s) as [q| |] eqn:Hr; simpl.
  - destruct (drop_sends q s Hr Hstop) as (s1 & Hrun & Hr1 & Hw1 & Hs1 & Hc1 & Hg1 & Ho1).
    rewrite run_app, Hrun. simpl. unfold step. rewrite Hr1. simpl.
    eexists. split; [reflexivity|]. simpl. split_and!; auto.
  - unfold step. rewrite Hr. simpl. eexists. split; [reflexivity|]. simpl.
    split_and!; auto.
  - exists s. split_and!; auto.
Qed.

Lemma finish_streamer_run (i : nat) (g : streamer Value) (s : state) :
  streamers s !! i = Some g -> stopClosed s = true -> ctxDone s = true ->
  exists s' g',
    run (finish_streamer i (s_pc g)) s = Some s'
    /\ streamers s' = <[i := g']> (streamers s) /\ s_pc g' = SDone
    /\ reader s' = reader s /\ writer s' = writer s
    /\ stopClosed s' = true /\ ctxDone s' = true /\ opDone s' = opDone s.
Proof.
  intros Hi Hstop Hctx.
  assert (Hlt : i < length (streamers s)) by (eapply lookup_lt_Some; eassumption).
  destruct (s_pc g) eqn:Hpc; cbn [finish_streamer run].
  - unfold step. rewrite Hi. simpl. rewrite Hpc. unfold scope_done. rewrite Hctx. simpl.
    eexists _, _. split; [reflexivity|]. simpl. split_and!; auto.
  - assert (H1 : step (Send (Streamer i) true) s = Some (set_pc i g SSelect s)).
    { unfold step. rewrite Hi. simpl. rewrite Hpc. unfold send. rewrite Hstop.
      reflexivity. }
    rewrite H1. simpl. unfold step. simpl.
    rewrite list_lookup_insert_eq by exact Hlt. simpl.
    unfold scope_done. simpl. rewrite Hctx. simpl.
    eexists _, _. split; [reflexivity|]. simpl.
    rewrite list_insert_insert_eq. split_and!; auto.
  - unfold step. rewrite Hi. simpl. rewrite Hpc. unfold send. rewrite Hstop. simpl.
    eexists _, _. split; [reflexivity|]. simpl. split_and!; auto.
  - exists s, g. split_and!; auto. symmetry. apply list_insert_id. exact Hi.
Qed.

Lemma finish_streamers_run (gs : list (streamer Value)) :
  forall (k : nat) (s : state),
    (forall i g, gs !! i = Some g -> streamers s !! (k + i) = Some g) ->
    stopClosed s = true -> ctxDone s = true ->
    exists s',
      run (finish_streamers k gs) s = Some s'
      /\ length (streamers s') = length (streamers s)
      /\ (forall j, j < k -> streamers s' !! j = streamers s !! j)
      /\ (forall i, i < length gs ->
            exists g', streamers s' !! (k + i) = Some g' /\ s_pc g' = SDone)
      /\ reader s' = reader s /\ writer s' = writer s
      /\ stopClosed s' = true /\ ctxDone s' = true /\ opDone s' = opDone s.
Proof.
  induction gs as [|g gs IH]; intros k s Hgs Hstop Hctx; simpl.
  - exists s. split_and!; auto. intros i Hi. lia.
  - assert (Hk : streamers s !! k = Some g).
    { specialize (Hgs 0 g eq_refl). rewrite Nat.add_0_r in Hgs. exact Hgs. }
    assert (Hlt : k < length (streamers s)) by (eapply lookup_lt_Some; eassumption).
    destruct (finish_streamer_run k g s Hk Hstop Hctx)
      as (s1 & g1 & Hrun1 & Hs1 & Hpc1 & Hr1 & Hw1 & Hst1 & Hc1 & Ho1).
    destruct (IH (S k) s1) as (s2 & Hrun2 & Hlen2 & Hlow2 & Hdone2 & Hr2 & Hw2 & Hst2 & Hc2 & Ho2);
      try assumption.
    { intros i g0 Hi. rewrite Hs1, list_lookup_insert_ne by lia.
      specialize (Hgs (S i) g0 Hi). rewrite <- Hgs. f_equal. lia. }
    exists s2. rewrite run_app, Hrun1. simpl. split; [exact Hrun2|].
    split_and!; try congruence.
    + rewrite Hlen2, Hs1. apply length_insert.
    + intros j Hj. rewrite Hlow2 by lia. rewrite Hs1. apply list_lookup_insert_ne. lia.
    + intros [|i] Hi.
      * exists g1. rewrite Nat.add_0_r, Hlow2 by lia. rewrite Hs1.
        split; [apply list_lookup_insert_eq; exact Hlt|exact Hpc1].
      * destruct (Hdone2 i) as (g' & Hg' & Hpc'); [lia|].
        exists g'. split; [|exact Hpc']. rewrite <- Hg'. f_equal. lia.
Qed.

(** X13. Teardown can always run to the end.  From any state a connection
    reaches, once the root scope is cancelled (and whatever the transport
    answers to the writer's calls still under way), the writer returns and
    closes stop, every pending send of the dispatcher returns, its next read
    fails and it returns, and every streaming goroutine returns: no goroutine
    is left blocked in a send or at a select.  Close has then been called
    twice and the table is as it was. *)
Theorem teardown_completes (options : list conn_option) (sched : list action)
    (s : state) (ok : bool) :
  run sched (Connect options) = Some s ->
  exists s',
    run (shutdown ok s) s = Some s'
    /\ reader s' = RDone
    /\ writer s' = WDone
    /\ stopClosed s' = true
    /\ Forall (λ g, s_pc g = SDone) (streamers s')
    /\ length (streamers s') = length (streamers s)
    /\ opDone s' = opDone s
    /\ closes s' = 2.
Proof.
  intros Hrun. unfold shutdown.
  pose proof (stop_closed_reachable _ _ _ Hrun) as Hstop.
  set (s0 := set_ctxDone s).
  destruct (finish_writer_run ok s0 eq_refl Hstop)
    as (s1 & Hrun1 & Hw1 & Hst1 & Hc1 & Hr1 & Hg1 & Ho1).
  destruct (finish_reader_run s1 Hst1 Hc1)
    as (s2 & Hrun2 & Hr2 & Hw2 & Hst2 & Hc2 & Hg2 & Ho2).
  destruct (finish_streamers_run (streamers s) 0 s2)
    as (s3 & Hrun3 & Hlen3 & _ & Hdone3 & Hr3 & Hw3 & Hst3 & Hc3 & Ho3);
    try assumption.
  { intros i g Hi. simpl. rewrite Hg2, Hg1. exact Hi. }
  assert (Hall : run (Cancel :: finish_writer ok (writer s) ++ finish_reader (reader s)
                        ++ finish_streamers 0 (streamers s)) s = Some s3).
  { change (run (Cancel :: ?l) s) with (run l s0).
    change (writer s) with (writer s0). rewrite run_app, Hrun1. simpl.
    change (reader s) with (reader s0). rewrite <- Hr1, run_app, Hrun2. simpl.
    exact Hrun3. }
  exists s3. split; [exact Hall|]. split_and!; try congruence.
  - apply Forall_lookup. intros i g Hi.
    assert (Hlt : i < length (streamers s)).
    { change (streamers s) with (streamers s0).
      rewrite <- Hg1, <- Hg2, <- Hlen3. eapply lookup_lt_Some. exact Hi. }
    destruct (Hdone3 i Hlt) as (g' & Hg' & Hpc'). simpl in Hg'. congruence.
  - rewrite Hlen3, Hg2, Hg1. reflexivity.
  - rewrite Ho3, Ho2, Ho1. reflexivity.
  - assert (Hreach : run (sched ++ Cancel :: finish_writer ok (writer s)
                            ++ finish_reader (reader s)
                            ++ finish_streamers 0 (streamers s))
                       (Connect options) = Some s3).
    { rewrite run_app, Hrun. exact Hall. }
    destruct (shutdown_reachable _ _ _ Hreach) as [Hcl _ _ _].
    rewrite Hcl, Hr3, Hr2, Hw3, Hw2, Hw1. reflexivity.
Qed.

(** X14. A stop is local to one operation: on a connection as it can be
    reached, the handle found under the id cancels the scope of exactly one
    goroutine, one started under that id; the scope of every other goroutine
    (also of an earlier one under the same id) is as done as before, and the
    root scope is not touched. *)
Theorem stop_local (options : list conn_option) (sched : list action) (s : state)
    (msg : operationMessage) (onDone : nat) :
  run sched (Connect options) = Some s ->
  reader s = RLoop [] ->
  Type_ msg = typeStop ->
  opDone s !! ID msg = Some onDone ->
  exists s' i g,
    step (Read (Some msg)) s = Some s'
    /\ streamers s !! i = Some g /\ s_scope g = onDone /\ s_id g = ID msg
    /\ scope_done onDone s' = true
    /\ ctxDone s' = ctxDone s
    /\ streamers s' = streamers s
    /\ forall j g', streamers s !! j = Some g' -> j <> i ->
         scope_done (s_scope g') s' = scope_done (s_scope g') s.
Proof.
  intros Hrun Hr Ht Hl.
  destruct (scopes_reachable _ _ _ Hrun) as [Htab _ Hdist].
  destruct (Htab _ _ Hl) as (i & g & Hi & Hsc & Hid).
  unfold step. rewrite Hr. cbv beta iota zeta.
  rewrite (handle_stop _ _ _ Ht).
  change (opDone (ws Dispatcher (ReadJSON (Some msg)) s)) with (opDone s). rewrite Hl.
  eexists _, i, g. split; [reflexivity|]. unfold scope_done. simpl.
  rewrite app_nil_r. split_and!; try assumption; try reflexivity.
  - rewrite bool_decide_eq_true_2 by set_solver. apply orb_true_r.
  - intros j g' Hj Hne. f_equal. apply bool_decide_ext.
    assert (Hneq : s_scope g' <> onDone).
    { intros Heq. apply Hne. eapply Hdist; [exact Hj|exact Hi|congruence]. }
    split; intros Hin.
    + apply elem_of_union in Hin as [Hin|Hin]; [|exact Hin].
      apply elem_of_union in Hin as [Hin|Hin].
      * apply elem_of_singleton in Hin. contradiction.
      * apply elem_of_empty in Hin. destruct Hin.
    + apply elem_of_union_r. exact Hin.
Qed.

End Teardown.

(** ** The HTTP handler *)

Lemma upgrade_request_head (r : request) :
  exists calls, upgrade_request r = CheckAuth :: calls /\ (ServeHTTP ∉ calls)
                /\ CheckAuth ∉ calls.
Proof.
  unfold upgrade_request. eexists. split; [reflexivity|].
  destruct (authorized r); simpl; [|split; apply not_elem_of_nil].
  destruct (upgraded r) as [p|]; [destruct (decide (p ≠ protocolGraphQLWS))|];
    split; intros H; repeat (apply elem_of_cons in H as [H|H]; [discriminate|]);
    apply elem_of_nil in H; exact H.
Qed.

Lemma range_requested (r : request) (subprotocols : list string) :
  "graphql-ws" ∈ subprotocols -> range_subprotocols r subprotocols = upgrade_request r.
Proof.
  induction subprotocols as [|p ps IH]; intros H; [apply elem_of_nil in H; contradiction|].
  simpl. destruct (decide (p = "graphql-ws")) as [|Hne]; [reflexivity|].
  apply IH. apply elem_of_cons in H as [H|H]; [congruence|exact H].
Qed.

Lemma range_not_requested (r : request) (subprotocols : list string) :
  "graphql-ws" ∉ subprotocols -> range_subprotocols r subprotocols = [ServeHTTP].
Proof.
  induction subprotocols as [|p ps IH]; intros H; [reflexivity|].
  simpl. apply not_elem_of_cons in H as [Hne H].
  destruct (decide (p = "graphql-ws")) as [->|_]; [contradiction|]. apply IH, H.
Qed.

(** X18. NewHandlerFunc: the handler starts a connection exactly when the
    request offers the subprotocol graphql-ws (anywhere in its list), the
    authorization check accepts it and the upgrade yields a socket that
    negotiated graphql-ws; when it does, it has checked the authorization
    first, once, and hands nothing to the fallback HTTP handler. *)
Theorem handler_connects (r : request) :
  (GoConnect ∈ NewHandlerFunc r
   <-> "graphql-ws" ∈ Subprotocols r /\ authorized r = true
       /\ upgraded r = Some "graphql-ws")
  /\ (GoConnect ∈ NewHandlerFunc r ->
      NewHandlerFunc r = [CheckAuth; Upgrade; GoConnect]).
Proof.
  unfold NewHandlerFunc.
  destruct (decide ("graphql-ws" ∈ Subprotocols r)) as [Hin|Hout].
  - rewrite (range_requested r _ Hin). unfold upgrade_request.
    destruct (authorized r); simpl.
    + destruct (upgraded r) as [p|].
      * destruct (decide (p ≠ protocolGraphQLWS)) as [Hne|He].
        -- split; [split|]; [intros H| intros (_ & _ & [= ->]); contradiction |intros H];
             repeat (apply elem_of_cons in H as [H|H]; [discriminate|]);
             apply elem_of_nil in H; contradiction.
        -- apply dec_stable in He. subst p. split; [split|]; auto.
           intros _. repeat constructor.
      * split; [split|]; [intros H| intros (_ & _ & [=]) |intros H];
          repeat (apply elem_of_cons in H as [H|H]; [discriminate|]);
          apply elem_of_nil in H; contradiction.
    + split; [split|]; [intros H| intros (_ & [=] & _) |intros H];
        repeat (apply elem_of_cons in H as [H|H]; [discriminate|]);
        apply elem_of_nil in H; contradiction.
  - rewrite (range_not_requested r _ Hout).
    split; [split|]; [intros H| intros (? & _); contradiction |intros H];
      repeat (apply elem_of_cons in H as [H|H]; [discriminate|]);
      apply elem_of_nil in H; contradiction.
Qed.

(** X19. NewHandlerFunc: the request reaches the fallback HTTP handler
    exactly when it does not offer the subprotocol graphql-ws, and then
    nothing else is called (no authorization check, no upgrade).  A request
    that offers graphql-ws is never passed on: when its authorization or its
    upgrade fails, the handler returns after those calls alone. *)
Theorem handler_fallback (r : request) :
  (ServeHTTP ∈ NewHandlerFunc r <-> "graphql-ws" ∉ Subprotocols r)
  /\ (ServeHTTP ∈ NewHandlerFunc r -> NewHandlerFunc r = [ServeHTTP])
  /\ (ServeHTTP ∉ NewHandlerFunc r ->
      exists calls, NewHandlerFunc r = CheckAuth :: calls /\ CheckAuth ∉ calls).
Proof.
  unfold NewHandlerFunc.
  destruct (decide ("graphql-ws" ∈ Subprotocols r)) as [Hin|Hout].
  - rewrite (range_requested r _ Hin).
    destruct (upgrade_request_head r) as (calls & -> & Hs & Hc).
    assert (Hno : ServeHTTP ∉ CheckAuth :: calls).
    { intros H. apply elem_of_cons in H as [H|H]; [discriminate|contradiction]. }
    split_and!.
    + split; intros H; contradiction.
    + intros H. contradiction.
    + intros _. exists calls. split; [reflexivity|exact Hc].
  - rewrite (range_not_requested r _ Hout). split_and!.
    + split; [intros _; exact Hout|intros _; apply list_elem_of_here].
    + reflexivity.
    + intros H. exfalso. apply H, list_elem_of_here.
Qed.

(** ** The bytes errPayload writes *)

Lemma html_escape_ascii (b : ascii) :
  (byte b <? 128)%N = true ->
  Forall (λ c, html_byte c = true) (list_ascii_of_string (escape_ascii b)).
Proof.
  destruct b as [[] [] [] [] [] [] [] []]; intros H; try discriminate H;
    vm_compute; repeat constructor.
Qed.

Lemma html_high (c : ascii) : (byte c <? 128)%N = false -> html_byte c = true.
Proof.
  destruct c as [[] [] [] [] [] [] [] []]; intros H; try discriminate H; reflexivity.
Qed.

Lemma cont_high (c : ascii) (lo hi : N) :
  (128 <= lo)%N -> in_range lo hi c = true -> (byte c <? 128)%N = false.
Proof.
  unfold in_range. intros Hlo H. apply andb_true_iff in H as [H _].
  apply N.leb_le in H. apply N.ltb_ge. lia.
Qed.

Lemma rune2_high (b0 b1 : ascii) :
  rune2 b0 b1 = true -> html_byte b0 = true /\ html_byte b1 = true.
Proof.
  unfold rune2, cont. intros H. apply andb_true_iff in H as [H0 H1].
  split; apply html_high; eapply cont_high; try eassumption; lia.
Qed.

Lemma rune3_high (b0 b1 b2 : ascii) :
  (byte b0 <? 128)%N = false -> rune3 b0 b1 b2 = true ->
  html_byte b0 = true /\ html_byte b1 = true /\ html_byte b2 = true.
Proof.
  unfold rune3, cont. intros H0 H. apply andb_true_iff in H as [H H2].
  split_and!; [apply html_high; exact H0| |apply html_high; eapply cont_high; [|exact H2]; lia].
  apply html_high.
  repeat match goal with
         | H : (_ || _) = true |- _ => apply orb_true_iff in H as [H|H]
         | H : (_ && _) = true |- _ => apply andb_true_iff in H as [? H]
         end; (eapply cont_high; [|exact H]; lia).
Qed.

Lemma rune4_high (b0 b1 b2 b3 : ascii) :
  (byte b0 <? 128)%N = false -> rune4 b0 b1 b2 b3 = true ->
  html_byte b0 = true /\ html_byte b1 = true /\ html_byte b2 = true
  /\ html_byte b3 = true.
Proof.
  unfold rune4, cont. intros H0 H. apply andb_true_iff in H as [H H3].
  apply andb_true_iff in H as [H H2].
  split_and!; [apply html_high; exact H0| |
               apply html_high; eapply cont_high; [|exact H2]; lia|
               apply html_high; eapply cont_high; [|exact H3]; lia].
  apply html_high.
  repeat match goal with
         | H : (_ || _) = true |- _ => apply orb_true_iff in H as [H|H]
         | H : (_ && _) = true |- _ => apply andb_true_iff in H as [? H]
         end; (eapply cont_high; [|exact H]; lia).
Qed.

Lemma html_encode_runes (s : string) :
  Forall (λ c, html_byte c = true) (list_ascii_of_string (encode_runes s)).
Proof.
  induction s as [s IH] using string_length_ind.
  destruct s as [|b0 s1]; [constructor|].
  assert (Hbad : Forall (λ c, html_byte c = true)
                   (list_ascii_of_string (replacement +:+ encode_runes s1))).
  { rewrite list_of_append. apply Forall_app. split.
    - vm_compute. repeat constructor.
    - apply IH. simpl. lia. }
  cbn [encode_runes].
  destruct (byte b0 <? 128)%N eqn:H0.
  { rewrite list_of_append. apply Forall_app. split.
    - apply html_escape_ascii. exact H0.
    - apply IH. simpl. lia. }
  destruct s1 as [|b1 s2]; [exact Hbad|].
  destruct (rune2 b0 b1) eqn:H2.
  { destruct (rune2_high _ _ H2). simpl. repeat (constructor; [assumption|]).
    apply IH. simpl. lia. }
  destruct s2 as [|b2 s3]; [exact Hbad|].
  destruct (rune3 b0 b1 b2) eqn:H3.
  { rewrite list_of_append. apply Forall_app. split; [|apply IH; simpl; lia].
    destruct (line_sep b0 b1 b2) eqn:Hls.
    - unfold line_sep in Hls.
      apply andb_true_iff in Hls as [_ Hls]. unfold in_range in Hls.
      apply andb_true_iff in Hls as [Hlo Hhi]. apply N.leb_le in Hlo, Hhi.
      assert (Hb2 : byte b2 = 168%N \/ byte b2 = 169%N) by lia.
      rewrite list_of_append. destruct Hb2 as [-> | ->]; vm_compute; repeat constructor.
    - destruct (rune3_high _ _ _ H0 H3) as (? & ? & ?). simpl.
      repeat (constructor; [assumption|]). constructor. }
  destruct s3 as [|b3 s4]; [exact Hbad|].
  destruct (rune4 b0 b1 b2 b3) eqn:H4; [|exact Hbad].
  destruct (rune4_high _ _ _ _ H0 H4) as (? & ? & ? & ?). simpl.
  repeat (constructor; [assumption|]). apply IH. simpl. lia.
Qed.

(** X15. The payload [errPayload] writes, for any error: its bytes contain no
    control byte and none of [<], [>], [&], whatever the error's text holds
    (they are written as escapes). *)
Theorem errPayload_html_safe (err : error) :
  exists p,
    errPayload err = Some p
    /\ Forall (λ c, html_byte c = true) (list_ascii_of_string p).
Proof.
  eexists. split; [reflexivity|].
  rewrite !list_of_append. unfold encode_string. simpl. rewrite !list_of_append.
  repeat first [apply Forall_cons; split; [reflexivity|]
               |apply Forall_app; split
               |apply html_encode_runes
               |apply Forall_nil_2].
Qed.

(** X16. The payload determines the message: two errors with the same
    payload have the same text, up to the coercion to valid UTF-8 (so the
    same text, when both are ASCII). *)
Theorem errPayload_inj (e1 e2 : error) :
  errPayload e1 = errPayload e2 ->
  to_valid_utf8 (Error e1) = to_valid_utf8 (Error e2)
  /\ (is_ascii (Error e1) = true -> is_ascii (Error e2) = true -> e1 = e2).
Proof.
  intros H. unfold errPayload, encode_string in H. injection H as H.
  apply append_inj_r in H. apply append_inj_r in H.
  assert (Hv : to_valid_utf8 (Error e1) = to_valid_utf8 (Error e2)).
  { pose proof (unquote_encode (Error e1)) as H1.
    pose proof (unquote_encode (Error e2)) as H2.
    rewrite H in H1. congruence. }
  split; [exact Hv|].
  intros A1 A2. rewrite !to_valid_utf8_ascii in Hv by assumption.
  destruct e1, e2. simpl in Hv. congruence.
Qed.

(** ** generateRandomString *)

Example generateRandomString_5 :
  generateRandomString 5 [3; 70; 1; 60; 26; 0; 2; 1; 1] = Some "a8IBD".
Proof. vm_compute. reflexivity. Qed.

Lemma insert_swap_perm (l : list ascii) (j : nat) (a y : ascii) :
  l !! j = Some y -> y :: <[j := a]> l ≡ₚ a :: l.
Proof.
  revert j. induction l as [|b l IH]; intros [|j] H; simplify_eq/=.
  - apply perm_swap.
  - rewrite perm_swap. rewrite (IH _ H). apply perm_swap.
Qed.

Lemma swap_perm (i j : nat) (buf : list ascii) : swap i j buf ≡ₚ buf.
Proof.
  unfold swap. destruct (buf !! i) as [x|] eqn:Hi; [|reflexivity].
  destruct (buf !! j) as [y|] eqn:Hj; [|reflexivity].
  revert i j Hi Hj. induction buf as [|b buf IH]; intros [|i] [|j] Hi Hj;
    simplify_eq/=; try reflexivity.
  - apply insert_swap_perm. exact Hj.
  - apply insert_swap_perm. exact Hi.
  - f_equiv. apply IH; assumption.
Qed.

Lemma shuffle_from_perm (i : nat) :
  forall (buf : list ascii) (draws : list nat), (shuffle_from i buf draws).1 ≡ₚ buf.
Proof.
  induction i as [|i IH]; intros buf draws; [reflexivity|].
  simpl. unfold bind. destruct (Intn (S (S i)) draws) as [j draws'].
  rewrite IH. apply swap_perm.
Qed.

Lemma get_elem_of (s : string) (k : nat) (c : ascii) :
  String.get k s = Some c -> c ∈ list_ascii_of_string s.
Proof.
  revert k. induction s as [|a s IH]; intros [|k] H; simplify_eq/=.
  - apply list_elem_of_here.
  - apply list_elem_of_further. eauto.
Qed.

Lemma get_in_range (s : string) (k : nat) :
  k < String.length s -> exists c, String.get k s = Some c.
Proof.
  revert k. induction s as [|a s IH]; intros [|k] H; simpl in *; try lia; eauto.
  apply IH. lia.
Qed.

Lemma at_index_elem_of (s : string) (k : nat) :
  k < String.length s -> at_index s k ∈ list_ascii_of_string s.
Proof.
  intros H. destruct (get_in_range s k H) as [c Hc]. unfold at_index. rewrite Hc.
  simpl. eapply get_elem_of. exact Hc.
Qed.

Lemma Intn_lt (n : nat) (draws : list nat) : 0 < n -> (Intn n draws).1 < n.
Proof.
  intros Hn. unfold Intn. destruct draws as [|r draws]; simpl; [exact Hn|].
  apply Nat.mod_upper_bound. lia.
Qed.

Lemma fill_spec (n : nat) :
  forall draws,
    length (fill n draws).1 = n
    /\ Forall (λ c, c ∈ list_ascii_of_string all) (fill n draws).1.
Proof.
  induction n as [|n IH]; intros draws.
  - split; [reflexivity|constructor].
  - cbn [fill]. unfold bind, ret.
    pose proof (Intn_lt (String.length all) draws) as Hk.
    destruct (Intn (String.length all) draws) as [k draws1]. simpl in Hk.
    specialize (IH draws1). destruct (fill n draws1) as [buf draws2]. simpl in *.
    destruct IH as [Hlen Hall]. split; [rewrite Hlen; reflexivity|].
    constructor; [|exact Hall]. apply at_index_elem_of. apply Hk. vm_compute. lia.
Qed.

Lemma generateRandomString_panics (length : Z) (draws : list nat) :
  (length <= 0)%Z -> generateRandomString length draws = None.
Proof.
  intros Hlen. unfold generateRandomString.
  rewrite (proj2 (Z.leb_le _ _)) by exact Hlen. reflexivity.
Qed.

(** X17. generateRandomString: for a positive length and whatever the random
    source yields, the string has exactly that length, each of its bytes is
    a letter or a digit, and at least one of them is among the first ten
    capital letters A to J: the byte drawn with [len(digits)] indexes [all],
    not [digits], so it is a letter and no digit is guaranteed. *)
Theorem generateRandomString_spec (length : Z) (draws : list nat) :
  (0 < length)%Z ->
  exists s,
    generateRandomString length draws = Some s
    /\ Z.of_nat (String.length s) = length
    /\ Forall (λ c, c ∈ list_ascii_of_string all) (list_ascii_of_string s)
    /\ Exists (λ c, c ∈ list_ascii_of_string "ABCDEFGHIJ") (list_ascii_of_string s).
Proof.
  intros Hlen. unfold generateRandomString.
  rewrite (proj2 (Z.leb_gt _ _)) by exact Hlen.
  unfold bind at 1.
  pose proof (Intn_lt (String.length digits) draws) as Hk.
  destruct (Intn (String.length digits) draws) as [k draws1]. simpl in Hk.
  assert (Hk10 : k < 10) by (apply Hk; vm_compute; lia).
  unfold bind.
  destruct (fill_spec (Z.to_nat length - 1) draws1) as [Hfl Hfa].
  destruct (fill (Z.to_nat length - 1) draws1) as [rest draws2]. simpl in Hfl, Hfa.
  unfold Shuffle.
  pose proof (shuffle_from_perm (Datatypes.length (at_index all k :: rest) - 1)
                (at_index all k :: rest) draws2) as Hperm.
  eexists. split; [reflexivity|].
  rewrite list_ascii_of_string_of_list_ascii.
  split_and!.
  - assert (Hl : forall l, String.length (string_of_list_ascii l) = Datatypes.length l).
    { induction l as [|a l IH]; simpl; [reflexivity|]. rewrite IH. reflexivity. }
    rewrite Hl, (Permutation_length Hperm). simpl. lia.
  - rewrite Hperm. constructor; [|exact Hfa].
    apply at_index_elem_of. vm_compute. lia.
  - rewrite Hperm. apply Exists_cons_hd.
    do 10 (destruct k as [|k]; [vm_compute; set_solver|]). lia.
Qed.

(** ** Instances of the further properties *)

Example handler_wrong_protocol :
  NewHandlerFunc (mkRequest ["soap"; "graphql-ws"] true (Some "soap"))
  = [CheckAuth; Upgrade; CloseSocket].
Proof. reflexivity. Qed.

Lemma init_answered_witness :
  exists s',
    demo_run (exchange (mkMsg EmptyString None typeConnectionInit)) (demo_Connect [])
    = Some s'
    /\ written s' = [mkMsg EmptyString None typeConnectionAck].
Proof.
  destruct (init_answered (service := demo_service) (json := demo_json)
              (demo_Connect []) (mkMsg EmptyString None typeConnectionInit))
    as (s' & Hrun & Hw & _).
  - reflexivity.
  - reflexivity.
  - reflexivity.
  - reflexivity.
  - exists s'. split; [exact Hrun|exact Hw].
Defined.

Lemma ping_answered_witness :
  exists s',
    demo_run (exchange (mkMsg "9" None typePing)) (demo_Connect []) = Some s'
    /\ written s' = [mkMsg EmptyString (Some "{check_subscription}") typePong].
Proof.
  destruct (ping_answered (service := demo_service) (json := demo_json)
              (demo_Connect []) (mkMsg "9" None typePing))
    as (s' & Hrun & Hw & _).
  - reflexivity.
  - reflexivity.
  - reflexivity.
  - reflexivity.
  - exists s'. split; [exact Hrun|exact Hw].
Defined.

Lemma unknown_type_answered_witness :
  exists s',
    demo_run (exchange (mkMsg "4" None typeData)) (demo_Connect []) = Some s'
    /\ written s'
       = [mkMsg "4" (errPayload (mkError "unknown operation message of type: data"))
            typeError]
    /\ closes s' = 0.
Proof.
  destruct (unknown_type_answered (service := demo_service) (json := demo_json)
              (demo_Connect []) (mkMsg "4" None typeData))
    as (s' & Hrun & Hw & _ & _ & Hc & _).
  - reflexivity.
  - reflexivity.
  - reflexivity.
  - intros H. repeat (apply elem_of_cons in H as [H|H]; [discriminate|]).
    apply elem_of_nil in H. exact H.
  - exists s'. split_and!; [exact Hrun|exact Hw|exact Hc].
Defined.

Lemma start_undecodable_answered_witness :
  exists s',
    demo_run (exchange (mkMsg "3" None typeStart)) (demo_Connect []) = Some s'
    /\ written s'
       = [mkMsg "3" (errPayload (mkError "invalid payload for type: start"))
            typeConnectionError]
    /\ service_log s' = [].
Proof.
  destruct (start_undecodable_answered (service := demo_service) (json := demo_json)
              (demo_Connect []) (mkMsg "3" None typeStart)
              (mkError "unexpected end of JSON input"))
    as (s' & Hrun & Hw & _ & _ & _ & Hl & _).
  - reflexivity.
  - reflexivity.
  - reflexivity.
  - reflexivity.
  - discriminate.
  - reflexivity.
  - exists s'. split_and!; [exact Hrun|exact Hw|exact Hl].
Defined.

Lemma start_then_stop_witness :
  o_opDone (handle (service := demo_service) (json := demo_json)
              (o_opDone (handle (service := demo_service) (json := demo_json)
                           ∅ 0 (mkMsg "1" (Some "Q1") typeStart)))
              1 (mkMsg "1" None typeStop))
  = ∅.
Proof.
  pose proof (start_then_stop (service := demo_service) (json := demo_json)
                ∅ 0 1 (mkMsg "1" (Some "Q1") typeStart) (mkMsg "1" None typeStop)
                (mkStart EmptyString "Q1" tt) [Some "A"; Some "B"]) as H.
  cbv zeta in H.
  destruct H as (_ & _ & _ & _ & _ & _ & _ & H).
  - reflexivity.
  - discriminate.
  - reflexivity.
  - reflexivity.
  - reflexivity.
  - reflexivity.
  - apply H. reflexivity.
Defined.

Lemma table_changes_witness :
  exists msg,
    Type_ msg = typeStop
    /\ opDone (demo_state (started_once ++ [Read (Some msg)]))
       = delete (ID msg) (opDone (demo_state started_once)).
Proof.
  destruct (table_changes (service := demo_service) (json := demo_json)
              (Read (Some (mkMsg "1" None typeStop)))
              (demo_state started_once)
              (demo_state (started_once ++ [Read (Some (mkMsg "1" None typeStop))])))
    as (msg & Ha & [(Ht & _) | (Ht & Hd)]).
  - vm_compute. reflexivity.
  - intros H. apply (f_equal (λ m, m !! "1")) in H. vm_compute in H. discriminate.
  - injection Ha as <-. discriminate.
  - injection Ha as <-. eexists. split; [exact Ht|exact Hd].
Defined.

Lemma loop_exit_witness :
  reader (demo_state [Read None]) = RDefer
  /\ closes (demo_state [Read None]) = 0.
Proof.
  destruct (loop_exit (service := demo_service) (json := demo_json)
              (Read None) (demo_Connect []) (demo_state [Read None]))
    as (_ & Hr & _ & _ & _ & _ & Hc).
  - reflexivity.
  - reflexivity.
  - reflexivity.
  - split; [exact Hr|exact Hc].
Defined.

Lemma writer_discipline_witness :
  calls_of Writer (ws_log (demo_state stop_race))
  = [SetWriteDeadline Second true; WriteJSON (mkMsg "1" None typeComplete) true;
     SetWriteDeadline Second true; WriteJSON (mkMsg "1" (Some "A") typeData) true]
  /\ exists u, writer_accepts Second (calls_of Writer (ws_log (demo_state stop_race)))
               = Some u.
Proof.
  split; [vm_compute; reflexivity|].
  destruct (writer_discipline (service := demo_service) (json := demo_json)
              [] stop_race (demo_state stop_race))
    as (_ & u & Hu & _).
  - vm_compute. reflexivity.
  - exists u. exact Hu.
Defined.

Lemma cancelled_writes_witness :
  written (demo_state cancel_armed) = []
  /\ length (written (demo_state
               (cancel_armed ++ [WriterWrite true; StreamRecv 0; WriterDone]))) <= 1.
Proof.
  split; [vm_compute; reflexivity|].
  destruct (cancelled_writes (service := demo_service) (json := demo_json)
              [WriterWrite true; StreamRecv 0; WriterDone]
              (demo_state cancel_armed)
              (demo_state (cancel_armed ++ [WriterWrite true; StreamRecv 0; WriterDone])))
    as (_ & H).
  - vm_compute. reflexivity.
  - vm_compute. reflexivity.
  - vm_compute in H. vm_compute. exact H.
Defined.

Lemma returned_writer_silent_witness :
  s_pc <$> streamers (demo_state (writer_returned ++ after_return)) = [SSelect]
  /\ written (demo_state (writer_returned ++ after_return)) = [].
Proof.
  split; [vm_compute; reflexivity|].
  destruct (returned_writer_silent (service := demo_service) (json := demo_json)
              after_return (demo_state writer_returned)
              (demo_state (writer_returned ++ after_return)))
    as (_ & H).
  - vm_compute. reflexivity.
  - vm_compute. reflexivity.
  - rewrite H. vm_compute. reflexivity.
Defined.

Lemma teardown_completes_witness :
  s_pc <$> streamers (demo_state stop_race) = [SSelect]
  /\ exists s',
       demo_run (shutdown true (demo_state stop_race)) (demo_state stop_race) = Some s'
       /\ Forall (λ g, s_pc g = SDone) (streamers s')
       /\ reader s' = RDone /\ writer s' = WDone.
Proof.
  split; [vm_compute; reflexivity|].
  destruct (teardown_completes (service := demo_service) (json := demo_json)
              [] stop_race (demo_state stop_race) true)
    as (s' & Hrun & Hr & Hw & _ & Hs & _).
  - vm_compute. reflexivity.
  - exists s'. split_and!; assumption.
Defined.

Lemma stop_local_witness :
  exists s',
    demo_step (Read (Some (mkMsg "1" None typeStop))) (demo_state started_once) = Some s'
    /\ scope_done 0 s' = true /\ ctxDone s' = false.
Proof.
  destruct (stop_local (service := demo_service) (json := demo_json)
              [] started_once (demo_state started_once) (mkMsg "1" None typeStop) 0)
    as (s' & i & g & Hstep & _ & _ & _ & Hd & Hc & _).
  - vm_compute. reflexivity.
  - vm_compute. reflexivity.
  - reflexivity.
  - vm_compute. reflexivity.
  - exists s'. split_and!; [exact Hstep|exact Hd|rewrite Hc; vm_compute; reflexivity].
Defined.

Lemma errPayload_inj_witness :
  to_valid_utf8 "missing ID for start operation" = "missing ID for start operation"
  /\ to_valid_utf8 (Error (mkError "missing ID for start operation"))
     = to_valid_utf8 "missing ID for start operation".
Proof.
  split; [vm_compute; reflexivity|].
  apply (errPayload_inj (mkError "missing ID for start operation")
           (mkError "missing ID for start operation")).
  reflexivity.
Defined.

Lemma generateRandomString_spec_witness :
  generateRandomString 16 [7; 61; 13; 100; 5] <> None
  /\ exists s,
       generateRandomString 16 [7; 61; 13; 100; 5] = Some s
       /\ Z.of_nat (String.length s) = 16%Z.
Proof.
  split; [vm_compute; discriminate|].
  destruct (generateRandomString_spec 16 [7; 61; 13; 100; 5]) as (s & Hs & Hl & _).
  - lia.
  - exists s. split; assumption.
Defined.

Lemma handler_connects_witness :
  NewHandlerFunc (mkRequest ["soap"; "graphql-ws"] true (Some "graphql-ws"))
  = [CheckAuth; Upgrade; GoConnect].
Proof.
  apply (proj2 (handler_connects
                  (mkRequest ["soap"; "graphql-ws"] true (Some "graphql-ws")))).
  apply (proj2 (proj1 (handler_connects
                  (mkRequest ["soap"; "graphql-ws"] true (Some "graphql-ws"))))).
  split_and!; [|reflexivity|reflexivity].
  apply list_elem_of_further, list_elem_of_here.
Defined.

Lemma handler_fallback_witness :
  NewHandlerFunc (mkRequest ["soap"; "wamp"] false None) = [ServeHTTP].
Proof.
  destruct (handler_fallback (mkRequest ["soap"; "wamp"] false None)) as (Hiff & Hs & _).
  apply Hs, Hiff.
  intros H. repeat (apply elem_of_cons in H as [H|H]; [discriminate|]).
  apply elem_of_nil in H. exact H.
Defined.
